(** * Deadlock detection tool: the detection engine of
      [src/utils/deadlockAlgorithm.ts] and the components that call it
      ([src/components/ResourceTable.tsx], [src/components/DeadlockDetector.tsx]),
      embedded in Rocq.

    The TypeScript module exports three functions over an allocation matrix:
    [calculateAvailableResources], [detectDeadlock] and
    [generateResourceFlowGraph].  Quantities are integer counts ([Z]); the
    string-keyed objects used as dictionaries ([allocation], [request],
    [availableResources]) are finite maps of their own entries; the [Set] of
    finished ids is a finite set.  [Process] and [Resource] values are
    JavaScript objects, held by reference: they live in an object store, and
    a matrix holds their addresses, so that a write through one reference is
    seen through every other one.

    Conventions of the embedding:
    - a number is a double: an addition or a subtraction yields the double
      nearest to the exact result ([fl]), which is the exact result as long
      as it stays within 2^53 in absolute value; the infinities of the
      format (magnitudes from 2^1024 on) are outside the embedding;
    - [availableResources] is a plain object: reading it under a name that
      [Object.prototype] defines ([inheritedNames]) and that it has no entry
      of its own for yields an inherited function or object, not a number
      ([readOr0]), and a write under ["__proto__"] is lost ([assign]);
    - [Object.entries] is [map_to_list]: the entries in a fixed order, which
      need not be the insertion order;
    - the [while] loop of [detectDeadlock] takes one unit of fuel per round,
      and the termination theorem says how much is enough. *)

From Stdlib Require Import ZArith String.
From Stdlib Require QArith.
From stdpp Require Import gmap strings list fin_maps pretty.

Local Open Scope string_scope.
Local Open Scope list_scope.
Local Open Scope Z_scope.

(** ** Numbers

    The double nearest to a non-negative integer: the integer itself below
    2^53, and from there on the nearest multiple of the spacing [ulp] of the
    doubles around it, the one with the even quotient when two are equally
    near. *)
Definition nearest (a : Z) : Z :=
  if a <? 2 ^ 53 then a
  else
    let ulp := 2 ^ (Z.log2 a - 52) in
    let q := a / ulp in
    let r := a mod ulp in
    if 2 * r <? ulp then q * ulp
    else if ulp <? 2 * r then (q + 1) * ulp
    else if Z.even q then q * ulp else (q + 1) * ulp.

(** The double nearest to an integer: what an addition or a subtraction
    with that exact result yields. *)
Definition fl (z : Z) : Z := Z.sgn z * nearest (Z.abs z).

(** ** Values read from a plain object

    What [availableResources[id]] can hold or yield: a number, or a value
    that is not a number (a function or an object inherited from
    [Object.prototype], or the string that an addition made of one). *)
Inductive Value :=
  | Num (n : Z)
  | NotNum.

(** The names [Object.prototype] defines: every plain object has a
    property under each of them. *)
Definition inheritedNames : list string :=
  [ "constructor"; "hasOwnProperty"; "isPrototypeOf"; "propertyIsEnumerable";
    "toLocaleString"; "toString"; "valueOf";
    "__defineGetter__"; "__defineSetter__"; "__lookupGetter__"; "__lookupSetter__";
    "__proto__" ].

(** [object[id] || 0] on a plain object with the own entries [object]: an
    own entry (the number 0 stays 0, a string is not empty), else what is
    inherited under [id] (a function or an object), else [undefined || 0]. *)
Definition readOr0 (object : gmap string Value) (id : string) : Value :=
  match object !! id with
  | Some v => v
  | None => if decide (id ∈ inheritedNames) then NotNum else Num 0
  end.

(** [object[id] = v] for a number or a string [v]: an own entry is written,
    except under ["__proto__"], whose setter ignores such a value. *)
Definition assign (object : gmap string Value) (id : string) (v : Value)
  : gmap string Value :=
  if decide (id = "__proto__") then object else <[id := v]> object.

(** [v + n] for a number [n]: a sum of two numbers is rounded; with a value
    that is not a number the result is a string. *)
Definition plus (v : Value) (n : Z) : Value :=
  match v with
  | Num m => Num (fl (m + n))
  | NotNum => NotNum
  end.

(** ** Data model (lines 2-18 and 42-53 of the source) *)

Record Process := mkProcess {
  process_id : string;
  allocation : gmap string Z;
  request : gmap string Z
}.

Record Resource := mkResource {
  resource_id : string;
  total : Z;
  available : Z;
  isMultiInstance : bool
}.

(** [resource.available = v] *)
Definition set_available (r : Resource) (v : Z) : Resource :=
  {| resource_id := resource_id r; total := total r; available := v;
     isMultiInstance := isMultiInstance r |}.

(** Addresses of objects, and the objects a matrix refers to. *)
Definition loc := positive.

Inductive object :=
  | ProcessObj (p : Process)
  | ResourceObj (r : Resource).

Abbreviation heap := (gmap loc object).

(** [AllocationMatrix]: two arrays of object references. *)
Record AllocationMatrix := mkMatrix {
  processes : list loc;
  resources : list loc
}.

(** The plain data a matrix denotes: what [JSON.stringify] writes out. *)
Record MatrixValue := mkValue {
  v_processes : list Process;
  v_resources : list Resource
}.

Record DetectionStep := mkStep {
  description : string;
  remainingProcesses : list string;
  availableResources : gmap string Value;
  processedThisRound : list string
}.

Record DetectionResult := mkResult {
  deadlocked : list string;
  safeSequence : option (list string);
  steps : list DetectionStep
}.

(** ** Store-passing computations

    A computation reads and writes the object store.  It yields [None] only
    when it follows a reference that holds no object of the expected class,
    which the TypeScript types rule out. *)

Definition M (A : Type) : Type := heap -> option (A * heap).

Definition ret {A} (a : A) : M A := fun h => Some (a, h).

Definition bind {A B} (m : M A) (k : A -> M B) : M B :=
  fun h => match m h with
           | Some (a, h') => k a h'
           | None => None
           end.

Notation "'let*' x ':=' m 'in' k" := (bind m (fun x => k))
  (at level 10, x name, m at level 100, k at level 200).
Notation "m ';;' k" := (bind m (fun _ => k))
  (at level 100, k at level 200, right associativity).

Definition readProcess (l : loc) : M Process :=
  fun h => match h !! l with
           | Some (ProcessObj p) => Some (p, h)
           | _ => None
           end.

Definition readResource (l : loc) : M Resource :=
  fun h => match h !! l with
           | Some (ResourceObj r) => Some (r, h)
           | _ => None
           end.

Definition writeObject (l : loc) (o : object) : M unit :=
  fun h => Some (tt, <[l := o]> h).

(** A new object, at an address no object has yet. *)
Definition newObject (o : object) : M loc :=
  fun h => let l := fresh (dom h) in Some (l, <[l := o]> h).

(** [array.forEach(f)] *)
Fixpoint forEach {A} (xs : list A) (f : A -> M unit) : M unit :=
  match xs with
  | [] => ret tt
  | x :: xs' => f x ;; forEach xs' f
  end.

(** [array.map(f)], when [f] reads the store. *)
Fixpoint mapM {A B} (f : A -> M B) (xs : list A) : M (list B) :=
  match xs with
  | [] => ret []
  | x :: xs' => let* y := f x in let* ys := mapM f xs' in ret (y :: ys)
  end.

(** ** [calculateAvailableResources] (lines 21-40) *)

(** [resources.find(r => r.id === resourceId)]: the first match. *)
Fixpoint findResource (rs : list loc) (resourceId : string) : M (option loc) :=
  match rs with
  | [] => ret None
  | l :: rs' =>
      let* r := readResource l in
      if decide (resource_id r = resourceId) then ret (Some l)
      else findResource rs' resourceId
  end.

(** The body of the inner [forEach] (lines 31-36). *)
Definition subtractAllocated (rs : list loc) (entry : string * Z) : M unit :=
  let* found := findResource rs entry.1 in
  match found with
  | Some l =>
      let* r := readResource l in
      writeObject l (ResourceObj (set_available r (fl (available r - entry.2))))
  | None => ret tt
  end.

Definition calculateAvailableResources (matrix : AllocationMatrix) : M (list loc) :=
  (* [...matrix.resources]: a new array of the same references *)
  let rs := resources matrix in
  forEach rs (fun l =>
    let* r := readResource l in
    writeObject l (ResourceObj (set_available r (total r)))) ;;
  forEach (processes matrix) (fun pl =>
    let* process := readProcess pl in
    forEach (map_to_list (allocation process)) (subtractAllocated rs)) ;;
  ret rs.

(** ** [JSON.parse(JSON.stringify(matrix))] (line 58)

    [JSON_stringify] reads the whole matrix; [JSON_parse] builds new objects
    from what was read, one per array element (two references to one object
    come back as two objects). *)

Definition JSON_stringify (matrix : AllocationMatrix) : M MatrixValue :=
  let* ps := mapM readProcess (processes matrix) in
  let* rs := mapM readResource (resources matrix) in
  ret (mkValue ps rs).

Definition JSON_parse (json : MatrixValue) : M AllocationMatrix :=
  let* ps := mapM (fun p => newObject (ProcessObj p)) (v_processes json) in
  let* rs := mapM (fun r => newObject (ResourceObj r)) (v_resources json) in
  ret (mkMatrix ps rs).

(** ** [detectDeadlock] (lines 56-173) *)

(** The local variables the [while] loop updates. *)
Record LoopState := mkState {
  finished : gset string;
  current : gmap string Value;      (* availableResources *)
  sequence : list string;           (* safeSequence *)
  trace : list DetectionStep        (* steps *)
}.

(** Lines 63-66: [availableResources[resource.id] = resource.available]. *)
Fixpoint collectAvailable (rs : list loc) (acc : gmap string Value)
  : M (gmap string Value) :=
  match rs with
  | [] => ret acc
  | l :: rs' =>
      let* resource := readResource l in
      collectAvailable rs' (assign acc (resource_id resource) (Num (available resource)))
  end.

(** Line 101: [requested > available]; a value that is not a number
    compares as [NaN], and the test is false. *)
Definition exceeds (requested : Z) (available : Value) : bool :=
  match available with
  | Num n => requested >? n
  | NotNum => false
  end.

(** Lines 93-104: the [canFinish] flag after the [forEach] over the request
    entries. *)
Definition canFinish (process : Process) (availableResources : gmap string Value) : bool :=
  foldl (fun flag entry =>
           if entry.2 <=? 0 then flag
           else if exceeds entry.2 (readOr0 availableResources entry.1) then false
           else flag)
        true (map_to_list (request process)).

(** Lines 110-112: the allocation entries are added back. *)
Definition release (process : Process) (availableResources : gmap string Value)
  : gmap string Value :=
  foldl (fun av entry => assign av entry.1 (plus (readOr0 av entry.1) entry.2))
        availableResources (map_to_list (allocation process)).

(** Lines 117-121. *)
Definition admissionDescription (process : Process) : string :=
  let description :=
    "Process " +:+ process_id process +:+ " can be executed with the available resources." in
  let description :=
    if existsb (fun val => val >? 0) ((map_to_list (request process)).*2)
    then description +:+ " Its resource requests can be satisfied."
    else description in
  description +:+ " After completion, " +:+ process_id process +:+ " releases its resources.".

(** Lines 108-128: the admission of [process]. *)
Definition admitProcess (allProcessIds : list string) (process : Process) (st : LoopState) : LoopState :=
  let finished' := finished st ∪ {[process_id process]} in
  let available' := release process (current st) in
  {| finished := finished';
     current := available';
     sequence := sequence st ++ [process_id process];
     trace := trace st ++
       [ {| description := admissionDescription process;
            remainingProcesses := filter (fun id => id ∉ finished') allProcessIds;
            availableResources := available';
            processedThisRound := [process_id process] |} ] |}.

(** Lines 88-133: the [for] loop of one round; [Some] when a process was
    admitted (and the loop left by [break]), [None] when the scan reached the
    end of the list with [changeInLastIteration] still false. *)
Fixpoint scan (allProcessIds : list string) (ps : list Process) (st : LoopState)
  : option LoopState :=
  match ps with
  | [] => None
  | process :: rest =>
      if decide (process_id process ∈ finished st) then scan allProcessIds rest st
      else if canFinish process (current st) then Some (admitProcess allProcessIds process st)
      else scan allProcessIds rest st
  end.

(** Lines 137-153. *)
Definition deadlockResult (ps : list Process) (st : LoopState) : DetectionResult :=
  let deadlocked :=
    process_id <$> (filter (fun p => process_id p ∉ finished st) ps) in
  {| deadlocked := deadlocked;
     safeSequence := None;
     steps := trace st ++
       [ {| description :=
              "No process can be satisfied with the available resources. Deadlock detected involving processes: "
              +:+ String.concat ", " deadlocked;
            remainingProcesses := deadlocked;
            availableResources := current st;
            processedThisRound := [] |} ] |}.

(** Lines 157-172. *)
Definition safeResult (st : LoopState) : DetectionResult :=
  {| deadlocked := [];
     safeSequence := Some (sequence st);
     steps :=
       if decide (1 < length (trace st))%nat then
         trace st ++
         [ {| description :=
                "All processes have been executed successfully. System is in a safe state. Safe sequence: "
                +:+ String.concat " → " (sequence st);
              remainingProcesses := [];
              availableResources := current st;
              processedThisRound := [] |} ]
       else trace st |}.

(** Lines 136-172: what is returned once a round admitted nobody. *)
Definition finish (ps : list Process) (st : LoopState) : DetectionResult :=
  if decide (size (finished st) < length ps)%nat
  then deadlockResult ps st
  else safeResult st.

(** Lines 84-155: the [while] loop, one round per unit of fuel; [None] when
    the fuel runs out before the loop ends. *)
Fixpoint whileLoop (fuel : nat) (allProcessIds : list string) (ps : list Process)
    (st : LoopState) : option DetectionResult :=
  match fuel with
  | O => None
  | S fuel' =>
      match scan allProcessIds ps st with
      | Some st' => whileLoop fuel' allProcessIds ps st'
      | None => Some (finish ps st)
      end
  end.

(** Lines 68-80: the loop's initial state. *)
Definition initialState (allProcessIds : list string)
    (availableResources : gmap string Value) : LoopState :=
  {| finished := ∅;
     current := availableResources;
     sequence := [];
     trace := [ {| description := "Initial available resources";
                   remainingProcesses := allProcessIds;
                   availableResources := availableResources;
                   processedThisRound := [] |} ] |}.

(** Lines 57-80: the working copy, its availability, and the loop's initial
    state.  The process objects of the working copy are read once, here:
    nothing writes to them afterwards. *)
Definition setup (matrix : AllocationMatrix) : M (list Process * LoopState) :=
  let* json := JSON_stringify matrix in
  let* workingMatrix := JSON_parse json in
  let* rs := calculateAvailableResources workingMatrix in
  let workingMatrix := mkMatrix (processes workingMatrix) rs in
  let* availableResources := collectAvailable (resources workingMatrix) ∅ in
  let* ps := mapM readProcess (processes workingMatrix) in
  ret (ps, initialState (process_id <$> ps) availableResources).

Definition detectDeadlock (fuel : nat) (matrix : AllocationMatrix)
  : M (option DetectionResult) :=
  let* start := setup matrix in
  ret (whileLoop fuel (process_id <$> start.1) start.1 start.2).

(** ** [generateResourceFlowGraph] (lines 175-227) *)

Inductive NodeData :=
  | ProcessData (label : string)
  | ResourceData (label : string) (instances : Z) (multi : bool).

Record Node := mkNode {
  node_id : string;
  node_type : string;
  node_data : NodeData
}.

Record Edge := mkEdge {
  edge_id : string;
  source : string;
  target : string;
  edge_type : string;
  amount : Z
}.

Record Graph := mkGraph {
  nodes : list Node;
  edges : list Edge
}.

Definition processNode (process : Process) : Node :=
  {| node_id := process_id process;
     node_type := "process";
     node_data := ProcessData (process_id process) |}.

Definition resourceNode (resource : Resource) : Node :=
  {| node_id := resource_id resource;
     node_type := "resource";
     node_data := ResourceData (resource_id resource) (total resource)
                               (isMultiInstance resource) |}.

Definition allocationEdge (process : Process) (entry : string * Z) : Edge :=
  {| edge_id := entry.1 +:+ "-" +:+ process_id process;
     source := entry.1;
     target := process_id process;
     edge_type := "allocation";
     amount := entry.2 |}.

Definition requestEdge (process : Process) (entry : string * Z) : Edge :=
  {| edge_id := process_id process +:+ "-" +:+ entry.1;
     source := process_id process;
     target := entry.1;
     edge_type := "request";
     amount := entry.2 |}.

(** [Object.entries(m).filter(([_, amount]) => amount > 0)] *)
Definition positiveEntries (m : gmap string Z) : list (string * Z) :=
  filter (fun entry => entry.2 > 0) (map_to_list m).

Definition buildGraph (ps : list Process) (rs : list Resource) : Graph :=
  let nodes := (processNode <$> ps) ++ (resourceNode <$> rs) in
  let allocationEdges :=
    flat_map (fun process =>
      allocationEdge process <$> positiveEntries (allocation process)) ps in
  let requestEdges :=
    flat_map (fun process =>
      requestEdge process <$> positiveEntries (request process)) ps in
  {| nodes := nodes; edges := allocationEdges ++ requestEdges |}.

(** The function only reads its argument: the objects are read where the
    source maps over the two arrays, and the graph is built from what was
    read. *)
Definition generateResourceFlowGraph (matrix : AllocationMatrix) : M Graph :=
  let* ps := mapM readProcess (processes matrix) in
  let* rs := mapM readResource (resources matrix) in
  ret (buildGraph ps rs).

(** ** Example matrices

    [store_of] lays a list of objects out at addresses 1, 2, ... *)

Fixpoint store_from (l : loc) (os : list object) : heap :=
  match os with
  | [] => ∅
  | o :: os' => <[l := o]> (store_from (Pos.succ l) os')
  end.

Definition store_of (os : list object) : heap := store_from 1%positive os.

Definition entries (l : list (string * Z)) : gmap string Z := list_to_map l.

Definition P1 : Process :=
  mkProcess "P1" (entries [("R1", 1); ("R2", 0)]) (entries [("R1", 0); ("R2", 1)]).
Definition P2 : Process :=
  mkProcess "P2" (entries [("R1", 0); ("R2", 1)]) (entries [("R1", 1); ("R2", 0)]).
Definition P3 : Process :=
  mkProcess "P3" (entries [("R1", 0); ("R2", 1)]) (entries [("R1", 0); ("R2", 0)]).
Definition R1 : Resource := mkResource "R1" 1 0 false.
Definition R2 : Resource := mkResource "R2" 1 0 false.

(** Scenario A: two processes, each holding what the other requests. *)
Definition scenarioA_value : MatrixValue := mkValue [P1; P2] [R1; R2].
Definition scenarioA_store : heap :=
  store_of [ProcessObj P1; ProcessObj P2; ResourceObj R1; ResourceObj R2].
Definition scenarioA : AllocationMatrix :=
  mkMatrix [1%positive; 2%positive] [3%positive; 4%positive].

(** Scenario B: the sample of the editor; [P3] requests nothing, and there
    are two instances of [R2]. *)
Definition R2' : Resource := mkResource "R2" 2 0 true.
Definition scenarioB_value : MatrixValue := mkValue [P1; P2; P3] [R1; R2'].
Definition scenarioB_store : heap :=
  store_of [ProcessObj P1; ProcessObj P2; ProcessObj P3; ResourceObj R1; ResourceObj R2'].
Definition scenarioB : AllocationMatrix :=
  mkMatrix [1%positive; 2%positive; 3%positive] [4%positive; 5%positive].

(** Scenario A with a third process that holds and requests nothing. *)
Definition P0 : Process :=
  mkProcess "P0" (entries [("R1", 0); ("R2", 0)]) (entries [("R1", 0); ("R2", 0)]).
Definition bystander_value : MatrixValue := mkValue [P1; P2; P0] [R1; R2].
Definition bystander_store : heap :=
  store_of [ProcessObj P1; ProcessObj P2; ProcessObj P0; ResourceObj R1; ResourceObj R2].
Definition bystander : AllocationMatrix :=
  mkMatrix [1%positive; 2%positive; 3%positive] [4%positive; 5%positive].

(** A matrix as the editor leaves it after a resource was added (with
    [available] set to its instance count) and then allocated. *)
Definition holder : Process :=
  mkProcess "P1" (entries [("R1", 1)]) (entries [("R1", 0)]).
Definition edited_store : heap :=
  store_of [ProcessObj holder; ResourceObj (mkResource "R1" 1 1 false)].
Definition edited : AllocationMatrix := mkMatrix [1%positive] [2%positive].

(** Two resources under one id. *)
Definition twinResources_value : MatrixValue := mkValue [holder] [R1; R1].
Definition twinResources_store : heap :=
  store_of [ProcessObj holder; ResourceObj R1; ResourceObj R1].
Definition twinResources : AllocationMatrix :=
  mkMatrix [1%positive] [2%positive; 3%positive].

(** Two processes under one id; the first requests a resource nobody has. *)
Definition waiting : Process := mkProcess "P1" ∅ (entries [("X", 1)]).
Definition idle : Process := mkProcess "P1" ∅ ∅.
Definition twinProcesses_value : MatrixValue := mkValue [waiting; idle] [].
Definition twinProcesses_store : heap := store_of [ProcessObj waiting; ProcessObj idle].
Definition twinProcesses : AllocationMatrix :=
  mkMatrix [1%positive; 2%positive] [].

(** Two processes with distinct ids; the first requests a resource nobody
    has. *)
Definition other : Process := mkProcess "P2" ∅ ∅.
Definition stranger_value : MatrixValue := mkValue [waiting; other] [].
Definition stranger_store : heap := store_of [ProcessObj waiting; ProcessObj other].
Definition stranger : AllocationMatrix := mkMatrix [1%positive; 2%positive] [].

(** ** Specification-side definitions *)

(** Sum of a list of integers. *)
Definition sumZ (l : list Z) : Z := foldr Z.add 0 l.

(** A computation run from store [h] returns, and its result and final
    store satisfy [Q]. *)
Definition wp {A} (m : M A) (Q : A -> heap -> Prop) (h : heap) : Prop :=
  match m h with
  | Some (a, h') => Q a h'
  | None => False
  end.

(** The store [h] holds, at the references of [matrix], the objects whose
    data is [v]. *)
Definition holds (h : heap) (matrix : AllocationMatrix) (v : MatrixValue) : Prop :=
  Forall2 (fun l p => h !! l = Some (ProcessObj p)) (processes matrix) (v_processes v) /\
  Forall2 (fun l r => h !! l = Some (ResourceObj r)) (resources matrix) (v_resources v).

(** An integer that a double holds exactly. *)
Definition isDouble (z : Z) : Prop := fl z = z.

#[global] Instance isDouble_dec (z : Z) : Decision (isDouble z) := Z.eq_dec (fl z) z.

(** Every number of [v] is a double. *)
Definition doubles (v : MatrixValue) : Prop :=
  Forall (fun p => map_Forall (fun _ a => isDouble a) (allocation p) /\
                   map_Forall (fun _ q => isDouble q) (request p)) (v_processes v) /\
  Forall (fun r => isDouble (total r) /\ isDouble (available r)) (v_resources v).

(** The matrix denotes the data [v] in the store [h]: the store holds the
    objects, and their numbers are doubles, as the numbers of a JavaScript
    store are. *)
Definition denotes (h : heap) (matrix : AllocationMatrix) (v : MatrixValue) : Prop :=
  holds h matrix v /\ doubles v.

(** Every object of [h] is still in [h'], unchanged. *)
Definition preserved (h h' : heap) : Prop :=
  forall l o, h !! l = Some o -> h' !! l = Some o.

(** The first reference of [rs] whose object in [h] carries id [rid]: what
    [resources.find] returns. *)
Fixpoint firstWithId (h : heap) (rs : list loc) (rid : string) : option loc :=
  match rs with
  | [] => None
  | l :: rs' =>
      match h !! l with
      | Some (ResourceObj r) =>
          if decide (resource_id r = rid) then Some l else firstWithId h rs' rid
      | _ => firstWithId h rs' rid
      end
  end.

(** What the allocation entry [e] takes from the resource object at [l]. *)
Definition taken (h : heap) (rs : list loc) (l : loc) (e : string * Z) : Z :=
  if decide (firstWithId h rs e.1 = Some l) then e.2 else 0.

(** What the processes [ps] take from the resource object at [l]. *)
Definition allocatedAt (h : heap) (rs : list loc) (ps : list Process) (l : loc) : Z :=
  sumZ (map (fun p => sumZ (map (taken h rs l) (map_to_list (allocation p)))) ps).

(** The [total] of the resource object at [l]. *)
Definition totalAt (h : heap) (l : loc) : Z :=
  match h !! l with
  | Some (ResourceObj r) => total r
  | _ => 0
  end.

(** The allocation entries of the processes, in the order in which lines
    30-37 visit them. *)
Definition entriesOf (ps : list Process) : list (string * Z) :=
  flat_map (fun p => map_to_list (allocation p)) ps.

(** What line 34 makes of the [available] amount [a] of the resource object
    at [l] for the allocation entry [e]. *)
Definition subtractFrom (h : heap) (rs : list loc) (l : loc) (a : Z) (e : string * Z) : Z :=
  if decide (firstWithId h rs e.1 = Some l) then fl (a - e.2) else a.

(** The [available] amount lines 25-37 leave in the resource object at
    [l]. *)
Definition availableAt (h : heap) (rs : list loc) (ps : list Process) (l : loc) : Z :=
  foldl (subtractFrom h rs l) (totalAt h l) (entriesOf ps).

(** Store [h] is store [h0] with the [available] field of each resource
    object [l] of [rs] set to [f l]. *)
Definition recomputed (h0 : heap) (rs : list loc) (f : loc -> Z) (h : heap) : Prop :=
  (forall l, l ∉ rs -> h !! l = h0 !! l) /\
  (forall l r, l ∈ rs -> h0 !! l = Some (ResourceObj r) ->
     h !! l = Some (ResourceObj (set_available r (f l)))).

(** The amount of [rid] in an availability dictionary: the number it holds
    under [rid], and 0 when it holds none. *)
Definition amountOf (av : gmap string Value) (rid : string) : Z :=
  match av !! rid with
  | Some (Num n) => n
  | _ => 0
  end.

(** Every strictly positive amount [p] requests is within the amount
    available of that resource. *)
Definition satisfiable (p : Process) (amount : string -> Z) : Prop :=
  forall rid q, request p !! rid = Some q -> 0 < q -> q <= amount rid.

(** The amounts available once [p] has given back what it holds: every
    entry of its allocation map is added, in exact arithmetic. *)
Definition released (p : Process) (amount : string -> Z) : string -> Z :=
  fun rid => amount rid + default 0 (allocation p !! rid).

(** No key of the allocation map or of the request map of [p] names a
    property that [Object.prototype] defines. *)
Definition plainProcess (p : Process) : Prop :=
  Forall (fun name => allocation p !! name = None /\ request p !! name = None)
         inheritedNames.

(** No id of the matrix (resource id, allocation key or request key) names
    a property that [Object.prototype] defines. *)
Definition plainIds (v : MatrixValue) : Prop :=
  Forall plainProcess (v_processes v) /\
  Forall (fun r => resource_id r ∉ inheritedNames) (v_resources v).

(** The sum of the absolute values of the entries of a dictionary. *)
Definition magnitude (m : gmap string Z) : Z :=
  sumZ (map (fun e => Z.abs e.2) (map_to_list m)).

(** The amounts of the matrix are small enough for every sum that
    [detectDeadlock] computes to be exact: the absolute values of the
    totals, plus twice those of the allocation amounts, add up to at most
    2^53. *)
Definition safeAmounts (v : MatrixValue) : Prop :=
  sumZ (map (fun r => Z.abs (total r)) (v_resources v))
  + 2 * sumZ (map (fun p => magnitude (allocation p)) (v_processes v)) <= 2 ^ 53.

(** The loop state after [k] rounds that each admitted a process. *)
Fixpoint rounds (allProcessIds : list string) (ps : list Process) (k : nat)
    (st : LoopState) : option LoopState :=
  match k with
  | O => Some st
  | S k' =>
      match scan allProcessIds ps st with
      | Some st' => rounds allProcessIds ps k' st'
      | None => None
      end
  end.

(** The ids the steps of a result record as admitted. *)
Definition admittedIds (r : DetectionResult) : list string :=
  concat (processedThisRound <$> steps r).

(** The steps of a result that record an admission. *)
Definition admissionSteps (r : DetectionResult) : list DetectionStep :=
  filter (fun s => processedThisRound s <> []) (steps r).

(** What holds of the loop state before every round, for the processes [ps]:
    the finished ids are those of [sequence], each once and each the id of a
    process; the trace is the initial step followed by one step per admitted
    process, in order. *)
Record loopInv (ps : list Process) (st : LoopState) : Prop := mkLoopInv {
  inv_finished : finished st = list_to_set (sequence st);
  inv_nodup : NoDup (sequence st);
  inv_ids : forall x, x ∈ sequence st -> x ∈ process_id <$> ps;
  inv_trace : exists admitted : list Process,
    Forall (fun p => p ∈ ps) admitted /\
    process_id <$> admitted = sequence st /\
    description <$> trace st
      = "Initial available resources" :: (admissionDescription <$> admitted) /\
    processedThisRound <$> trace st
      = [] :: ((fun p => [process_id p]) <$> admitted)
}.

(** The number of entries of a dictionary with a strictly positive amount. *)
Definition positiveCount (m : gmap string Z) : nat :=
  size (filter (fun e : string * Z => 0 < e.2) m).

(** The step descriptions as the specification words them. *)

(** [p]'s request map has an entry with a positive amount. *)
Definition requestsSomething (p : Process) : Prop :=
  map_Exists (fun _ q => 0 < q) (request p).

Definition admissionTemplate (p : Process) : string :=
  "Process " +:+ process_id p +:+ " can be executed with the available resources."
  +:+ (if decide (requestsSomething p)
       then " Its resource requests can be satisfied." else "")
  +:+ " After completion, " +:+ process_id p +:+ " releases its resources.".

Definition deadlockTemplate (ids : list string) : string :=
  "No process can be satisfied with the available resources. Deadlock detected involving processes: "
  +:+ String.concat ", " ids.

Definition successTemplate (ids : list string) : string :=
  "All processes have been executed successfully. System is in a safe state. Safe sequence: "
  +:+ String.concat " → " ids.

(** ** The detector as a function of the matrix data

    What lines 57-66 compute, read on the data of the working copy, whose
    objects are all distinct. *)

(** The position of the first resource with id [rid]. *)
Fixpoint firstIndex (rs : list Resource) (rid : string) : option nat :=
  match rs with
  | [] => None
  | r :: rs' =>
      if decide (resource_id r = rid) then Some O else S <$> firstIndex rs' rid
  end.

(** What the processes [ps] take from the resource at position [i], in
    exact arithmetic. *)
Definition takenAt (rs : list Resource) (ps : list Process) (i : nat) : Z :=
  sumZ (map (fun p =>
         sumZ (map (fun e => if decide (firstIndex rs e.1 = Some i) then e.2 else 0)
                   (map_to_list (allocation p)))) ps).

(** What line 34 makes of the [available] amount [a] of the resource at
    position [i] for the allocation entry [e]. *)
Definition subtractAt (rs : list Resource) (i : nat) (a : Z) (e : string * Z) : Z :=
  if decide (firstIndex rs e.1 = Some i) then fl (a - e.2) else a.

(** The resources of the working copy after [calculateAvailableResources]. *)
Definition recomputedResources (rs : list Resource) (ps : list Process) : list Resource :=
  imap (fun i r => set_available r (foldl (subtractAt rs i) (total r) (entriesOf ps))) rs.

(** Lines 63-66 on a list of resource data. *)
Definition availableOf (rs : list Resource) : gmap string Value :=
  foldl (fun acc r => assign acc (resource_id r) (Num (available r))) ∅ rs.

(** The availability the loop starts from. *)
Definition initialAvailable (v : MatrixValue) : gmap string Value :=
  availableOf (recomputedResources (v_resources v) (v_processes v)).

(** The result of [detectDeadlock] on a matrix that denotes [v]. *)
Definition detect (fuel : nat) (v : MatrixValue) : option DetectionResult :=
  whileLoop fuel (process_id <$> v_processes v) (v_processes v)
    (initialState (process_id <$> v_processes v) (initialAvailable v)).

(** The loop state after the processes of [l] were admitted in turn. *)
Definition admitAll (allProcessIds : list string) (st : LoopState) (l : list Process)
  : LoopState :=
  foldl (fun s p => admitProcess allProcessIds p s) st l.

(** The availability after the processes of [l] released their allocations
    in turn, as [release] computes it. *)
Definition releaseAll (av : gmap string Value) (l : list Process) : gmap string Value :=
  foldl (fun a p => release p a) av l.

(** The loop can admit the processes of [l] in turn from the availability
    [av]: [canFinish] holds of each at its turn. *)
Fixpoint admissibleOrder (av : gmap string Value) (l : list Process) : Prop :=
  match l with
  | [] => True
  | p :: l' => canFinish p av = true /\ admissibleOrder (release p av) l'
  end.

(** [l] is an order in which the processes can run from the amounts
    [amount]: each one's strictly positive requests are within the amounts
    available at its turn, which are [amount] plus what the processes
    before it held. *)
Fixpoint safeOrder (amount : string -> Z) (l : list Process) : Prop :=
  match l with
  | [] => True
  | p :: l' => satisfiable p amount /\ safeOrder (released p amount) l'
  end.

(** Every entry of an availability dictionary is a number. *)
Definition numeric (av : gmap string Value) : Prop :=
  forall rid, av !! rid <> Some NotNum.

(** What the processes whose id is in [waiting] hold of [rid], in absolute
    value. *)
Definition pending (ps : list Process) (waiting : list string) (rid : string) : Z :=
  sumZ (map (fun p => if decide (process_id p ∈ waiting)
                      then Z.abs (default 0 (allocation p !! rid)) else 0) ps).

(** The availability [av] is made of numbers, and whatever the processes
    whose id is in [waiting] give back, in any order, every amount stays
    within 2^53. *)
Definition balanced (ps : list Process) (waiting : list string)
    (av : gmap string Value) : Prop :=
  numeric av /\
  forall rid, Z.abs (amountOf av rid) + pending ps waiting rid <= 2 ^ 53.

(** Every number of an availability dictionary is a double. *)
Definition doubleAmounts (av : gmap string Value) : Prop :=
  forall rid n, av !! rid = Some (Num n) -> isDouble n.

(** Every amount the processes hold is non-negative. *)
Definition nonNegativeAllocations (ps : list Process) : Prop :=
  Forall (fun p => map_Forall (fun _ a => 0 <= a) (allocation p)) ps.

(** Scenario B held in other objects, with other [available] and
    [isMultiInstance] fields. *)
Definition scenarioB_other_value : MatrixValue :=
  mkValue [P1; P2; P3] [mkResource "R1" 1 7 true; mkResource "R2" 2 (-3) false].
Definition scenarioB_other_store : heap :=
  store_of [ ResourceObj (mkResource "R2" 2 (-3) false); ProcessObj P3;
             ProcessObj P2; ResourceObj (mkResource "R1" 1 7 true); ProcessObj P1 ].
Definition scenarioB_other : AllocationMatrix :=
  mkMatrix [5%positive; 3%positive; 2%positive] [4%positive; 1%positive].

(** The step lines 123-128 append when [process] is admitted in state
    [st]. *)
Definition admissionStep (allProcessIds : list string) (process : Process)
    (st : LoopState) : DetectionStep :=
  {| description := admissionDescription process;
     remainingProcesses :=
       filter (fun id => id ∉ finished st ∪ {[process_id process]}) allProcessIds;
     availableResources := release process (current st);
     processedThisRound := [process_id process] |}.

(** A relation holds between every step of a list and the next one. *)
Definition stepwise (R : DetectionStep -> DetectionStep -> Prop)
    (l : list DetectionStep) : Prop :=
  forall i s s', l !! i = Some s -> l !! S i = Some s' -> R s s'.

(** The availability [av'] is [av] after every entry of the allocation map
    of [p] was added to it, in exact arithmetic: an entry of [p] under [rid]
    makes the entry of [av'] the amount of [av] plus that of [p]; the other
    entries are those of [av]. *)
Definition givenBack (p : Process) (av av' : gmap string Value) : Prop :=
  forall rid,
    av' !! rid = match allocation p !! rid with
                 | Some a => Some (Num (amountOf av rid + a))
                 | None => av !! rid
                 end.

(** How a step of a trace follows from the step before it: either it admits
    nobody and repeats the availability and the remaining ids, or it admits
    a process of [ps] whose id was remaining and whose strictly positive
    requests the previous amounts cover, its availability is the previous
    one with the allocation entries of that process added, and its
    remaining ids are the previous ones without that id. *)
Definition follows (ps : list Process) (s s' : DetectionStep) : Prop :=
  (processedThisRound s' = [] /\
   availableResources s' = availableResources s /\
   remainingProcesses s' = remainingProcesses s) \/
  (exists p, p ∈ ps /\
     processedThisRound s' = [process_id p] /\
     process_id p ∈ remainingProcesses s /\
     satisfiable p (amountOf (availableResources s)) /\
     givenBack p (availableResources s) (availableResources s') /\
     remainingProcesses s'
       = filter (fun id => id <> process_id p) (remainingProcesses s)).

(** [p] qualifies at step [s]: its id is still remaining and the amounts of
    the step cover its strictly positive requests. *)
Definition qualifies (s : DetectionStep) (p : Process) : Prop :=
  process_id p ∈ remainingProcesses s /\
  satisfiable p (amountOf (availableResources s)).

(** What a round makes of the step [s] before it: when no process of [ps]
    qualifies, the step [s'] it appends admits nobody; otherwise [s'] admits
    the first process of [ps], in list order, that qualifies, and only that
    one: the allocation entries of that process are added to the
    availability, and its id leaves the remaining ids. *)
Definition admitsFirst (ps : list Process) (s s' : DetectionStep) : Prop :=
  (processedThisRound s' = [] /\ Forall (fun p => ~ qualifies s p) ps) \/
  (exists before P after,
     ps = before ++ P :: after /\
     Forall (fun p => ~ qualifies s p) before /\
     qualifies s P /\
     processedThisRound s' = [process_id P] /\
     givenBack P (availableResources s) (availableResources s') /\
     remainingProcesses s'
       = filter (fun id => id <> process_id P) (remainingProcesses s)).

(** [p] is passed over at step [s] by the scan of lines 88-133: its id is
    not remaining, or [canFinish] is false. *)
Definition passedOver (s : DetectionStep) (p : Process) : Prop :=
  process_id p ∉ remainingProcesses s \/ canFinish p (availableResources s) = false.

(** What a round makes of the step [s] before it, as the code computes
    it. *)
Definition roundStep (ps : list Process) (s s' : DetectionStep) : Prop :=
  (processedThisRound s' = [] /\
   availableResources s' = availableResources s /\
   remainingProcesses s' = remainingProcesses s /\
   Forall (passedOver s) ps) \/
  (exists before P after,
     ps = before ++ P :: after /\
     Forall (passedOver s) before /\
     process_id P ∈ remainingProcesses s /\
     canFinish P (availableResources s) = true /\
     processedThisRound s' = [process_id P] /\
     availableResources s' = release P (availableResources s) /\
     remainingProcesses s'
       = filter (fun id => id <> process_id P) (remainingProcesses s)).

(** What holds of the trace before every round: its last step shows the
    current availability and the ids not finished, and each step is what a
    round made of the one before. *)
Definition traceInv (ps : list Process) (st : LoopState) : Prop :=
  exists final,
    last (trace st) = Some final /\
    availableResources final = current st /\
    remainingProcesses final = filter (fun id => id ∉ finished st) (process_id <$> ps) /\
    stepwise (roundStep ps) (trace st).

(** A process that requests one unit under a name every object inherits,
    in a matrix without resources. *)
Definition needy : Process := mkProcess "P1" ∅ (entries [("toString", 1)]).
Definition inherited_value : MatrixValue := mkValue [needy] [].
Definition inherited_store : heap := store_of [ProcessObj needy].
Definition inherited : AllocationMatrix := mkMatrix [1%positive] [].

(** Two processes that each hold one instance of a resource with 2^53 + 2
    instances: the differences of line 34 are not all doubles. *)
Definition second : Process := mkProcess "P2" (entries [("R1", 1)]) (entries [("R1", 0)]).
Definition plentiful : Resource := mkResource "R1" (2 ^ 53 + 2) 0 true.
Definition rounding_value : MatrixValue := mkValue [holder; second] [plentiful].
Definition rounding_store : heap :=
  store_of [ProcessObj holder; ProcessObj second; ResourceObj plentiful].
Definition rounding : AllocationMatrix :=
  mkMatrix [1%positive; 2%positive] [3%positive].

(** A matrix with resources and no process. *)
Definition unused_value : MatrixValue := mkValue [] [R1; R2'].
Definition unused_store : heap := store_of [ResourceObj R1; ResourceObj R2'].
Definition unused : AllocationMatrix := mkMatrix [] [1%positive; 2%positive].

(** ** The table editor ([src/components/ResourceTable.tsx])

    The editor keeps the matrix in React state and replaces it at every
    change: each handler builds new arrays and new objects and never writes
    to an existing object, so the state is described by the data of the
    matrix.  A handler runs on the state of the render it belongs to, and
    its update applies to that state.  The amounts typed into the table
    reach the handlers through [parseInt], as integers. *)

Module ResourceTable.

Inductive Toast :=
  | toast_success (message : string)
  | toast_error (message : string).

(** The [matrix] prop (the state of the parent component, initially empty:
    lines 24-27 of [DeadlockDetector.tsx]) and the four input fields behind
    the two forms (lines 18-21). *)
Record State := mkState {
  matrix : MatrixValue;
  newProcessId : string;
  newResourceId : string;
  newResourceInstances : Z;
  newResourceMultiInstance : bool
}.

Definition initial : State :=
  {| matrix := mkValue [] [];
     newProcessId := "";
     newResourceId := "";
     newResourceInstances := 1;
     newResourceMultiInstance := true |}.

Definition setMatrix (m : MatrixValue) (st : State) : State :=
  {| matrix := m;
     newProcessId := newProcessId st;
     newResourceId := newResourceId st;
     newResourceInstances := newResourceInstances st;
     newResourceMultiInstance := newResourceMultiInstance st |}.

Definition setNewProcessId (value : string) (st : State) : State :=
  {| matrix := matrix st;
     newProcessId := value;
     newResourceId := newResourceId st;
     newResourceInstances := newResourceInstances st;
     newResourceMultiInstance := newResourceMultiInstance st |}.

Definition setNewResourceId (value : string) (st : State) : State :=
  {| matrix := matrix st;
     newProcessId := newProcessId st;
     newResourceId := value;
     newResourceInstances := newResourceInstances st;
     newResourceMultiInstance := newResourceMultiInstance st |}.

Definition setNewResourceInstances (value : Z) (st : State) : State :=
  {| matrix := matrix st;
     newProcessId := newProcessId st;
     newResourceId := newResourceId st;
     newResourceInstances := value;
     newResourceMultiInstance := newResourceMultiInstance st |}.

Definition setNewResourceMultiInstance (value : bool) (st : State) : State :=
  {| matrix := matrix st;
     newProcessId := newProcessId st;
     newResourceId := newResourceId st;
     newResourceInstances := newResourceInstances st;
     newResourceMultiInstance := value |}.

(** Lines 33-47. *)
Definition sampleData : MatrixValue :=
  mkValue
    [ mkProcess "P1" (entries [("R1", 1); ("R2", 0)]) (entries [("R1", 0); ("R2", 1)]);
      mkProcess "P2" (entries [("R1", 0); ("R2", 1)]) (entries [("R1", 1); ("R2", 0)]);
      mkProcess "P3" (entries [("R1", 0); ("R2", 1)]) (entries [("R1", 0); ("R2", 0)]) ]
    [ mkResource "R1" 1 0 false;
      mkResource "R2" 2 0 true ].

Definition loadSampleExample (st : State) : State * Toast :=
  (setMatrix sampleData st, toast_success "Loaded sample example").

(** Lines 204-207. *)
Definition clearTable (st : State) : State * Toast :=
  (setMatrix (mkValue [] []) st, toast_success "Cleared all data").

(** Lines 128-134. *)
Definition removeProcess (processId : string) (st : State) : State * Toast :=
  let prev := matrix st in
  (setMatrix
     (mkValue (filter (fun p => process_id p <> processId) (v_processes prev))
              (v_resources prev)) st,
   toast_success ("Removed process " +:+ processId)).

(** Lines 136-151. *)
Definition removeResource (resourceId : string) (st : State) : State * Toast :=
  let prev := matrix st in
  (setMatrix
     (mkValue
        ((fun process =>
            let restAlloc := delete resourceId (allocation process) in
            let restReq := delete resourceId (request process) in
            mkProcess (process_id process) restAlloc restReq) <$> v_processes prev)
        (filter (fun r => resource_id r <> resourceId) (v_resources prev))) st,
   toast_success ("Removed resource " +:+ resourceId)).

(** [p.allocation[resourceId] || 0] (line 159): the own entry, else what
    every object inherits under that name, else 0. *)
Definition allocationOr0 (p : Process) (resourceId : string) : Value :=
  match allocation p !! resourceId with
  | Some a => Num a
  | None => if decide (resourceId ∈ inheritedNames) then NotNum else Num 0
  end.

(** [sum += v] (line 159): two numbers are added and rounded; otherwise
    the result is a string. *)
Definition addTo (sum v : Value) : Value :=
  match sum, v with
  | Num s, Num a => Num (fl (s + a))
  | _, _ => NotNum
  end.

(** Lines 153-182.  When the sum is a string, [maxAllowable] is [NaN] and
    the test of line 164 is false. *)
Definition updateAllocation (processId resourceId : string) (value : Z) (st : State)
  : State :=
  let value := if value <? 0 then 0 else value in
  let value :=
    match find (fun r => bool_decide (resource_id r = resourceId))
               (v_resources (matrix st)) with
    | Some resource =>
        let currentAllocationForResource :=
          foldl (fun sum p =>
                   if decide (process_id p <> processId)
                   then addTo sum (allocationOr0 p resourceId)
                   else sum)
                (Num 0) (v_processes (matrix st)) in
        match currentAllocationForResource with
        | Num current =>
            let maxAllowable := fl (total resource - current) in
            if value >? maxAllowable then maxAllowable else value
        | NotNum => value
        end
    | None => value
    end in
  let prev := matrix st in
  setMatrix
    (mkValue
       ((fun process =>
           if decide (process_id process = processId)
           then mkProcess (process_id process)
                          (<[resourceId := value]> (allocation process))
                          (request process)
           else process) <$> v_processes prev)
       (v_resources prev)) st.

(** Lines 184-202. *)
Definition updateRequest (processId resourceId : string) (value : Z) (st : State)
  : State :=
  let value := if value <? 0 then 0 else value in
  let prev := matrix st in
  setMatrix
    (mkValue
       ((fun process =>
           if decide (process_id process = processId)
           then mkProcess (process_id process)
                          (allocation process)
                          (<[resourceId := value]> (request process))
           else process) <$> v_processes prev)
       (v_resources prev)) st.

Section Handlers.

(** [blank s] stands for [!s.trim()]: nothing is left of [s] once the
    white space at its ends is removed.  [toUpperCase] is the string method
    of that name: the ids typed into the table are in upper case (lines 50
    and 55), so none of them is ["__proto__"], the one name under which a
    write to a plain object is lost, and the writes of the handlers are
    insertions. *)
Variable blank : string -> bool.
Variable toUpperCase : string -> string.

(** Lines 49-57. *)
Definition handleProcessIdChange (value : string) (st : State) : State :=
  setNewProcessId (toUpperCase value) st.

Definition handleResourceIdChange (value : string) (st : State) : State :=
  setNewResourceId (toUpperCase value) st.

(** Lines 59-87. *)
Definition addProcess (st : State) : State * Toast :=
  if blank (newProcessId st) then (st, toast_error "Process ID cannot be empty")
  else if existsb (fun p => bool_decide (process_id p = newProcessId st))
                  (v_processes (matrix st))
  then (st, toast_error "Process ID already exists")
  else
    let newProcess := mkProcess (newProcessId st) ∅ ∅ in
    let newProcess :=
      foldl (fun newProcess resource =>
               mkProcess (process_id newProcess)
                         (<[resource_id resource := 0]> (allocation newProcess))
                         (<[resource_id resource := 0]> (request newProcess)))
            newProcess (v_resources (matrix st)) in
    let prev := matrix st in
    (setNewProcessId ""
       (setMatrix (mkValue (v_processes prev ++ [newProcess]) (v_resources prev)) st),
     toast_success ("Process " +:+ newProcessId st +:+ " added")).

(** Lines 89-126. *)
Definition addResource (st : State) : State * Toast :=
  if blank (newResourceId st) then (st, toast_error "Resource ID cannot be empty")
  else if existsb (fun r => bool_decide (resource_id r = newResourceId st))
                  (v_resources (matrix st))
  then (st, toast_error "Resource ID already exists")
  else
    let instances :=
      if newResourceMultiInstance st then newResourceInstances st else 1 in
    let newResource :=
      mkResource (newResourceId st) instances instances (newResourceMultiInstance st) in
    let updatedProcesses :=
      (fun process =>
         mkProcess (process_id process)
                   (<[newResourceId st := 0]> (allocation process))
                   (<[newResourceId st := 0]> (request process)))
      <$> v_processes (matrix st) in
    let prev := matrix st in
    (setNewResourceInstances 1
       (setNewResourceId ""
          (setMatrix (mkValue updatedProcesses (v_resources prev ++ [newResource])) st)),
     toast_success ("Added resource " +:+ newResourceId st)).

(** Lines 23-31: the Enter key in one of the two id fields. *)
Inductive Field := process | resource.

Definition handleKeyPress (key : string) (action : Field) (st : State) : State :=
  if decide (key = "Enter") then
    match action with
    | process => (addProcess st).1
    | resource => (addResource st).1
    end
  else st.

(** The states the editor can be in: the initial one, and what a handler
    makes of such a state when the page calls it.  The page calls
    [removeProcess], [removeResource], [updateAllocation] and
    [updateRequest] from the rows and cells of the table (lines 293-369),
    with the ids of a process and a resource of the matrix. *)
Inductive reachable : State -> Prop :=
  | reach_initial : reachable initial
  | reach_processId st value :
      reachable st -> reachable (handleProcessIdChange value st)
  | reach_resourceId st value :
      reachable st -> reachable (handleResourceIdChange value st)
  | reach_instances st value :
      reachable st -> reachable (setNewResourceInstances value st)
  | reach_multiInstance st value :
      reachable st -> reachable (setNewResourceMultiInstance value st)
  | reach_keyPress st key action :
      reachable st -> reachable (handleKeyPress key action st)
  | reach_addProcess st :
      reachable st -> reachable (addProcess st).1
  | reach_addResource st :
      reachable st -> reachable (addResource st).1
  | reach_removeProcess st p :
      reachable st -> p ∈ v_processes (matrix st) ->
      reachable (removeProcess (process_id p) st).1
  | reach_removeResource st r :
      reachable st -> r ∈ v_resources (matrix st) ->
      reachable (removeResource (resource_id r) st).1
  | reach_updateAllocation st p r value :
      reachable st -> p ∈ v_processes (matrix st) -> r ∈ v_resources (matrix st) ->
      reachable (updateAllocation (process_id p) (resource_id r) value st)
  | reach_updateRequest st p r value :
      reachable st -> p ∈ v_processes (matrix st) -> r ∈ v_resources (matrix st) ->
      reachable (updateRequest (process_id p) (resource_id r) value st)
  | reach_clearTable st :
      reachable st -> reachable (clearTable st).1
  | reach_loadSampleExample st :
      reachable st -> reachable (loadSampleExample st).1.

End Handlers.

End ResourceTable.

(** The ids of the resources of a list, as a set. *)
Definition keysOf (rs : list Resource) : gset string :=
  list_to_set (resource_id <$> rs).

(** The table is well formed: no two processes and no two resources share
    an id, and the allocation and request dictionaries of every process
    have exactly the resource ids as their keys. *)
Record wellFormed (m : MatrixValue) : Prop := mkWellFormed {
  wf_processes : NoDup (process_id <$> v_processes m);
  wf_resources : NoDup (resource_id <$> v_resources m);
  wf_keys :
    Forall (fun p => dom (allocation p) = keysOf (v_resources m) /\
                     dom (request p) = keysOf (v_resources m)) (v_processes m)
}.

(** What the processes [ps] hold of resource [rid] in all. *)
Definition held (ps : list Process) (rid : string) : Z :=
  sumZ (map (fun p => default 0 (allocation p !! rid)) ps).

(** For every resource whose total is between 0 and 2^53, no process holds
    a negative amount of it and the processes hold no more than the
    total. *)
Definition withinTotals (m : MatrixValue) : Prop :=
  forall r, r ∈ v_resources m -> 0 <= total r <= 2 ^ 53 ->
    Forall (fun p => 0 <= default 0 (allocation p !! resource_id r)) (v_processes m) /\
    held (v_processes m) (resource_id r) <= total r.

(** No process requests a negative amount. *)
Definition nonNegativeRequests (ps : list Process) : Prop :=
  Forall (fun p => map_Forall (fun _ q => 0 <= q) (request p)) ps.

(** An editor session, on ids that hold no white space and are typed in
    upper case: resource [R1] is added with two instances, then process
    [P1], which is then given five instances of [R1]. *)
Definition plainBlank (s : string) : bool := bool_decide (s = "").
Definition plainUpperCase (s : string) : string := s.

Definition session_resourceTyped : ResourceTable.State :=
  ResourceTable.setNewResourceInstances 2
    (ResourceTable.handleResourceIdChange plainUpperCase "R1" ResourceTable.initial).
Definition session_resourceAdded : ResourceTable.State :=
  (ResourceTable.addResource plainBlank session_resourceTyped).1.
Definition session_processTyped : ResourceTable.State :=
  ResourceTable.handleProcessIdChange plainUpperCase "P1" session_resourceAdded.
Definition session_processAdded : ResourceTable.State :=
  (ResourceTable.addProcess plainBlank session_processTyped).1.
Definition session_allocated : ResourceTable.State :=
  ResourceTable.updateAllocation "P1" "R1" 5 session_processAdded.

(** Another session: resource [R1] is added with 2^53 + 2 instances, then
    three processes, which are given 2^53, 1 and 2 instances of it. *)
Definition crowd_resourceAdded : ResourceTable.State :=
  (ResourceTable.addResource plainBlank
     (ResourceTable.setNewResourceInstances (2 ^ 53 + 2)
        (ResourceTable.handleResourceIdChange plainUpperCase "R1"
           ResourceTable.initial))).1.
Definition crowd_processesAdded : ResourceTable.State :=
  foldl (fun st id =>
           (ResourceTable.addProcess plainBlank
              (ResourceTable.handleProcessIdChange plainUpperCase id st)).1)
        crowd_resourceAdded ["P1"; "P2"; "P3"].
Definition crowd_first : ResourceTable.State :=
  ResourceTable.updateAllocation "P1" "R1" (2 ^ 53) crowd_processesAdded.
Definition crowd_second : ResourceTable.State :=
  ResourceTable.updateAllocation "P2" "R1" 1 crowd_first.
Definition crowd_third : ResourceTable.State :=
  ResourceTable.updateAllocation "P3" "R1" 2 crowd_second.

(** ** The detection panel ([DetectionPanel] in
       [src/components/DeadlockDetector.tsx], lines 153-168) *)

Module DetectionPanel.

(** The state of the panel (lines 154-155) and the [detectionResult] of the
    parent component (line 29), which the panel sets through [onDetect]. *)
Record State := mkState {
  detectionResult : option DetectionResult;
  result : option DetectionResult;
  hasRun : bool
}.

Definition initial : State :=
  {| detectionResult := None; result := None; hasRun := false |}.

(** Lines 157-166.  The inner [None] is a run of [detectDeadlock] that is
    out of fuel. *)
Definition runDetection (fuel : nat) (matrix : AllocationMatrix) (st : State)
  : M (option State) :=
  if ((length (processes matrix) =? 0)%nat || (length (resources matrix) =? 0)%nat)%bool
  then ret (Some st)
  else
    let* detectionResult := detectDeadlock fuel matrix in
    ret (match detectionResult with
         | Some detectionResult =>
             Some {| detectionResult := Some detectionResult;
                     result := Some detectionResult;
                     hasRun := true |}
         | None => None
         end).

(** Line 168: [result?.deadlocked.length ? true : false]. *)
Definition hasDeadlock (st : State) : bool :=
  match result st with
  | Some r => negb (length (deadlocked r) =? 0)%nat
  | None => false
  end.

(** Line 34: [detectionResult?.deadlocked || []], the ids handed to the
    graph. *)
Definition deadlockedProcesses (st : State) : list string :=
  match detectionResult st with
  | Some r => deadlocked r
  | None => []
  end.

End DetectionPanel.

(** ** The allocation graph view ([AllocationGraphContent] in
       [src/components/DeadlockDetector.tsx], lines 414-464) *)

Module AllocationGraph.

Record Position := mkPosition { x : Z; y : Z }.

(** A node as handed to the flow view: the node of the graph, its
    position, and, on a process node, the [deadlocked] flag added to its
    data. *)
Record FlowNode := mkFlowNode {
  node : Node;
  position : Position;
  data_deadlocked : option bool
}.

Inductive MarkerType := Arrow | ArrowClosed.

Record Marker := mkMarker {
  marker_type : MarkerType;
  width : Z;
  height : Z;
  color : string
}.

Record Style := mkStyle {
  stroke : string;
  strokeWidth : QArith_base.Q
}.

Record FlowEdge := mkFlowEdge {
  edge : Edge;
  style : Style;
  markerEnd : Marker;
  label : string;
  animated : bool
}.

(** Lines 424-433. *)
Definition processNodes (graphNodes : list Node) (deadlockedProcesses : list string)
  : list FlowNode :=
  imap (fun idx node =>
          {| node := node;
             position := {| x := 100 + Z.of_nat idx * 200; y := 200 |};
             data_deadlocked :=
               Some (bool_decide (node_id node ∈ deadlockedProcesses)) |})
       (filter (fun n => node_type n = "process") graphNodes).

(** Lines 435-440. *)
Definition resourceNodes (graphNodes : list Node) : list FlowNode :=
  imap (fun idx node =>
          {| node := node;
             position := {| x := 100 + Z.of_nat idx * 200; y := 50 |};
             data_deadlocked := None |})
       (filter (fun n => node_type n = "resource") graphNodes).

Section Effect.

(** [numberToString n] stands for the text the template literal of line
    454 makes of the number [n] (the digits of a small integer; an exponent
    form for a large one). *)
Variable numberToString : Z -> string.

(** Lines 442-456. *)
Definition styledEdges (graphEdges : list Edge) : list FlowEdge :=
  (fun edge =>
     {| edge := edge;
        style := {| stroke := "#000"; strokeWidth := QArith_base.Qmake 3 2 |};
        markerEnd := {| marker_type := ArrowClosed; width := 20; height := 20;
                        color := "#000" |};
        label := if amount edge >? 1 then numberToString (amount edge) else "";
        animated := bool_decide (edge_type edge = "request") |}) <$> graphEdges.

(** The effect that follows a change of the matrix or of the deadlocked
    ids: the nodes and the edges it hands to [setNodes] and [setEdges].
    (The later call of [fitView] moves the viewport only.) *)
Definition effect (matrix : AllocationMatrix) (deadlockedProcesses : list string)
  : M (list FlowNode * list FlowEdge) :=
  if ((length (processes matrix) =? 0)%nat || (length (resources matrix) =? 0)%nat)%bool
  then ret ([], [])
  else
    let* graph := generateResourceFlowGraph matrix in
    let graphNodes := nodes graph in
    let graphEdges := edges graph in
    ret (processNodes graphNodes deadlockedProcesses ++ resourceNodes graphNodes,
         styledEdges graphEdges).

End Effect.

End AllocationGraph.

(** The decimal digits of an integer: what the template literal of line 454
    makes of an amount below 10^21. *)
Definition decimal (n : Z) : string := pretty n.

(** The table of the editor session above, held in a store. *)
Definition session_store : heap :=
  store_of [ ProcessObj (mkProcess "P1" (entries [("R1", 2)]) (entries [("R1", 0)]));
             ResourceObj (mkResource "R1" 2 2 true) ].
Definition session_table : AllocationMatrix := mkMatrix [1%positive] [2%positive].

(* ================================================================== *)
(** * Theorems *)

(** A closed statement about an example is settled by evaluation. *)
Ltac by_evaluation := apply (bool_decide_unpack _); vm_compute; exact I.

(** An example store holds its matrix, whose numbers are small. *)
Ltac denotes_example := split; [split; repeat constructor|by_evaluation].

(** ** Rounding to the nearest double *)

Lemma ulp_facts a :
  2 ^ 53 <= a ->
  let u := 2 ^ (Z.log2 a - 52) in
  2 <= u /\ 2 ^ 52 * u <= a < 2 ^ 53 * u /\
  2 ^ 52 <= a / u < 2 ^ 53 /\ 0 <= a mod u < u /\ a = u * (a / u) + a mod u.
Proof.
  intros Ha u.
  assert (0 < a) as Hpos by lia.
  destruct (Z.log2_spec a Hpos) as [Hlo Hhi].
  assert (53 <= Z.log2 a) as Hlog.
  { apply Z.log2_le_pow2; lia. }
  assert (2 ^ Z.log2 a = 2 ^ 52 * u) as Hu.
  { unfold u. rewrite <- Z.pow_add_r by lia. f_equal. lia. }
  assert (2 ^ Z.succ (Z.log2 a) = 2 ^ 53 * u) as Hu'.
  { unfold u. rewrite <- Z.pow_add_r by lia. f_equal. lia. }
  assert (2 <= u) as Hu2.
  { unfold u. change 2 with (2 ^ 1) at 1. apply Z.pow_le_mono_r; lia. }
  split; [done|]. split; [lia|].
  pose proof (Z.div_mod a u ltac:(lia)) as Hdm.
  pose proof (Z.mod_pos_bound a u ltac:(lia)) as Hmod.
  split; [|split; [done|done]].
  split.
  - apply Z.div_le_lower_bound; lia.
  - apply Z.div_lt_upper_bound; lia.
Qed.

Lemma nearest_small a : a < 2 ^ 53 -> nearest a = a.
Proof. intros Ha. unfold nearest. destruct (Z.ltb_spec a (2 ^ 53)); lia. Qed.

(** For a >= 2^53 the result is q*u or (q+1)*u. *)
Lemma nearest_big a :
  2 ^ 53 <= a ->
  let u := 2 ^ (Z.log2 a - 52) in
  let q := a / u in
  let r := a mod u in
  (nearest a = q * u /\ 2 * r <= u) \/ (nearest a = (q + 1) * u /\ u <= 2 * r).
Proof.
  intros Ha u q r. unfold nearest. destruct (Z.ltb_spec a (2 ^ 53)); [lia|].
  fold u. fold q. fold r.
  destruct (Z.ltb_spec (2 * r) u); [left; lia|].
  destruct (Z.ltb_spec u (2 * r)); [right; lia|].
  destruct (Z.even q); [left|right]; lia.
Qed.

Lemma nearest_bounds a :
  2 ^ 53 <= a ->
  let u := 2 ^ (Z.log2 a - 52) in
  2 ^ 52 * u <= nearest a <= 2 ^ 53 * u.
Proof.
  intros Ha u. destruct (ulp_facts a Ha) as (Hu & Hau & Hq & Hr & Hdm). fold u in Hu, Hau, Hq, Hr, Hdm.
  destruct (nearest_big a Ha) as [[-> _]|[-> _]]; fold u; nia.
Qed.

Lemma nearest_nonneg a : 0 <= a -> 0 <= nearest a.
Proof.
  intros Ha. destruct (Z_lt_le_dec a (2 ^ 53)) as [Hs|Hb].
  - rewrite nearest_small; lia.
  - pose proof (nearest_bounds a Hb) as Hn. destruct (ulp_facts a Hb) as (Hu & _).
    cbv zeta in Hn, Hu. set (u := 2 ^ (Z.log2 a - 52)) in *. lia.
Qed.

Lemma nearest_mono a b : 0 <= a -> a <= b -> nearest a <= nearest b.
Proof.
  intros Ha Hab.
  destruct (Z_lt_le_dec b (2 ^ 53)) as [Hbs|Hbb].
  { rewrite !nearest_small; lia. }
  destruct (Z_lt_le_dec a (2 ^ 53)) as [Has|Hab'].
  { rewrite (nearest_small a Has).
    pose proof (nearest_bounds b Hbb) as Hb. destruct (ulp_facts b Hbb) as (Hu & _).
    cbv zeta in Hb, Hu. set (u := 2 ^ (Z.log2 b - 52)) in *. lia. }
  assert (Z.log2 a <= Z.log2 b) as Hlog by (by apply Z.log2_le_mono).
  destruct (ulp_facts a Hab') as (Hua & Haa & Hqa & Hra & Hdma).
  destruct (ulp_facts b Hbb) as (Hub & Hbb' & Hqb & Hrb & Hdmb).
  destruct (Z_lt_le_dec (Z.log2 a) (Z.log2 b)) as [Hlt|Hge].
  - (* different binades *)
    pose proof (nearest_bounds a Hab') as Hna. pose proof (nearest_bounds b Hbb) as Hnb.
    cbv zeta in *.
    assert (2 * 2 ^ (Z.log2 a - 52) <= 2 ^ (Z.log2 b - 52)) as Hul.
    { replace (2 * 2 ^ (Z.log2 a - 52)) with (2 ^ (Z.log2 a - 52 + 1)).
      - apply Z.pow_le_mono_r; lia.
      - rewrite Z.pow_add_r; [lia| |lia].
        assert (53 <= Z.log2 a) by (apply Z.log2_le_pow2; lia). lia. }
    set (ua := 2 ^ (Z.log2 a - 52)) in *. set (ub := 2 ^ (Z.log2 b - 52)) in *. lia.
  - assert (Z.log2 a = Z.log2 b) as Heq by lia.
    cbv zeta in *. rewrite <- Heq in *.
    set (u := 2 ^ (Z.log2 a - 52)) in *.
    assert (a / u <= b / u) as Hq by (apply Z.div_le_mono; lia).
    unfold nearest.
    destruct (Z.ltb_spec a (2 ^ 53)); [lia|]. destruct (Z.ltb_spec b (2 ^ 53)); [lia|].
    rewrite <- Heq. fold u.
    destruct (Z_lt_le_dec (a / u) (b / u)) as [Hqlt|Hqge].
    + assert ((a / u + 1) * u <= b / u * u) by nia.
      repeat match goal with |- context [if ?c then _ else _] => destruct c end; nia.
    + assert (a / u = b / u) as Hqe by lia. rewrite <- Hqe in *.
      assert (a mod u <= b mod u) as Hr by lia.
      destruct (Z.ltb_spec (2 * (a mod u)) u), (Z.ltb_spec (2 * (b mod u)) u),
        (Z.ltb_spec u (2 * (a mod u))), (Z.ltb_spec u (2 * (b mod u)));
        destruct (Z.even (a / u)); nia.
Qed.

Lemma nearest_idem a : 0 <= a -> nearest (nearest a) = nearest a.
Proof.
  intros Ha. destruct (Z_lt_le_dec a (2 ^ 53)) as [Hs|Hb].
  { by rewrite !nearest_small by (by rewrite ?nearest_small). }
  destruct (ulp_facts a Hb) as (Hu & Hau & Hq & Hr & Hdm).
  set (u := 2 ^ (Z.log2 a - 52)) in *. set (q := a / u) in *.
  assert (53 <= Z.log2 a) as Hlog by (apply Z.log2_le_pow2; lia).
  assert (exists q', nearest a = q' * u /\ 2 ^ 52 <= q' <= 2 ^ 53) as (q' & Hn & Hq').
  { destruct (nearest_big a Hb) as [[Hn _]|[Hn _]]; fold u in Hn; fold q in Hn.
    - exists q. split; [done|lia].
    - exists (q + 1). split; [done|lia]. }
  rewrite Hn.
  assert (2 ^ 53 <= q' * u) as Hbig by nia.
  destruct (Z_lt_le_dec q' (2 ^ 53)) as [Hlt|Hge].
  - assert (Z.log2 (q' * u) = Z.log2 a) as Hl.
    { apply Z.log2_unique; [lia|].
      replace (2 ^ Z.log2 a) with (2 ^ 52 * u).
      2:{ unfold u. rewrite <- Z.pow_add_r by lia. f_equal. lia. }
      replace (2 ^ Z.succ (Z.log2 a)) with (2 ^ 53 * u).
      2:{ unfold u. rewrite <- Z.pow_add_r by lia. f_equal. lia. }
      nia. }
    unfold nearest. destruct (Z.ltb_spec (q' * u) (2 ^ 53)); [lia|].
    rewrite Hl. fold u.
    rewrite Z.div_mul by lia. rewrite Z.mod_mul by lia.
    destruct (Z.ltb_spec (2 * 0) u); [done|lia].
  - assert (q' = 2 ^ 53) as -> by lia.
    assert (2 ^ 53 * u = 2 ^ (Z.log2 a + 1)) as Hp.
    { unfold u. rewrite <- Z.pow_add_r by lia. f_equal. lia. }
    rewrite Hp. unfold nearest.
    destruct (Z.ltb_spec (2 ^ (Z.log2 a + 1)) (2 ^ 53)); [lia|].
    rewrite Z.log2_pow2 by lia.
    replace (2 ^ (Z.log2 a + 1)) with (2 ^ 52 * 2 ^ (Z.log2 a + 1 - 52)).
    2:{ rewrite <- Z.pow_add_r by lia. f_equal. lia. }
    assert (0 < 2 ^ (Z.log2 a + 1 - 52)) by (apply Z.pow_pos_nonneg; lia).
    rewrite Z.div_mul by lia. rewrite Z.mod_mul by lia.
    destruct (Z.ltb_spec (2 * 0) (2 ^ (Z.log2 a + 1 - 52))); [done|lia].
Qed.

Lemma fl_small z : Z.abs z <= 2 ^ 53 -> fl z = z.
Proof.
  intros Hz. unfold fl.
  destruct (Z_lt_le_dec (Z.abs z) (2 ^ 53)) as [Hs|Hb].
  - rewrite nearest_small by done. lia.
  - assert (Z.abs z = 2 ^ 53) as -> by lia.
    change (nearest (2 ^ 53)) with (2 ^ 53). lia.
Qed.

Lemma fl_nonneg z : 0 <= z -> 0 <= fl z.
Proof.
  intros Hz. unfold fl. pose proof (nearest_nonneg (Z.abs z) ltac:(lia)). nia.
Qed.

Lemma fl_mono x y : x <= y -> fl x <= fl y.
Proof.
  intros Hxy. unfold fl.
  pose proof (nearest_nonneg (Z.abs x) ltac:(lia)).
  pose proof (nearest_nonneg (Z.abs y) ltac:(lia)).
  destruct (Z_lt_le_dec x 0) as [Hx|Hx], (Z_lt_le_dec y 0) as [Hy|Hy].
  - pose proof (nearest_mono (Z.abs y) (Z.abs x) ltac:(lia) ltac:(lia)).
    rewrite !Z.sgn_neg by done. lia.
  - rewrite Z.sgn_neg by done.
    assert (0 <= Z.sgn y) by lia. nia.
  - lia.
  - pose proof (nearest_mono (Z.abs x) (Z.abs y) ltac:(lia) ltac:(lia)).
    destruct (Z.eq_dec x 0) as [->|?]; [simpl; nia|].
    rewrite !Z.sgn_pos by lia. lia.
Qed.

Lemma fl_idem z : fl (fl z) = fl z.
Proof.
  unfold fl. pose proof (nearest_nonneg (Z.abs z) ltac:(lia)) as Hn.
  destruct (Z.eq_dec z 0) as [->|Hz]; [done|].
  destruct (Z.eq_dec (nearest (Z.abs z)) 0) as [H0|H0].
  { rewrite H0. by rewrite Z.mul_0_r. }
  assert (Z.sgn (Z.sgn z * nearest (Z.abs z)) = Z.sgn z) as ->.
  { rewrite Z.sgn_mul, Z.sgn_sgn. rewrite (Z.sgn_pos (nearest _)) by lia. lia. }
  assert (Z.abs (Z.sgn z * nearest (Z.abs z)) = nearest (Z.abs z)) as ->.
  { rewrite Z.abs_mul, (Z.abs_eq (nearest _)) by lia.
    assert (Z.abs (Z.sgn z) = 1) as -> by (destruct z; done). lia. }
  rewrite nearest_idem by lia. done.
Qed.

(** The first doubles that are not exact. *)
Example fl_example :
  fl (2 ^ 53 + 2 - 1) = 2 ^ 53 /\ fl (2 ^ 53 - 1) = 2 ^ 53 - 1 /\
  fl (2 ^ 60 - 1) = 2 ^ 60 /\ fl (- (2 ^ 53 + 3)) = - (2 ^ 53 + 4).
Proof. by vm_compute. Qed.

Lemma isDouble_fl z : isDouble (fl z).
Proof. apply fl_idem. Qed.

Lemma isDouble_small z : Z.abs z <= 2 ^ 53 -> isDouble z.
Proof. apply fl_small. Qed.

(** ** Reasoning about store-passing computations *)

Section wp_rules.
Context {A B : Type}.

Lemma wp_ret (a : A) (Q : A -> heap -> Prop) h : Q a h -> wp (ret a) Q h.
Proof. done. Qed.

Lemma wp_bind (m : M A) (k : A -> M B) (Q : B -> heap -> Prop) h :
  wp m (fun a h' => wp (k a) Q h') h -> wp (bind m k) Q h.
Proof.
  unfold wp, bind. destruct (m h) as [[a h']|]; done.
Qed.

Lemma wp_mono (m : M A) (Q Q' : A -> heap -> Prop) h :
  wp m Q h -> (forall a h', Q a h' -> Q' a h') -> wp m Q' h.
Proof.
  unfold wp. destruct (m h) as [[a h']|]; [|done]. intros HQ HQQ. by apply HQQ.
Qed.

Lemma wp_elim (m : M A) (Q : A -> heap -> Prop) h :
  wp m Q h -> exists a h', m h = Some (a, h') /\ Q a h'.
Proof.
  unfold wp. destruct (m h) as [[a h']|]; [|done]. by exists a, h'.
Qed.

Lemma wp_intro (m : M A) (Q : A -> heap -> Prop) h a h' :
  m h = Some (a, h') -> Q a h' -> wp m Q h.
Proof. unfold wp. by intros ->. Qed.
End wp_rules.

Lemma wp_readProcess l p (Q : Process -> heap -> Prop) h :
  h !! l = Some (ProcessObj p) -> Q p h -> wp (readProcess l) Q h.
Proof. unfold wp, readProcess. by intros ->. Qed.

Lemma wp_readResource l r (Q : Resource -> heap -> Prop) h :
  h !! l = Some (ResourceObj r) -> Q r h -> wp (readResource l) Q h.
Proof. unfold wp, readResource. by intros ->. Qed.

Lemma wp_writeObject l o (Q : unit -> heap -> Prop) h :
  Q tt (<[l := o]> h) -> wp (writeObject l o) Q h.
Proof. done. Qed.

Lemma wp_newObject o (Q : loc -> heap -> Prop) h :
  (forall l, h !! l = None -> Q l (<[l := o]> h)) -> wp (newObject o) Q h.
Proof.
  intros HQ. unfold wp, newObject. apply HQ.
  apply not_elem_of_dom, is_fresh.
Qed.

(** A loop invariant indexed by the elements already visited. *)
Lemma wp_forEach {A} (I : list A -> heap -> Prop) (xs : list A) (f : A -> M unit) h :
  I [] h ->
  (forall done x h', I done h' -> x ∈ xs -> wp (f x) (fun _ h'' => I (done ++ [x]) h'') h') ->
  wp (forEach xs f) (fun _ h' => I xs h') h.
Proof.
  revert I h. induction xs as [|x xs IH]; intros I h H0 Hstep; simpl.
  - by apply wp_ret.
  - apply wp_bind. eapply wp_mono.
    + apply (Hstep [] x h H0). by left.
    + intros u h' Hx. simpl in Hx.
      apply (IH (fun done => I (x :: done))); [done|].
      intros done y h'' Hd Hy. apply (Hstep (x :: done) y h'' Hd). by right.
Qed.

Lemma wp_mapM_read {A} (rd : loc -> M A) (inj : A -> object) ls vs
    (Q : list A -> heap -> Prop) h :
  (forall l a h', h' !! l = Some (inj a) -> rd l h' = Some (a, h')) ->
  Forall2 (fun l a => h !! l = Some (inj a)) ls vs ->
  Q vs h -> wp (mapM rd ls) Q h.
Proof.
  intros Hrd Hall. revert Q. induction Hall as [|l a ls vs Hl Hall IH]; intros Q HQ; simpl.
  - done.
  - apply wp_bind. eapply wp_intro; [by apply Hrd|].
    apply wp_bind. apply IH. by apply wp_ret.
Qed.

Lemma wp_forEach2 {A V} (R : A -> V -> Prop) (I : list V -> heap -> Prop)
    (xs : list A) (vs : list V) (f : A -> M unit) h :
  Forall2 R xs vs ->
  I [] h ->
  (forall done x v h', R x v -> I done h' ->
     wp (f x) (fun _ h'' => I (done ++ [v]) h'') h') ->
  wp (forEach xs f) (fun _ h' => I vs h') h.
Proof.
  intros Hall. revert I h.
  induction Hall as [|x v xs vs Hxv Hall IH]; intros I h H0 Hstep; simpl.
  - by apply wp_ret.
  - apply wp_bind. eapply wp_mono.
    + apply (Hstep [] x v h Hxv H0).
    + intros u h' Hx. simpl in Hx.
      apply (IH (fun done => I (v :: done))); [done|].
      intros done y w h'' Hyw Hd. apply (Hstep (v :: done) y w h'' Hyw Hd).
Qed.

(** ** Sums and folds over the entries of a dictionary *)

Lemma sumZ_app l1 l2 : sumZ (l1 ++ l2) = sumZ l1 + sumZ l2.
Proof. induction l1 as [|x l1 IH]; simpl; lia. Qed.

Lemma sumZ_map_snoc {A} (f : A -> Z) l x :
  sumZ (map f (l ++ [x])) = sumZ (map f l) + f x.
Proof. rewrite map_app, sumZ_app. simpl. lia. Qed.

Lemma sumZ_entries_list (k : string) (l : list (string * Z)) :
  NoDup l.*1 ->
  sumZ (map (fun e => if decide (e.1 = k) then e.2 else 0) l)
  = default 0 ((list_to_map l : gmap string Z) !! k).
Proof.
  induction l as [|[k' a] l IH]; intros Hnd; simpl.
  - by rewrite lookup_empty.
  - apply NoDup_cons in Hnd as [Hk' Hnd]. rewrite (IH Hnd).
    destruct (decide (k' = k)) as [->|Hne].
    + rewrite lookup_insert_eq. simpl.
      rewrite (not_elem_of_list_to_map_1 _ _ Hk'). simpl. lia.
    + by rewrite lookup_insert_ne.
Qed.

(** The entries keyed [k] of a dictionary sum to its value at [k], or to 0
    when [k] is missing. *)
Lemma sumZ_entries (k : string) (m : gmap string Z) :
  sumZ (map (fun e => if decide (e.1 = k) then e.2 else 0) (map_to_list m))
  = default 0 (m !! k).
Proof.
  rewrite sumZ_entries_list by apply NoDup_fst_map_to_list.
  by rewrite list_to_map_to_list.
Qed.

(** ** [calculateAvailableResources] on the object store *)

Lemma firstWithId_Some h rs rid l :
  firstWithId h rs rid = Some l ->
  l ∈ rs /\ exists r, h !! l = Some (ResourceObj r) /\ resource_id r = rid.
Proof.
  induction rs as [|l' rs IH]; simpl; [done|].
  destruct (h !! l') as [[p|r]|] eqn:Hl'.
  - intros [? ?]%IH. split; [by right|done].
  - destruct (decide (resource_id r = rid)) as [Hid|Hid].
    + intros [= <-]. split; [by left|]. by exists r.
    + intros [? ?]%IH. split; [by right|done].
  - intros [? ?]%IH. split; [by right|done].
Qed.

Lemma recomputed_ext h0 rs (acc acc' : loc -> Z) h :
  (forall l, acc l = acc' l) -> recomputed h0 rs acc h -> recomputed h0 rs acc' h.
Proof.
  intros Heq [Hout Hin]. split; [done|].
  intros l r Hl Hr. rewrite <- Heq. by apply Hin.
Qed.

Section recompute.
Variables (h0 : heap) (rs : list loc).
Hypothesis resources_valid : forall l, l ∈ rs -> exists r, h0 !! l = Some (ResourceObj r).

(** Lines 25-27: every [available] is reset to [total]. *)
Lemma wp_reset h :
  h = h0 ->
  wp (forEach rs (fun l =>
        let* r := readResource l in
        writeObject l (ResourceObj (set_available r (total r)))))
     (fun _ h' => recomputed h0 rs (totalAt h0) h') h.
Proof.
  intros ->.
  set (I := fun (done : list loc) (h : heap) =>
    (forall l, l ∉ done -> h !! l = h0 !! l) /\
    (forall l r, l ∈ done -> h0 !! l = Some (ResourceObj r) ->
       h !! l = Some (ResourceObj (set_available r (total r))))).
  eapply wp_mono.
  - apply (wp_forEach I).
    + split; [done|]. intros l r Hl. by apply elem_of_nil in Hl.
    + intros done x h [Hout Hin] Hx.
      destruct (resources_valid x Hx) as [r Hr].
      assert (exists a, h !! x = Some (ResourceObj (set_available r a))) as [a Ha].
      { destruct (decide (x ∈ done)) as [Hd|Hd].
        - exists (total r). by apply Hin.
        - exists (available r). rewrite (Hout x Hd), Hr. by destruct r. }
      apply wp_bind. eapply wp_readResource; [exact Ha|].
      apply wp_writeObject. split.
      * intros l Hl. rewrite not_elem_of_app, list_elem_of_singleton in Hl.
        destruct Hl as [Hl Hne]. rewrite lookup_insert_ne by done. by apply Hout.
      * intros l r' Hl Hr'. destruct (decide (l = x)) as [->|Hne].
        -- rewrite lookup_insert_eq. rewrite Hr in Hr'. by injection Hr' as <-.
        -- rewrite lookup_insert_ne by done. apply Hin; [|done].
           rewrite elem_of_app, list_elem_of_singleton in Hl. by destruct Hl.
  - intros ? h [Hout Hin]. split; [done|].
    intros l r Hl Hr. rewrite (Hin l r Hl Hr). unfold totalAt. by rewrite Hr.
Qed.

(** Line 32: [find] reads the ids, which no write changes. *)
Lemma wp_findResource acc h rs' rid :
  recomputed h0 rs acc h -> rs' ⊆ rs ->
  wp (findResource rs' rid) (fun o h' => h' = h /\ o = firstWithId h0 rs' rid) h.
Proof.
  intros [Hout Hin]. induction rs' as [|l rs' IH]; intros Hsub; simpl.
  - by apply wp_ret.
  - assert (l ∈ rs) as Hl by (apply Hsub; by left).
    destruct (resources_valid l Hl) as [r Hr]. rewrite Hr.
    apply wp_bind. eapply wp_readResource; [by apply Hin|]. simpl.
    destruct (decide (resource_id r = rid)); [by apply wp_ret|].
    apply IH. intros x Hx. apply Hsub. by right.
Qed.

(** Lines 31-36: one allocation entry. *)
Lemma wp_subtractAllocated acc h e :
  recomputed h0 rs acc h ->
  wp (subtractAllocated rs e)
     (fun _ h' => recomputed h0 rs (fun l => subtractFrom h0 rs l (acc l) e) h') h.
Proof.
  intros Hrec. unfold subtractAllocated. apply wp_bind.
  eapply wp_mono; [by apply (wp_findResource acc h rs e.1 Hrec)|].
  intros o h' [-> ->]. unfold subtractFrom.
  destruct (firstWithId h0 rs e.1) as [l|] eqn:Hfirst.
  - destruct (firstWithId_Some _ _ _ _ Hfirst) as [Hl [r [Hr _]]].
    destruct Hrec as [Hout Hin].
    apply wp_bind. eapply wp_readResource; [by apply Hin|].
    apply wp_writeObject. split.
    + intros l' Hl'. rewrite lookup_insert_ne by (by intros ->). by apply Hout.
    + intros l' r' Hl' Hr'. destruct (decide (l' = l)) as [->|Hne].
      * rewrite lookup_insert_eq. rewrite Hr in Hr'. injection Hr' as <-.
        by rewrite decide_True by done.
      * rewrite lookup_insert_ne by done.
        rewrite decide_False by congruence.
        by rewrite (Hin l' r' Hl' Hr').
  - apply wp_ret. eapply recomputed_ext; [|exact Hrec].
    intros l. by rewrite decide_False by done.
Qed.

(** Lines 30-37: all entries of all processes. *)
Lemma wp_subtract_all pls ps h :
  Forall2 (fun l p => h0 !! l = Some (ProcessObj p)) pls ps ->
  recomputed h0 rs (totalAt h0) h ->
  wp (forEach pls (fun pl =>
        let* process := readProcess pl in
        forEach (map_to_list (allocation process)) (subtractAllocated rs)))
     (fun _ h' => recomputed h0 rs (availableAt h0 rs ps) h') h.
Proof.
  intros Hall Hrec.
  apply (wp_forEach2 _ (fun done h' => recomputed h0 rs (availableAt h0 rs done) h')
           _ _ _ _ Hall); [done|].
  intros done pl p h' Hp Hdone.
  assert (pl ∉ rs) as Hpl.
  { intros [r Hr]%resources_valid. congruence. }
  apply wp_bind. eapply wp_readProcess.
  { destruct Hdone as [Hout _]. by rewrite (Hout pl Hpl). }
  eapply wp_mono.
  - apply (wp_forEach (fun es h'' =>
      recomputed h0 rs
        (fun l => foldl (subtractFrom h0 rs l) (availableAt h0 rs done l) es) h'')).
    + done.
    + intros es e h'' Hes _. eapply wp_mono; [by apply wp_subtractAllocated|].
      intros ? h3 H3. eapply recomputed_ext; [|exact H3].
      intros l. simpl. by rewrite foldl_app.
  - intros ? h'' H''. eapply recomputed_ext; [|exact H''].
    intros l. unfold availableAt, entriesOf.
    rewrite flat_map_app, foldl_app. simpl. by rewrite app_nil_r.
Qed.
End recompute.

Lemma Forall2_elem_l {A B} (R : A -> B -> Prop) xs ys x :
  Forall2 R xs ys -> x ∈ xs -> exists y, y ∈ ys /\ R x y.
Proof.
  induction 1 as [|x' y' xs ys HR Hall IH]; intros Hx.
  - by apply elem_of_nil in Hx.
  - apply elem_of_cons in Hx as [->|Hx].
    + exists y'. split; [by left|done].
    + destruct (IH Hx) as [y [Hy HRy]]. exists y. split; [by right|done].
Qed.

Lemma holds_resource h matrix v l :
  holds h matrix v -> l ∈ resources matrix ->
  exists r, r ∈ v_resources v /\ h !! l = Some (ResourceObj r).
Proof.
  intros [_ Hrs] Hl. apply (Forall2_elem_l _ _ _ _ Hrs Hl).
Qed.

(** What [calculateAvailableResources] does to the store it is run on: it
    returns the references it was given, and leaves every resource object
    with [available] recomputed from [total]. *)
Lemma wp_calculateAvailableResources h matrix v :
  holds h matrix v ->
  wp (calculateAvailableResources matrix)
     (fun out h' =>
        out = resources matrix /\
        recomputed h (resources matrix)
          (availableAt h (resources matrix) (v_processes v)) h') h.
Proof.
  intros Hden.
  assert (forall l, l ∈ resources matrix -> exists r, h !! l = Some (ResourceObj r)) as Hvalid.
  { intros l Hl. destruct (holds_resource _ _ _ _ Hden Hl) as [r [_ Hr]]. by exists r. }
  unfold calculateAvailableResources.
  apply wp_bind. eapply wp_mono; [by apply (wp_reset h (resources matrix) Hvalid)|].
  intros ? h1 H1. simpl.
  apply wp_bind. eapply wp_mono.
  { apply (wp_subtract_all h (resources matrix) Hvalid _ _ _ (proj1 Hden) H1). }
  intros ? h2 H2. simpl. by apply wp_ret.
Qed.

(** ** Reading a matrix *)

Lemma readProcess_Some l p h h' :
  readProcess l h = Some (p, h') <-> h' = h /\ h !! l = Some (ProcessObj p).
Proof.
  unfold readProcess. destruct (h !! l) as [[q|r]|]; split;
    try (intros [_ ?]; congruence); try done.
  - by intros [= -> ->].
  - by intros [-> [= ->]].
Qed.

Lemma readResource_Some l r h h' :
  readResource l h = Some (r, h') <-> h' = h /\ h !! l = Some (ResourceObj r).
Proof.
  unfold readResource. destruct (h !! l) as [[q|r']|]; split;
    try (intros [_ ?]; congruence); try done.
  - by intros [= -> ->].
  - by intros [-> [= ->]].
Qed.

Lemma mapM_read_Some {A} (rd : loc -> M A) (inj : A -> object) ls vs h h' :
  (forall l a h1 h2, rd l h1 = Some (a, h2) <-> h2 = h1 /\ h1 !! l = Some (inj a)) ->
  mapM rd ls h = Some (vs, h') ->
  h' = h /\ Forall2 (fun l a => h !! l = Some (inj a)) ls vs.
Proof.
  intros Hrd. revert vs. induction ls as [|l ls IH]; intros vs; simpl.
  - by intros [= <- <-].
  - unfold bind at 1. destruct (rd l h) as [[a h1]|] eqn:Hl; [|done].
    apply Hrd in Hl as [-> Hl].
    unfold bind at 1. destruct (mapM rd ls h) as [[vs' h2]|] eqn:Hls; [|done].
    intros [= <- <-]. destruct (IH vs' eq_refl) as [-> Hall].
    split; [done|]. by constructor.
Qed.

Lemma readProcess_holds l p h :
  h !! l = Some (ProcessObj p) -> readProcess l h = Some (p, h).
Proof. intros Hl. by apply readProcess_Some. Qed.

Lemma readResource_holds l r h :
  h !! l = Some (ResourceObj r) -> readResource l h = Some (r, h).
Proof. intros Hl. by apply readResource_Some. Qed.

Lemma wp_JSON_stringify h matrix v :
  holds h matrix v ->
  wp (JSON_stringify matrix) (fun out h' => out = v /\ h' = h) h.
Proof.
  intros [Hps Hrs]. unfold JSON_stringify.
  apply wp_bind. apply (wp_mapM_read _ ProcessObj _ _ _ _ readProcess_holds Hps).
  apply wp_bind. apply (wp_mapM_read _ ResourceObj _ _ _ _ readResource_holds Hrs).
  apply wp_ret. by destruct v.
Qed.

(** [JSON_stringify] returns the data the matrix denotes, and only reads. *)
Lemma JSON_stringify_Some h matrix v h' :
  JSON_stringify matrix h = Some (v, h') <-> h' = h /\ holds h matrix v.
Proof.
  split.
  - unfold JSON_stringify. unfold bind at 1.
    destruct (mapM readProcess (processes matrix) h) as [[ps h1]|] eqn:Hps; [|done].
    apply (mapM_read_Some _ ProcessObj) in Hps as [-> Hps]; [|apply readProcess_Some].
    unfold bind at 1.
    destruct (mapM readResource (resources matrix) h) as [[rs h2]|] eqn:Hrs; [|done].
    apply (mapM_read_Some _ ResourceObj) in Hrs as [-> Hrs]; [|apply readResource_Some].
    by intros [= <- <-].
  - intros [-> Hden]. apply wp_JSON_stringify, wp_elim in Hden.
    destruct Hden as (out & h'' & Heq & -> & ->). done.
Qed.

Lemma Forall2_impl_elem {A B} (R R' : A -> B -> Prop) xs ys :
  Forall2 R xs ys ->
  (forall x y, x ∈ xs -> y ∈ ys -> R x y -> R' x y) ->
  Forall2 R' xs ys.
Proof.
  induction 1 as [|x y xs ys HR Hall IH]; intros Himp; constructor.
  - apply Himp; [by left|by left|done].
  - apply IH. intros x' y' Hx' Hy'. apply Himp; by right.
Qed.

(** With pairwise distinct ids, [find] returns the object at [l] exactly for
    the id of that object. *)
Lemma firstWithId_unique h rs vals l r rid :
  Forall2 (fun l r => h !! l = Some (ResourceObj r)) rs vals ->
  NoDup (resource_id <$> vals) ->
  l ∈ rs -> h !! l = Some (ResourceObj r) ->
  firstWithId h rs rid = Some l <-> resource_id r = rid.
Proof.
  intros Hall Hnd Hl Hr. split.
  - intros (_ & r' & Hr' & <-)%firstWithId_Some. congruence.
  - intros <-. induction Hall as [|l1 r1 rs vals Hl1 Hall IH]; [by apply elem_of_nil in Hl|].
    simpl in *. apply NoDup_cons in Hnd as [Hfresh Hnd]. rewrite Hl1.
    destruct (decide (resource_id r1 = resource_id r)) as [Heq|Hne].
    + f_equal. apply elem_of_cons in Hl as [->|Hl]; [done|]. exfalso.
      destruct (Forall2_elem_l _ _ _ _ Hall Hl) as (r' & Hr'in & Hr').
      assert (r' = r) as -> by congruence.
      apply Hfresh. rewrite Heq. by apply list_elem_of_fmap_2.
    + apply elem_of_cons in Hl as [->|Hl]; [congruence|]. by apply IH.
Qed.

Lemma sumZ_flat_map {A B} (g : B -> Z) (f : A -> list B) (l : list A) :
  sumZ (map g (flat_map f l)) = sumZ (map (fun x => sumZ (map g (f x))) l).
Proof.
  induction l as [|x l IH]; [done|]. simpl. by rewrite map_app, sumZ_app, IH.
Qed.

Lemma sumZ_abs_nonneg {A} (f : A -> Z) (l : list A) : 0 <= sumZ (map (fun x => Z.abs (f x)) l).
Proof. induction l as [|x l IH]; simpl; lia. Qed.

Lemma sumZ_abs_elem {A} (f : A -> Z) (l : list A) x :
  x ∈ l -> Z.abs (f x) <= sumZ (map (fun y => Z.abs (f y)) l).
Proof.
  induction l as [|y l IH]; [by intros ?%elem_of_nil|].
  pose proof (sumZ_abs_nonneg f l).
  intros [->|Hx]%elem_of_cons; simpl; [lia|]. specialize (IH Hx). lia.
Qed.

Lemma magnitude_nonneg (m : gmap string Z) : 0 <= magnitude m.
Proof. apply (sumZ_abs_nonneg snd). Qed.

Lemma sumZ_magnitude_nonneg (ps : list Process) :
  0 <= sumZ (map (fun p => magnitude (allocation p)) ps).
Proof.
  induction ps as [|p ps IH]; simpl; [lia|].
  pose proof (magnitude_nonneg (allocation p)). lia.
Qed.

(** Within 2^53 the subtractions of line 34 are exact. *)
Lemma foldl_subtract_exact (sel : string * Z -> Prop) `{!forall e, Decision (sel e)}
    (es : list (string * Z)) (a : Z) :
  Z.abs a + sumZ (map (fun e => Z.abs e.2) es) <= 2 ^ 53 ->
  foldl (fun a e => if decide (sel e) then fl (a - e.2) else a) a es
  = a - sumZ (map (fun e => if decide (sel e) then e.2 else 0) es).
Proof.
  revert a. induction es as [|e es IH]; intros a Hb; simpl in *; [lia|].
  pose proof (sumZ_abs_nonneg snd es) as Hpos. simpl in Hpos.
  destruct (decide (sel e)).
  - rewrite fl_small by lia. rewrite IH by lia. lia.
  - rewrite IH by lia. lia.
Qed.

Lemma entriesOf_magnitude (ps : list Process) :
  sumZ (map (fun e => Z.abs e.2) (entriesOf ps))
  = sumZ (map (fun p => magnitude (allocation p)) ps).
Proof. unfold entriesOf. apply sumZ_flat_map. Qed.

Lemma availableAt_exact h rs ps l :
  Z.abs (totalAt h l) + sumZ (map (fun p => magnitude (allocation p)) ps) <= 2 ^ 53 ->
  availableAt h rs ps l = totalAt h l - allocatedAt h rs ps l.
Proof.
  intros Hb. unfold availableAt, subtractFrom.
  rewrite (foldl_subtract_exact (fun e => firstWithId h rs e.1 = Some l)).
  - f_equal. unfold allocatedAt, entriesOf, taken. apply sumZ_flat_map.
  - by rewrite entriesOf_magnitude.
Qed.

(** Under [safeAmounts], a total and all the allocations are within
    2^53. *)
Lemma safeAmounts_resource v r :
  safeAmounts v -> r ∈ v_resources v ->
  Z.abs (total r) + 2 * sumZ (map (fun p => magnitude (allocation p)) (v_processes v))
  <= 2 ^ 53.
Proof.
  unfold safeAmounts. intros Hsafe Hr.
  pose proof (sumZ_abs_elem total (v_resources v) r Hr). lia.
Qed.

(** C5, amended: for every matrix whose resource ids are pairwise distinct
    and whose amounts are small enough for the subtractions to be exact
    ([safeAmounts]), [calculateAvailableResources] returns the matrix's
    resources, each with [available] equal to [total] minus the sum, over
    all processes, of the process's allocation entry for that resource's id
    (0 when the entry is missing).  Entries under any other id appear in no
    resource's sum, the call does not fail on them, and no other object is
    written. *)
Theorem calculateAvailableResources_formula h matrix v :
  denotes h matrix v ->
  NoDup (resource_id <$> v_resources v) ->
  safeAmounts v ->
  exists h',
    calculateAvailableResources matrix h = Some (resources matrix, h') /\
    Forall2 (fun l r =>
        h' !! l = Some (ResourceObj (set_available r
          (total r - sumZ (map (fun p => default 0 (allocation p !! resource_id r))
                               (v_processes v))))))
      (resources matrix) (v_resources v) /\
    (forall l, l ∉ resources matrix -> h' !! l = h !! l).
Proof.
  intros [Hden _] Hnd Hsafe.
  destruct (wp_elim _ _ _ (wp_calculateAvailableResources h matrix v Hden))
    as (out & h' & Hrun & -> & Hout & Hin).
  exists h'. split; [done|]. split; [|done].
  destruct Hden as [Hps Hrs].
  eapply Forall2_impl_elem; [exact Hrs|].
  intros l r Hl Hrin Hr. simpl in Hr. rewrite (Hin l r Hl Hr).
  assert (totalAt h l = total r) as Htotal by (unfold totalAt; by rewrite Hr).
  rewrite availableAt_exact.
  2:{ rewrite Htotal. pose proof (safeAmounts_resource v r Hsafe Hrin).
      pose proof (sumZ_magnitude_nonneg (v_processes v)). lia. }
  rewrite Htotal. do 3 f_equal.
  unfold allocatedAt. do 2 f_equal. apply map_ext. intros p.
  rewrite <- sumZ_entries. f_equal. apply map_ext. intros e. unfold taken.
  destruct (decide (e.1 = resource_id r)) as [He|He].
  - rewrite decide_True; [done|].
    by apply (firstWithId_unique h _ _ l r e.1 Hrs Hnd Hl Hr).
  - rewrite decide_False; [done|].
    intros Hf. apply He. symmetry.
    by apply (firstWithId_unique h _ _ l r e.1 Hrs Hnd Hl Hr).
Qed.

(** C5, amended, at scenario B. *)
Lemma calculateAvailableResources_formula_scenarioB :
  exists h',
    calculateAvailableResources scenarioB scenarioB_store = Some (resources scenarioB, h') /\
    Forall2 (fun l r =>
        h' !! l = Some (ResourceObj (set_available r
          (total r - sumZ (map (fun p => default 0 (allocation p !! resource_id r))
                               (v_processes scenarioB_value))))))
      (resources scenarioB) (v_resources scenarioB_value) /\
    (forall l, l ∉ resources scenarioB -> h' !! l = scenarioB_store !! l).
Proof.
  apply (calculateAvailableResources_formula scenarioB_store scenarioB scenarioB_value).
  - denotes_example.
  - by_evaluation.
  - by_evaluation.
Defined.

(** C5 as stated fails when two resources share an id: [find] returns the
    first of them for every allocation entry, so the second keeps
    [available = total] (here 1), not [total] minus the allocations (here 0). *)
Lemma calculateAvailableResources_twin_ids :
  exists h' r,
    denotes twinResources_store twinResources twinResources_value /\
    safeAmounts twinResources_value /\
    calculateAvailableResources twinResources twinResources_store
      = Some (resources twinResources, h') /\
    3%positive ∈ resources twinResources /\
    h' !! 3%positive = Some (ResourceObj r) /\
    available r = 1 /\
    total r - sumZ (map (fun p => default 0 (allocation p !! resource_id r))
                        (v_processes twinResources_value)) = 0 /\
    available r <> total r - sumZ (map (fun p => default 0 (allocation p !! resource_id r))
                                       (v_processes twinResources_value)).
Proof.
  eexists _, (mkResource "R1" 1 1 false).
  split; [denotes_example|].
  split; [by_evaluation|].
  split; [vm_compute; reflexivity|].
  split; [set_solver|].
  split; [vm_compute; reflexivity|].
  split; [reflexivity|]. split; [reflexivity|]. by vm_compute.
Qed.

(** Beyond 2^53 the subtractions round: with 2^53 + 2 instances and two
    processes that hold one each, the first difference, 2^53 + 1, is no
    double and becomes 2^53, so [available] ends as 2^53 - 1, one less than
    the total minus the allocations. *)
Example calculateAvailableResources_rounding :
  exists h' r,
    denotes rounding_store rounding rounding_value /\
    NoDup (resource_id <$> v_resources rounding_value) /\
    calculateAvailableResources rounding rounding_store = Some (resources rounding, h') /\
    h' !! 3%positive = Some (ResourceObj r) /\
    total r = 2 ^ 53 + 2 /\
    sumZ (map (fun p => default 0 (allocation p !! resource_id r))
              (v_processes rounding_value)) = 2 /\
    available r = 2 ^ 53 - 1.
Proof.
  eexists _, (mkResource "R1" (2 ^ 53 + 2) (2 ^ 53 - 1) true).
  split; [denotes_example|].
  split; [by_evaluation|].
  split; [vm_compute; reflexivity|].
  split; [vm_compute; reflexivity|]. by repeat split.
Qed.

(** C4: on the matrix [edited], the call overwrites [available] in the
    caller's own resource object (1 before the call, 0 after) and returns
    the caller's references, not copies. *)
Theorem calculateAvailableResources_writes_input :
  exists h',
    calculateAvailableResources edited edited_store = Some (resources edited, h') /\
    edited_store !! 2%positive = Some (ResourceObj (mkResource "R1" 1 1 false)) /\
    h' !! 2%positive = Some (ResourceObj (mkResource "R1" 1 0 false)).
Proof.
  eexists. split; [vm_compute; reflexivity|]. split; reflexivity.
Qed.

(** ** One round of the detector *)

Lemma canFinish_fold (av : gmap string Value) (l : list (string * Z)) (flag : bool) :
  foldl (fun flag entry =>
           if entry.2 <=? 0 then flag
           else if exceeds entry.2 (readOr0 av entry.1) then false
           else flag) flag l = true
  <-> flag = true /\ Forall (fun e => 0 < e.2 -> exceeds e.2 (readOr0 av e.1) = false) l.
Proof.
  revert flag. induction l as [|e l IH]; intros flag; simpl.
  - split; [by intros ->|by intros [-> _]].
  - rewrite IH, Forall_cons. clear IH.
    destruct (Z.leb_spec (e.2) 0) as [Hle|Hlt].
    + split; intros [Hf Hall]; (split; [done|]); [split; [lia|done]|by destruct Hall].
    + destruct (exceeds e.2 (readOr0 av e.1)) eqn:Hex.
      * split; [by intros [? _]|]. intros [_ [He _]]. by specialize (He Hlt).
      * split; intros [Hf Hall]; (split; [done|]); [split; [done|done]|by destruct Hall].
Qed.

(** The flag computed by lines 93-104: no strictly positive request exceeds
    what line 100 reads. *)
Lemma canFinish_true p av :
  canFinish p av = true
  <-> forall rid q, request p !! rid = Some q -> 0 < q -> exceeds q (readOr0 av rid) = false.
Proof.
  unfold canFinish. rewrite canFinish_fold, Forall_forall. split.
  - intros [_ Hall] rid q Hq. apply (Hall (rid, q)). by apply elem_of_map_to_list.
  - intros Hsat. split; [done|]. intros [rid q] Hq%elem_of_map_to_list. by apply Hsat.
Qed.

Lemma plainProcess_allocation p rid a :
  plainProcess p -> allocation p !! rid = Some a -> rid ∉ inheritedNames.
Proof.
  unfold plainProcess. rewrite Forall_forall. intros Hp Ha Hin.
  destruct (Hp rid Hin) as [Hnone _]. congruence.
Qed.

Lemma plainProcess_request p rid q :
  plainProcess p -> request p !! rid = Some q -> rid ∉ inheritedNames.
Proof.
  unfold plainProcess. rewrite Forall_forall. intros Hp Hq Hin.
  destruct (Hp rid Hin) as [_ Hnone]. congruence.
Qed.

(** Under a name that is not inherited, a dictionary of numbers yields its
    amount. *)
Lemma readOr0_amountOf av rid :
  numeric av -> rid ∉ inheritedNames -> readOr0 av rid = Num (amountOf av rid).
Proof.
  intros Hnum Hrid. unfold readOr0, amountOf. specialize (Hnum rid).
  destruct (av !! rid) as [[n|]|]; [done|done|]. by rewrite decide_False.
Qed.

(** With plain keys and a dictionary of numbers, the flag says that the
    request can be satisfied. *)
Lemma canFinish_satisfiable p av :
  plainProcess p -> numeric av ->
  canFinish p av = true <-> satisfiable p (amountOf av).
Proof.
  intros Hp Hnum. rewrite canFinish_true. unfold satisfiable.
  split; intros Hall rid q Hq Hpos; specialize (Hall rid q Hq Hpos);
    rewrite (readOr0_amountOf av rid Hnum (plainProcess_request p rid q Hp Hq)) in *;
    simpl in *; lia.
Qed.

Lemma release_fold (k : string) (l : list (string * Z)) (av : gmap string Value) :
  NoDup l.*1 -> "__proto__" ∉ l.*1 ->
  foldl (fun av entry => assign av entry.1 (plus (readOr0 av entry.1) entry.2)) av l !! k
  = match (list_to_map l : gmap string Z) !! k with
    | Some a => Some (plus (readOr0 av k) a)
    | None => av !! k
    end.
Proof.
  revert av. induction l as [|[k' a] l IH]; intros av Hnd Hproto; simpl.
  - by rewrite lookup_empty.
  - apply NoDup_cons in Hnd as [Hk' Hnd].
    apply not_elem_of_cons in Hproto as [Hne' Hproto]. simpl in Hne'.
    rewrite (IH _ Hnd Hproto). unfold assign. rewrite decide_False by done.
    destruct (decide (k' = k)) as [->|Hne].
    + rewrite (lookup_insert_eq (list_to_map l)).
      rewrite (not_elem_of_list_to_map_1 _ _ Hk'). by rewrite lookup_insert_eq.
    + rewrite (lookup_insert_ne (list_to_map l)) by done.
      unfold readOr0. by rewrite lookup_insert_ne.
Qed.

(** Lines 110-112: each allocation entry is added to what line 111 reads
    under its resource id; other ids are untouched. *)
Lemma release_lookup p av rid :
  allocation p !! "__proto__" = None ->
  release p av !! rid
  = match allocation p !! rid with
    | Some a => Some (plus (readOr0 av rid) a)
    | None => av !! rid
    end.
Proof.
  intros Hproto. unfold release. rewrite release_fold.
  - by rewrite list_to_map_to_list.
  - apply NoDup_fst_map_to_list.
  - intros ([k a] & Hk & Hin%elem_of_map_to_list)%list_elem_of_fmap. simpl in Hk.
    subst k. congruence.
Qed.

Lemma plainProcess_proto p : plainProcess p -> allocation p !! "__proto__" = None.
Proof.
  unfold plainProcess. rewrite Forall_forall. intros Hp.
  apply (Hp "__proto__"). by_evaluation.
Qed.

(** With plain keys, a dictionary of numbers stays one. *)
Lemma release_numeric p av : plainProcess p -> numeric av -> numeric (release p av).
Proof.
  intros Hp Hnum rid. rewrite release_lookup by by apply plainProcess_proto.
  destruct (allocation p !! rid) as [a|] eqn:Ha; [|apply Hnum].
  by rewrite (readOr0_amountOf av rid Hnum (plainProcess_allocation p rid a Hp Ha)).
Qed.

(** With plain keys and amounts within 2^53, lines 110-112 add the
    allocation entries exactly. *)
Lemma release_givenBack p av :
  plainProcess p -> numeric av ->
  (forall rid a, allocation p !! rid = Some a -> Z.abs (amountOf av rid + a) <= 2 ^ 53) ->
  givenBack p av (release p av).
Proof.
  intros Hp Hnum Hb rid. rewrite release_lookup by by apply plainProcess_proto.
  destruct (allocation p !! rid) as [a|] eqn:Ha; [|done].
  rewrite (readOr0_amountOf av rid Hnum (plainProcess_allocation p rid a Hp Ha)).
  simpl. by rewrite fl_small by by apply Hb.
Qed.

(** The amounts of a dictionary to which the entries of [p] were given
    back. *)
Lemma givenBack_amountOf p av av' rid :
  givenBack p av av' -> amountOf av' rid = released p (amountOf av) rid.
Proof.
  intros Hgb. unfold released, amountOf at 1. rewrite (Hgb rid).
  destruct (allocation p !! rid) as [a|]; simpl; [done|].
  unfold amountOf. lia.
Qed.

(** ** The rounds of the [while] loop *)

Lemma scan_Some ids ps st st' :
  scan ids ps st = Some st' ->
  exists P, P ∈ ps /\ (process_id P ∉ finished st) /\
            canFinish P (current st) = true /\ st' = admitProcess ids P st.
Proof.
  induction ps as [|Q ps IH]; simpl; [done|].
  destruct (decide (process_id Q ∈ finished st)) as [Hfin|Hfin].
  - intros (P & HP & Hrest)%IH. exists P. split; [by right|done].
  - destruct (canFinish Q (current st)) eqn:HQ.
    + intros [= <-]. exists Q. split; [by left|done].
    + intros (P & HP & Hrest)%IH. exists P. split; [by right|done].
Qed.

Lemma loopInv_initial ps av : loopInv ps (initialState (process_id <$> ps) av).
Proof.
  split; simpl.
  - done.
  - constructor.
  - intros x Hx. by apply elem_of_nil in Hx.
  - exists []. by repeat split.
Qed.

Lemma loopInv_admission ps ids P st :
  loopInv ps st -> P ∈ ps -> process_id P ∉ finished st ->
  loopInv ps (admitProcess ids P st).
Proof.
  intros [Hfin Hnd Hids (admitted & Hin & Hseq & Hdesc & Hproc)] HP HPfin.
  split; simpl.
  - rewrite Hfin, list_to_set_app_L. simpl. by rewrite union_empty_r_L.
  - apply NoDup_app. split; [done|]. split; [|apply NoDup_singleton].
    intros x Hx ->%list_elem_of_singleton. apply HPfin. rewrite Hfin.
    by apply elem_of_list_to_set.
  - intros x [Hx| ->%list_elem_of_singleton]%elem_of_app; [by apply Hids|].
    by apply list_elem_of_fmap_2.
  - exists (admitted ++ [P]). repeat split.
    + apply Forall_app. split; [done|]. by constructor.
    + by rewrite fmap_app, Hseq.
    + by rewrite !fmap_app, Hdesc.
    + by rewrite !fmap_app, Hproc.
Qed.

Lemma loopInv_scan ps ids st st' :
  loopInv ps st -> scan ids ps st = Some st' -> loopInv ps st'.
Proof.
  intros Hinv (P & HP & HPfin & _ & ->)%scan_Some. by apply loopInv_admission.
Qed.

(** The admitted ids are distinct ids of processes, so there are at most as
    many as processes. *)
Lemma loopInv_bound ps st : loopInv ps st -> (length (sequence st) <= length ps)%nat.
Proof.
  intros [_ Hnd Hids _].
  rewrite <- (length_fmap process_id ps).
  apply submseteq_length, NoDup_submseteq; [done|]. intros x. apply Hids.
Qed.

Lemma loopInv_size ps st : loopInv ps st -> size (finished st) = length (sequence st).
Proof.
  intros [-> Hnd _ _]. by apply size_list_to_set.
Qed.

Lemma scan_sequence ids ps st st' :
  scan ids ps st = Some st' -> length (sequence st') = S (length (sequence st)).
Proof.
  intros (P & _ & _ & _ & ->)%scan_Some. simpl. rewrite length_app. simpl. lia.
Qed.

(** A property kept by every admission holds after any number of rounds. *)
Lemma rounds_invariant (I : LoopState -> Prop) ids ps k st st' :
  (forall s s', I s -> scan ids ps s = Some s' -> I s') ->
  I st -> rounds ids ps k st = Some st' -> I st'.
Proof.
  intros Hstep. revert st. induction k as [|k IH]; intros st Hst; simpl.
  - by intros [= <-].
  - destruct (scan ids ps st) as [s|] eqn:Hscan; [|done].
    apply IH. by apply (Hstep st).
Qed.

Lemma rounds_sequence ids ps k st st' :
  rounds ids ps k st = Some st' ->
  length (sequence st') = (length (sequence st) + k)%nat.
Proof.
  revert st. induction k as [|k IH]; intros st; simpl.
  - intros [= <-]. lia.
  - destruct (scan ids ps st) as [s|] eqn:Hscan; [|done].
    intros ->%IH. rewrite (scan_sequence _ _ _ _ Hscan). lia.
Qed.

(** The loop spends one unit of fuel per round. *)
Lemma whileLoop_rounds ids ps k fuel st st' :
  rounds ids ps k st = Some st' ->
  whileLoop (k + fuel) ids ps st = whileLoop fuel ids ps st'.
Proof.
  revert st. induction k as [|k IH]; intros st; simpl.
  - by intros [= <-].
  - destruct (scan ids ps st) as [s|] eqn:Hscan; [|done]. apply IH.
Qed.

(** From a state of the loop, fuel for one round more than there are
    processes left to admit is enough: the loop runs [k] admitting rounds
    to a state where the scan admits nobody, and returns. *)
Lemma whileLoop_run ps fuel st :
  loopInv ps st ->
  (length ps < fuel + length (sequence st))%nat ->
  exists k stf,
    rounds (process_id <$> ps) ps k st = Some stf /\
    scan (process_id <$> ps) ps stf = None /\
    whileLoop fuel (process_id <$> ps) ps st = Some (finish ps stf).
Proof.
  revert st. induction fuel as [|fuel IH]; intros st Hinv Hfuel.
  - pose proof (loopInv_bound ps st Hinv). lia.
  - simpl. destruct (scan (process_id <$> ps) ps st) as [st'|] eqn:Hscan.
    + destruct (IH st') as (k & stf & Hk & Hstf & Hrun).
      * by eapply loopInv_scan.
      * rewrite (scan_sequence _ _ _ _ Hscan). lia.
      * exists (S k), stf. simpl. by rewrite Hscan.
    + by exists O, st.
Qed.

(** ** The working copy of [detectDeadlock] *)

Lemma preserved_refl h : preserved h h.
Proof. by intros l o. Qed.

Lemma preserved_trans h1 h2 h3 : preserved h1 h2 -> preserved h2 h3 -> preserved h1 h3.
Proof. intros H12 H23 l o Hl. by apply H23, H12. Qed.

Lemma preserved_insert h l o : h !! l = None -> preserved h (<[l := o]> h).
Proof.
  intros Hl l' o' Hl'. rewrite lookup_insert_ne; [done|]. intros ->. congruence.
Qed.

(** [JSON.parse] builds its objects at addresses that held nothing, and
    leaves every earlier object as it was. *)
Lemma wp_mapM_new {V} (inj : V -> object) (vs : list V)
    (Q : list loc -> heap -> Prop) h :
  (forall ls h',
     Forall2 (fun l v => h' !! l = Some (inj v)) ls vs ->
     Forall (fun l => h !! l = None) ls ->
     preserved h h' -> Q ls h') ->
  wp (mapM (fun v => newObject (inj v)) vs) Q h.
Proof.
  revert h Q. induction vs as [|v vs IH]; intros h Q HQ; simpl.
  - apply wp_ret. apply HQ; [constructor|constructor|apply preserved_refl].
  - apply wp_bind, wp_newObject. intros l Hl.
    apply wp_bind, IH. intros ls h' Hall Hnew Hpres.
    apply wp_ret, HQ.
    + constructor; [|done]. apply Hpres, lookup_insert_eq.
    + constructor; [done|].
      eapply Forall_impl; [exact Hnew|]. intros l' Hl'. simpl in Hl'.
      destruct (decide (l = l')) as [->|Hne]; [by rewrite lookup_insert_eq in Hl'|].
      by rewrite lookup_insert_ne in Hl'.
    + eapply preserved_trans; [|exact Hpres]. by apply preserved_insert.
Qed.

Lemma wp_JSON_parse v (Q : AllocationMatrix -> heap -> Prop) h :
  (forall m h',
     holds h' m v ->
     Forall (fun l => h !! l = None) (resources m) ->
     preserved h h' -> Q m h') ->
  wp (JSON_parse v) Q h.
Proof.
  intros HQ. unfold JSON_parse.
  apply wp_bind, (wp_mapM_new ProcessObj). intros ps h1 Hps _ Hpres1.
  apply wp_bind, (wp_mapM_new ResourceObj). intros rs h2 Hrs Hnew Hpres2.
  apply wp_ret, HQ.
  - split; simpl; [|done].
    eapply Forall2_impl; [exact Hps|]. intros l p Hl. by apply Hpres2.
  - simpl. eapply Forall_impl; [exact Hnew|]. intros l Hl. simpl in Hl.
    destruct (h !! l) as [o|] eqn:Ho; [|done].
    apply Hpres1 in Ho. congruence.
  - by eapply preserved_trans.
Qed.

(** Lines 63-66 only read, and only put ids of resources in the
    dictionary. *)
Lemma wp_collectAvailable h rs (ids : list string) acc :
  (forall l, l ∈ rs -> exists r, h !! l = Some (ResourceObj r) /\ resource_id r ∈ ids) ->
  wp (collectAvailable rs acc)
     (fun av h' => h' = h /\ forall rid : string, rid ∉ ids -> av !! rid = acc !! rid) h.
Proof.
  revert acc. induction rs as [|l rs IH]; intros acc Hrs; simpl.
  - by apply wp_ret.
  - destruct (Hrs l) as (r & Hr & Hid); [by left|].
    apply wp_bind. eapply wp_readResource; [exact Hr|].
    eapply wp_mono.
    + apply IH. intros l' Hl'. apply Hrs. by right.
    + intros av h' [-> Hav]. split; [done|]. intros rid Hrid.
      rewrite (Hav rid Hrid). unfold assign.
      destruct (decide (resource_id r = "__proto__")); [done|].
      apply lookup_insert_ne. intros Heq. apply Hrid. by rewrite <- Heq.
Qed.

(** Lines 57-80 on a well-formed store: the caller's objects are left as
    they were; the loop starts on the caller's process data, with an
    availability that has entries for ids of resources only. *)
Lemma wp_setup h matrix v :
  holds h matrix v ->
  wp (setup matrix)
     (fun out h' =>
        preserved h h' /\
        out.1 = v_processes v /\
        exists av,
          out.2 = initialState (process_id <$> v_processes v) av /\
          forall rid : string, rid ∉ resource_id <$> v_resources v -> av !! rid = None) h.
Proof.
  intros Hden. unfold setup.
  apply wp_bind. eapply wp_mono; [by apply wp_JSON_stringify|].
  intros json h0 [-> ->].
  apply wp_bind, wp_JSON_parse. intros wm h1 Hwm Hnew Hpres.
  apply wp_bind. eapply wp_mono; [by apply (wp_calculateAvailableResources h1 wm v)|].
  intros rs h2 [-> [Hout Hin]]. simpl.
  assert (forall l, l ∈ resources wm ->
            exists r, h2 !! l = Some (ResourceObj r) /\
                      resource_id r ∈ resource_id <$> v_resources v) as Hres.
  { intros l Hl. destruct (holds_resource _ _ _ _ Hwm Hl) as (r & Hr & Hlr).
    eexists. split; [by apply Hin|]. simpl. by apply list_elem_of_fmap_2. }
  apply wp_bind. eapply wp_mono; [by apply (wp_collectAvailable h2 _ _ ∅ Hres)|].
  intros av h3 [-> Hav].
  assert (Forall2 (fun l p => h2 !! l = Some (ProcessObj p))
            (processes wm) (v_processes v)) as Hps.
  { eapply Forall2_impl; [exact (proj1 Hwm)|]. intros l p Hl. simpl in Hl.
    rewrite Hout; [done|]. intros Hin'.
    destruct (holds_resource _ _ _ _ Hwm Hin') as (r & _ & Hr). congruence. }
  apply wp_bind. apply (wp_mapM_read _ ProcessObj _ _ _ _ readProcess_holds Hps).
  apply wp_ret. simpl. split; [|split; [done|]].
  - intros l o Hl. rewrite Hout; [by apply Hpres|].
    intros Hin'. rewrite Forall_forall in Hnew. specialize (Hnew l Hin'). congruence.
  - exists av. split; [done|]. intros rid Hrid. by rewrite (Hav rid Hrid).
Qed.

Lemma setup_Some h matrix ps st0 h' :
  setup matrix h = Some ((ps, st0), h') ->
  exists v av,
    holds h matrix v /\
    preserved h h' /\
    ps = v_processes v /\
    st0 = initialState (process_id <$> ps) av /\
    forall rid : string, rid ∉ resource_id <$> v_resources v -> av !! rid = None.
Proof.
  intros Hrun.
  assert (exists v, holds h matrix v) as [v Hden].
  { unfold setup in Hrun. unfold bind at 1 in Hrun.
    destruct (JSON_stringify matrix h) as [[v h0]|] eqn:Hjson; [|done].
    exists v. by apply JSON_stringify_Some in Hjson as [_ ?]. }
  destruct (wp_elim _ _ _ (wp_setup h matrix v Hden))
    as ([ps' st0'] & h'' & Hrun' & Hpres & Hps & av & Hst0 & Hav).
  rewrite Hrun in Hrun'. injection Hrun' as <- <- <-. simpl in *.
  exists v, av. subst ps. done.
Qed.

Lemma setup_of_holds h matrix v :
  holds h matrix v ->
  exists av h',
    setup matrix h
      = Some ((v_processes v, initialState (process_id <$> v_processes v) av), h') /\
    preserved h h' /\
    forall rid : string, rid ∉ resource_id <$> v_resources v -> av !! rid = None.
Proof.
  intros Hden.
  destruct (wp_elim _ _ _ (wp_setup h matrix v Hden))
    as ([ps st0] & h' & Hrun & Hpres & Hps & av & Hst0 & Hav).
  simpl in *. subst ps st0. by exists av, h'.
Qed.

Lemma detectDeadlock_unfold fuel matrix h ps st0 h' :
  setup matrix h = Some ((ps, st0), h') ->
  detectDeadlock fuel matrix h
  = Some (whileLoop fuel (process_id <$> ps) ps st0, h').
Proof. intros Hrun. unfold detectDeadlock, bind. by rewrite Hrun. Qed.

(** After [k] admitting rounds from the initial state, [k] ids have been
    admitted. *)
Lemma rounds_initial ps av k st :
  rounds (process_id <$> ps) ps k (initialState (process_id <$> ps) av) = Some st ->
  loopInv ps st /\ length (sequence st) = k.
Proof.
  intros Hk. split.
  - eapply (rounds_invariant (loopInv ps)); [|apply loopInv_initial|exact Hk].
    intros s s'. apply loopInv_scan.
  - by rewrite (rounds_sequence _ _ _ _ _ Hk).
Qed.

(** When some process has not finished, fewer ids are finished than there
    are processes: the test of line 136 succeeds. *)
Lemma unfinished_size ps st p :
  loopInv ps st -> p ∈ ps -> process_id p ∉ finished st ->
  (size (finished st) < length ps)%nat.
Proof.
  intros Hinv Hp Hfin. rewrite (loopInv_size _ _ Hinv).
  destruct Hinv as [Hf Hnd Hids _].
  assert (process_id p ∉ sequence st) as Hnot.
  { intros Hin. apply Hfin. rewrite Hf. by apply elem_of_list_to_set. }
  assert (process_id p :: sequence st ⊆+ process_id <$> ps) as Hsub.
  { apply NoDup_submseteq; [by constructor|].
    intros x [->|Hx]%elem_of_cons; [by apply list_elem_of_fmap_2|by apply Hids]. }
  apply submseteq_length in Hsub. rewrite length_fmap in Hsub. simpl in Hsub. lia.
Qed.

(** C3: when a round admits nobody while some process has not finished,
    the call returns at once, with one more step than the trace had: the
    result is the deadlock result, [deadlocked] being the ids of the
    unfinished processes in list order, [safeSequence] being null, and the
    last step listing the same ids as remaining.  One unit of fuel per round
    run so far plus one for this round is all the loop uses. *)
Theorem detectDeadlock_deadlock h matrix ps st0 h' k st fuel :
  setup matrix h = Some ((ps, st0), h') ->
  rounds (process_id <$> ps) ps k st0 = Some st ->
  scan (process_id <$> ps) ps st = None ->
  (exists p, p ∈ ps /\ process_id p ∉ finished st) ->
  (k < fuel)%nat ->
  exists last,
    detectDeadlock fuel matrix h
    = Some (Some {| deadlocked :=
                      process_id <$> filter (fun p => process_id p ∉ finished st) ps;
                    safeSequence := None;
                    steps := trace st ++ [last] |}, h') /\
    description last
      = deadlockTemplate (process_id <$> filter (fun p => process_id p ∉ finished st) ps) /\
    remainingProcesses last
      = process_id <$> filter (fun p => process_id p ∉ finished st) ps /\
    availableResources last = current st /\
    processedThisRound last = [].
Proof.
  intros Hsetup Hk Hscan (p & Hp & Hfin) Hfuel.
  destruct (setup_Some _ _ _ _ _ Hsetup) as (v & av & _ & _ & _ & -> & _).
  destruct (rounds_initial _ _ _ _ Hk) as [Hinv _].
  rewrite (detectDeadlock_unfold _ _ _ _ _ _ Hsetup).
  replace fuel with (k + S (fuel - S k))%nat by lia.
  rewrite (whileLoop_rounds _ _ _ _ _ _ Hk). simpl. rewrite Hscan.
  unfold finish. rewrite decide_True by (by eapply unfinished_size).
  eexists. split; [reflexivity|]. done.
Qed.

(** ** Termination *)

Lemma admission_count (tr : list DetectionStep) :
  length (filter (fun s => processedThisRound s <> []) tr)
  = length (filter (fun ids : list string => ids <> []) (processedThisRound <$> tr)).
Proof.
  induction tr as [|s tr IH]; [done|]. rewrite fmap_cons, !filter_cons.
  destruct (decide (processedThisRound s <> [])); simpl; by rewrite IH.
Qed.

Lemma filter_singletons {A} (f : A -> string) (l : list A) :
  filter (fun ids : list string => ids <> []) ((fun x => [f x]) <$> l)
  = (fun x => [f x]) <$> l.
Proof.
  induction l as [|x l IH]; [done|]. rewrite fmap_cons, filter_cons.
  rewrite decide_True by done. by rewrite IH.
Qed.

Lemma concat_singletons {A B} (f : A -> B) (l : list A) :
  concat ((fun x => [f x]) <$> l) = f <$> l.
Proof.
  induction l as [|x l IH]; [done|]. rewrite !fmap_cons. simpl. by f_equal.
Qed.

(** The steps of a returned result: the trace of the last state, then at
    most one closing step, which admits nobody. *)
Lemma finish_steps ps st :
  exists closing,
    steps (finish ps st) = trace st ++ closing /\
    Forall (fun s => processedThisRound s = []) closing.
Proof.
  unfold finish, deadlockResult, safeResult.
  destruct (decide (size (finished st) < length ps)%nat); simpl.
  - eexists [_]. split; [done|]. by repeat constructor.
  - destruct (decide (1 < length (trace st))%nat).
    + eexists [_]. split; [done|]. by repeat constructor.
    + exists []. split; [by rewrite app_nil_r|constructor].
Qed.

Lemma filter_none {A} (P : A -> Prop) `{forall x, Decision (P x)} (l : list A) :
  Forall (fun x => ~ P x) l -> filter P l = [].
Proof.
  induction 1 as [|x l Hx Hall IH]; [done|].
  rewrite filter_cons, decide_False by done. exact IH.
Qed.

Lemma finish_admissions ps st :
  loopInv ps st ->
  length (admissionSteps (finish ps st)) = length (sequence st).
Proof.
  intros [_ _ _ (admitted & _ & Hseq & _ & Hproc)].
  destruct (finish_steps ps st) as (closing & Hsteps & Hclosing).
  unfold admissionSteps. rewrite Hsteps, filter_app, length_app.
  rewrite (filter_none _ closing).
  2:{ eapply Forall_impl; [exact Hclosing|]. intros s -> Hs. done. }
  rewrite admission_count, Hproc, filter_cons, decide_False by (by intros ?).
  rewrite filter_singletons, length_fmap, <- Hseq, length_fmap. simpl. lia.
Qed.

(** C6: [detectDeadlock] returns on every matrix.  Its loop runs some
    number [k] of rounds that each admit one process, then one round that
    admits nobody and ends the loop; [k] is at most the number of processes,
    it is the number of admission steps recorded, and [k + 1] rounds of fuel
    (so any fuel above the number of processes) give the result. *)
Theorem detectDeadlock_terminates h matrix v :
  denotes h matrix v ->
  exists r h' k,
    (k <= length (v_processes v))%nat /\
    length (admissionSteps r) = k /\
    (forall fuel, (k < fuel)%nat -> detectDeadlock fuel matrix h = Some (Some r, h')) /\
    (forall fuel, (length (v_processes v) < fuel)%nat ->
       detectDeadlock fuel matrix h = Some (Some r, h')).
Proof.
  intros [Hden Hdbl].
  destruct (setup_of_holds _ _ _ Hden) as (av & h' & Hsetup & _ & _).
  set (ps := v_processes v) in *.
  set (st0 := initialState (process_id <$> ps) av) in *.
  destruct (whileLoop_run ps (S (length ps)) st0) as (k & stf & Hk & Hscan & _).
  { apply loopInv_initial. }
  { simpl. lia. }
  destruct (rounds_initial _ _ _ _ Hk) as [Hinv Hlen].
  pose proof (loopInv_bound _ _ Hinv) as Hbound.
  assert (forall fuel, (k < fuel)%nat ->
            detectDeadlock fuel matrix h = Some (Some (finish ps stf), h')) as Hrun.
  { intros fuel Hfuel. rewrite (detectDeadlock_unfold _ _ _ _ _ _ Hsetup).
    replace fuel with (k + S (fuel - S k))%nat by lia.
    rewrite (whileLoop_rounds _ _ _ _ _ _ Hk). simpl. by rewrite Hscan. }
  exists (finish ps stf), h', k. split; [lia|]. split.
  - by rewrite finish_admissions.
  - split; [done|]. intros fuel Hfuel. apply Hrun. lia.
Qed.

(** What a run with enough fuel returns: the result built from the state
    [stf] in which a round admitted nobody, reached after [k] rounds. *)
Lemma detectDeadlock_result h matrix v fuel :
  holds h matrix v ->
  (length (v_processes v) < fuel)%nat ->
  exists av h' k stf,
    setup matrix h
      = Some ((v_processes v, initialState (process_id <$> v_processes v) av), h') /\
    preserved h h' /\
    (forall rid : string, rid ∉ resource_id <$> v_resources v -> av !! rid = None) /\
    rounds (process_id <$> v_processes v) (v_processes v) k
      (initialState (process_id <$> v_processes v) av) = Some stf /\
    loopInv (v_processes v) stf /\
    scan (process_id <$> v_processes v) (v_processes v) stf = None /\
    detectDeadlock fuel matrix h = Some (Some (finish (v_processes v) stf), h').
Proof.
  intros Hden Hfuel.
  destruct (setup_of_holds _ _ _ Hden) as (av & h' & Hsetup & Hpres & Hav).
  destruct (whileLoop_run (v_processes v) fuel
              (initialState (process_id <$> v_processes v) av))
    as (k & stf & Hk & Hscan & Hrun).
  { apply loopInv_initial. }
  { simpl. lia. }
  exists av, h', k, stf.
  split; [done|]. split; [done|]. split; [done|]. split; [done|].
  split; [by apply (rounds_initial _ _ _ _ Hk)|]. split; [done|].
  by rewrite (detectDeadlock_unfold _ _ _ _ _ _ Hsetup), Hrun.
Qed.

(** ** Step descriptions *)

Lemma string_app_assoc (s1 s2 s3 : string) :
  (s1 +:+ s2) +:+ s3 = s1 +:+ (s2 +:+ s3).
Proof.
  induction s1 as [|a s1 IH]; [done|].
  change (String a ((s1 +:+ s2) +:+ s3) = String a (s1 +:+ (s2 +:+ s3))).
  by rewrite IH.
Qed.

Lemma existsb_positive (m : gmap string Z) :
  existsb (fun val => val >? 0) (map_to_list m).*2 = true <-> map_Exists (fun _ q => 0 < q) m.
Proof.
  rewrite map_Exists_to_list, existsb_exists, Exists_exists. split.
  - intros (q & Hq & Hpos). apply list_elem_of_In, list_elem_of_fmap in Hq as ([k q'] & -> & Hq).
    exists (k, q'). split; [done|]. simpl in *. lia.
  - intros ([k q] & Hq & Hpos). exists q. split; [|simpl in *; lia].
    apply list_elem_of_In, list_elem_of_fmap. by exists (k, q).
Qed.

(** Lines 117-121 build the description the specification gives. *)
Lemma admissionDescription_template p : admissionDescription p = admissionTemplate p.
Proof.
  unfold admissionDescription, admissionTemplate, requestsSomething.
  destruct (existsb _ _) eqn:Hex.
  - apply existsb_positive in Hex. rewrite decide_True by done.
    by rewrite !string_app_assoc.
  - rewrite decide_False.
    + by rewrite !string_app_assoc.
    + intros Hex'%existsb_positive. congruence.
Qed.

(** C7: the descriptions of the steps follow the templates, in this order:
    "Initial available resources"; for each admitted process, in admission
    order, the admission sentence for its id, with " Its resource requests
    can be satisfied." exactly when its request map has an entry with a
    positive amount; then the deadlock sentence with the deadlocked ids
    joined by ", " when the run deadlocks, or the success sentence with the
    safe sequence joined by " → " when it is safe and some process was
    admitted.  The second list pairs each description with the process its
    step records as admitted. *)
Theorem detectDeadlock_descriptions h matrix v fuel :
  denotes h matrix v ->
  (length (v_processes v) < fuel)%nat ->
  exists r h' admitted closing,
    detectDeadlock fuel matrix h = Some (Some r, h') /\
    Forall (fun p => p ∈ v_processes v) admitted /\
    closing = match safeSequence r, admitted with
              | None, _ => [deadlockTemplate (deadlocked r)]
              | Some _, [] => []
              | Some s, _ :: _ => [successTemplate s]
              end /\
    description <$> steps r
    = "Initial available resources" :: (admissionTemplate <$> admitted) ++ closing /\
    processedThisRound <$> steps r
    = [] :: ((fun p => [process_id p]) <$> admitted) ++ ((fun _ => []) <$> closing).
Proof.
  intros [Hden Hdbl] Hfuel.
  destruct (detectDeadlock_result _ _ _ _ Hden Hfuel)
    as (av & h' & k & stf & _ & _ & _ & _ & Hinv & _ & Hrun).
  destruct Hinv as [_ _ _ (admitted & Hin & Hseq & Hdesc & Hproc)].
  assert (admissionDescription <$> admitted = admissionTemplate <$> admitted) as Htpl.
  { apply list_fmap_ext. intros _ p _. apply admissionDescription_template. }
  rewrite Htpl in Hdesc.
  exists (finish (v_processes v) stf), h', admitted. eexists.
  split; [done|]. split; [done|]. split; [reflexivity|].
  assert (length (trace stf) = S (length admitted)) as Hlen.
  { rewrite <- (length_fmap description), Hdesc. simpl. by rewrite length_fmap. }
  unfold finish, deadlockResult, safeResult.
  destruct (decide (size (finished stf) < length (v_processes v))%nat); simpl.
  - by rewrite !fmap_app, Hproc, Hdesc.
  - destruct (decide (1 < length (trace stf))%nat) as [Hmany|Hone].
    + rewrite !fmap_app, Hproc, Hdesc.
      destruct admitted; [simpl in *; lia|]. done.
    + rewrite Hproc, Hdesc.
      destruct admitted; [by rewrite !app_nil_r|simpl in *; lia].
Qed.

(** ** Coverage of the process ids *)

Lemma finish_admittedIds ps st :
  loopInv ps st -> admittedIds (finish ps st) = sequence st.
Proof.
  intros [_ _ _ (admitted & _ & Hseq & _ & Hproc)].
  destruct (finish_steps ps st) as (closing & Hsteps & Hclosing).
  unfold admittedIds. rewrite Hsteps, fmap_app, concat_app, Hproc, <- Hseq.
  rewrite concat_cons, concat_singletons. simpl.
  assert (concat (processedThisRound <$> closing) = []) as ->.
  { clear Hsteps. induction Hclosing as [|s l Hs _ IH]; [done|].
    rewrite fmap_cons, concat_cons, Hs, IH. done. }
  by rewrite app_nil_r.
Qed.

Lemma unfinished_NoDup (ps : list Process) (X : gset string) :
  NoDup (process_id <$> ps) ->
  NoDup (process_id <$> filter (fun p => process_id p ∉ X) ps).
Proof.
  intros Hnd. eapply sublist_NoDup; [exact Hnd|].
  apply fmap_sublist, sublist_filter.
Qed.

Lemma elem_of_unfinished (ps : list Process) (X : gset string) x :
  x ∈ process_id <$> filter (fun p => process_id p ∉ X) ps
  <-> x ∈ process_id <$> ps /\ x ∉ X.
Proof.
  rewrite !list_elem_of_fmap. split.
  - intros (p & -> & [Hp Hin]%list_elem_of_filter). split; [by exists p|done].
  - intros [(p & -> & Hin) Hx]. exists p. split; [done|]. by apply list_elem_of_filter.
Qed.

(** C2, amended: for every matrix with unique process ids, every process id
    of the input is, exactly once, either among the ids the steps record as
    admitted or in [deadlocked], never in both.  When the run is safe,
    [safeSequence] is the list of admitted ids and [deadlocked] is empty;
    when the run deadlocks, [safeSequence] is null and [deadlocked] is not
    empty, so an id admitted before the deadlock is in neither of the two
    sequences of the result. *)
Theorem detectDeadlock_coverage h matrix v fuel :
  denotes h matrix v ->
  NoDup (process_id <$> v_processes v) ->
  (length (v_processes v) < fuel)%nat ->
  exists r h',
    detectDeadlock fuel matrix h = Some (Some r, h') /\
    NoDup (admittedIds r ++ deadlocked r) /\
    (forall x, x ∈ process_id <$> v_processes v
               <-> x ∈ admittedIds r \/ x ∈ deadlocked r) /\
    ((safeSequence r = Some (admittedIds r) /\ deadlocked r = []) \/
     (safeSequence r = None /\ deadlocked r <> [])).
Proof.
  intros [Hden Hdbl] Hnd Hfuel.
  destruct (detectDeadlock_result _ _ _ _ Hden Hfuel)
    as (av & h' & k & stf & _ & _ & _ & _ & Hinv & _ & Hrun).
  set (ps := v_processes v) in *.
  exists (finish ps stf), h'. split; [done|].
  rewrite (finish_admittedIds _ _ Hinv).
  pose proof (loopInv_size _ _ Hinv) as Hsize.
  destruct Hinv as [Hfin Hseqnd Hids _].
  assert (forall x, x ∈ sequence stf <-> x ∈ finished stf) as Hmem.
  { intros x. rewrite Hfin. by rewrite elem_of_list_to_set. }
  unfold finish. destruct (decide (size (finished stf) < length ps)%nat) as [Hlt|Hge]; simpl.
  - split; [|split].
    + apply NoDup_app. split; [done|]. split; [|by apply unfinished_NoDup].
      intros x Hx [_ Hnot]%elem_of_unfinished. by apply Hnot, Hmem.
    + intros x. rewrite elem_of_unfinished, <- Hmem. split.
      * intros Hx. destruct (decide (x ∈ sequence stf)); [by left|by right].
      * intros [Hx|[Hx _]]; [by apply Hids|done].
    + right. split; [done|]. intros Hnil.
      assert (process_id <$> ps ⊆+ sequence stf) as Hsub.
      { apply NoDup_submseteq; [done|]. intros x Hx.
        destruct (decide (x ∈ sequence stf)) as [|Hnot]; [done|]. exfalso.
        assert (x ∈ process_id <$> filter (fun p => process_id p ∉ finished stf) ps) as Hx'.
        { apply elem_of_unfinished. split; [done|]. by rewrite <- Hmem. }
        rewrite Hnil in Hx'. by apply elem_of_nil in Hx'. }
      apply submseteq_length in Hsub. rewrite length_fmap in Hsub. lia.
  - split; [|split].
    + by rewrite app_nil_r.
    + assert (sequence stf ≡ₚ process_id <$> ps) as Hperm.
      { apply submseteq_length_Permutation.
        - by apply NoDup_submseteq.
        - rewrite length_fmap. lia. }
      intros x. rewrite Hperm. split; [by left|].
      intros [Hx|Hx]; [done|by apply elem_of_nil in Hx].
    + by left.
Qed.

(** ** A request for a resource nobody has *)

Lemma same_id_same_process (ps : list Process) p q :
  NoDup (process_id <$> ps) -> p ∈ ps -> q ∈ ps ->
  process_id p = process_id q -> p = q.
Proof.
  induction ps as [|x ps IH]; intros Hnd Hp Hq Heq.
  - by apply elem_of_nil in Hp.
  - rewrite fmap_cons in Hnd. apply NoDup_cons in Hnd as [Hx Hnd].
    apply elem_of_cons in Hp as [->|Hp]; apply elem_of_cons in Hq as [->|Hq];
      try done.
    + exfalso. apply Hx. rewrite Heq. by apply list_elem_of_fmap_2.
    + exfalso. apply Hx. rewrite <- Heq. by apply list_elem_of_fmap_2.
    + by apply IH.
Qed.

(** A positive request for an id with no available entry cannot be
    satisfied: it is compared with 0. *)
Lemma canFinish_unknown P av rid q :
  request P !! rid = Some q -> 0 < q -> av !! rid = None -> rid ∉ inheritedNames ->
  canFinish P av = false.
Proof.
  intros Hreq Hq Hav Hrid. destruct (canFinish P av) eqn:Hcan; [|done].
  rewrite canFinish_true in Hcan. specialize (Hcan rid q Hreq Hq).
  unfold readOr0 in Hcan. rewrite Hav, decide_False in Hcan by done.
  simpl in Hcan. lia.
Qed.

(** Lines 110-112 leave alone the ids that are no key of the allocation
    map. *)
Lemma release_other p av rid :
  allocation p !! rid = None -> release p av !! rid = av !! rid.
Proof.
  intros Hnone. unfold release.
  assert (Forall (fun e : string * Z => e.1 <> rid) (map_to_list (allocation p))) as Hall.
  { apply Forall_forall. intros [k a] Hin%elem_of_map_to_list Heq. simpl in Heq.
    subst k. congruence. }
  revert av. induction Hall as [|e l He _ IH]; intros av; simpl; [done|].
  rewrite IH. unfold assign. destruct (decide (e.1 = "__proto__")); [done|].
  by rewrite lookup_insert_ne.
Qed.

(** C10, amended: for every matrix with unique process ids in which a
    process P requests a strictly positive amount of a resource id that is
    neither the id of a resource of the matrix, nor a key of any allocation
    map, nor a name that every object inherits ([inheritedNames]), no step
    of the run has an available amount for that id (the request is compared
    with 0 in every round), P is never admitted, and the run deadlocks with
    P's id in [deadlocked] and [safeSequence] null. *)
Theorem detectDeadlock_unknown_request h matrix v fuel P rid q :
  denotes h matrix v ->
  NoDup (process_id <$> v_processes v) ->
  (length (v_processes v) < fuel)%nat ->
  P ∈ v_processes v ->
  request P !! rid = Some q ->
  0 < q ->
  rid ∉ resource_id <$> v_resources v ->
  (forall Q, Q ∈ v_processes v -> allocation Q !! rid = None) ->
  rid ∉ inheritedNames ->
  exists r h',
    detectDeadlock fuel matrix h = Some (Some r, h') /\
    Forall (fun s => availableResources s !! rid = None) (steps r) /\
    (process_id P ∉ admittedIds r) /\
    process_id P ∈ deadlocked r /\
    safeSequence r = None.
Proof.
  intros [Hden Hdbl] Hnd Hfuel HP Hreq Hq Hrid Halloc Hplain.
  destruct (detectDeadlock_result _ _ _ _ Hden Hfuel)
    as (av & h' & k & stf & _ & _ & Hav & Hk & Hinv & _ & Hrun).
  set (ps := v_processes v) in *.
  set (J := fun st : LoopState =>
    current st !! rid = None /\
    Forall (fun s => availableResources s !! rid = None) (trace st) /\
    process_id P ∉ finished st).
  assert (J stf) as (Hcur & Htrace & Hfin).
  { eapply (rounds_invariant J); [|clear Hk|exact Hk].
    - intros s s' (Hc & Ht & Hf) (Q & HQ & _ & Hcan & ->)%scan_Some.
      assert (release Q (current s) !! rid = None) as Hrel.
      { by rewrite release_other by by apply Halloc. }
      split; [done|]. split; simpl.
      + apply Forall_app. split; [done|]. by repeat constructor.
      + intros [Hin|Hin%elem_of_singleton]%elem_of_union; [done|].
        assert (P = Q) as -> by (by apply (same_id_same_process ps)).
        rewrite (canFinish_unknown Q (current s) rid q) in Hcan; done.
    - split; [by apply Hav|]. split; simpl.
      + repeat constructor. simpl. by apply Hav.
      + apply not_elem_of_empty. }
  exists (finish ps stf), h'. split; [done|].
  rewrite (finish_admittedIds _ _ Hinv).
  pose proof (unfinished_size _ _ _ Hinv HP Hfin) as Hsize.
  destruct Hinv as [Hf _ _ _].
  unfold finish. rewrite decide_True by done. simpl.
  split; [|split; [|split; [|done]]].
  - apply Forall_app. split; [done|]. by repeat constructor.
  - intros Hin. apply Hfin. rewrite Hf. by apply elem_of_list_to_set.
  - apply elem_of_unfinished. split; [by apply list_elem_of_fmap_2|done].
Qed.

(** ** The resource-flow graph *)

Lemma elem_of_positiveEntries (m : gmap string Z) rid a :
  (rid, a) ∈ positiveEntries m <-> m !! rid = Some a /\ 0 < a.
Proof.
  unfold positiveEntries. rewrite list_elem_of_filter, elem_of_map_to_list.
  simpl. split; intros [? ?]; split; first [done|lia].
Qed.

Lemma length_positiveEntries (m : gmap string Z) :
  length (positiveEntries m) = positiveCount m.
Proof.
  unfold positiveCount. rewrite <- length_map_to_list. apply Permutation_length.
  apply NoDup_Permutation.
  - apply NoDup_filter, NoDup_map_to_list.
  - apply NoDup_map_to_list.
  - intros [rid a]. rewrite elem_of_positiveEntries, elem_of_map_to_list.
    by rewrite map_lookup_filter_Some.
Qed.

Lemma elem_of_flat_map {A B} (f : A -> list B) (l : list A) y :
  y ∈ flat_map f l <-> exists x, x ∈ l /\ y ∈ f x.
Proof.
  rewrite list_elem_of_In, in_flat_map. split; intros (x & Hx & Hy); exists x.
  - by rewrite !list_elem_of_In.
  - by rewrite <- !list_elem_of_In.
Qed.

Lemma length_flat_map_with {A B} (f : A -> list B) (l : list A) :
  length (flat_map f l) = sum_list_with (fun x => length (f x)) l.
Proof.
  induction l as [|x l IH]; [done|]. simpl. by rewrite length_app, IH.
Qed.

Lemma sum_list_with_plus {A} (f g : A -> nat) (l : list A) :
  (sum_list_with f l + sum_list_with g l)%nat = sum_list_with (fun x => (f x + g x)%nat) l.
Proof. induction l as [|x l IH]; [done|]. simpl. lia. Qed.

Lemma sum_list_with_eq {A} (f g : A -> nat) (l : list A) :
  (forall x, f x = g x) -> sum_list_with f l = sum_list_with g l.
Proof. intros Heq. induction l as [|x l IH]; [done|]. simpl. by rewrite Heq, IH. Qed.

Lemma wp_generateResourceFlowGraph h matrix v :
  holds h matrix v ->
  generateResourceFlowGraph matrix h
  = Some (buildGraph (v_processes v) (v_resources v), h).
Proof.
  intros [Hps Hrs].
  assert (wp (generateResourceFlowGraph matrix)
            (fun g h' => g = buildGraph (v_processes v) (v_resources v) /\ h' = h) h) as Hwp.
  { unfold generateResourceFlowGraph.
    apply wp_bind, (wp_mapM_read _ ProcessObj _ _ _ _ readProcess_holds Hps).
    apply wp_bind, (wp_mapM_read _ ResourceObj _ _ _ _ readResource_holds Hrs).
    by apply wp_ret. }
  by destruct (wp_elim _ _ _ Hwp) as (g & h' & -> & -> & ->).
Qed.

(** C9, amended: the graph has one node per process and one per resource,
    in that order, with the entity's id as node id; its edges are exactly
    one allocation edge from resource id to process id per allocation entry
    with a strictly positive amount and one request edge from process id to
    resource id per request entry with a strictly positive amount, so
    their number is the sum over the processes of the two counts; and the id
    of each edge is its source id, a hyphen, and its target id. *)
Theorem generateResourceFlowGraph_shape h matrix v :
  denotes h matrix v ->
  exists g,
    generateResourceFlowGraph matrix h = Some (g, h) /\
    node_id <$> nodes g = (process_id <$> v_processes v) ++ (resource_id <$> v_resources v) /\
    length (nodes g) = (length (v_processes v) + length (v_resources v))%nat /\
    (forall e, e ∈ edges g <->
       (exists p rid a, p ∈ v_processes v /\ allocation p !! rid = Some a /\ 0 < a /\
          e = {| edge_id := rid +:+ "-" +:+ process_id p; source := rid;
                 target := process_id p; edge_type := "allocation"; amount := a |}) \/
       (exists p rid a, p ∈ v_processes v /\ request p !! rid = Some a /\ 0 < a /\
          e = {| edge_id := process_id p +:+ "-" +:+ rid; source := process_id p;
                 target := rid; edge_type := "request"; amount := a |})) /\
    length (edges g)
      = sum_list_with (fun p => (positiveCount (allocation p) + positiveCount (request p))%nat)
          (v_processes v) /\
    Forall (fun e => edge_id e = source e +:+ "-" +:+ target e) (edges g).
Proof.
  intros [Hden Hdbl]. exists (buildGraph (v_processes v) (v_resources v)).
  split; [by apply wp_generateResourceFlowGraph|].
  set (ps := v_processes v). set (rs := v_resources v).
  assert (forall e, e ∈ edges (buildGraph ps rs) <->
       (exists p rid a, p ∈ ps /\ allocation p !! rid = Some a /\ 0 < a /\
          e = allocationEdge p (rid, a)) \/
       (exists p rid a, p ∈ ps /\ request p !! rid = Some a /\ 0 < a /\
          e = requestEdge p (rid, a))) as Hedges.
  { intros e. simpl. rewrite elem_of_app, !elem_of_flat_map. split.
    - intros [(p & Hp & He)|(p & Hp & He)];
        apply list_elem_of_fmap in He as ([rid a] & -> & He);
        apply elem_of_positiveEntries in He as [Hm Ha];
        [left|right]; by exists p, rid, a.
    - intros [(p & rid & a & Hp & Hm & Ha & ->)|(p & rid & a & Hp & Hm & Ha & ->)];
        [left|right]; exists p; (split; [done|]);
        apply list_elem_of_fmap_2; by apply elem_of_positiveEntries. }
  split; [|split; [|split; [exact Hedges|split]]].
  - simpl. rewrite fmap_app, <- !list_fmap_compose. done.
  - simpl. by rewrite length_app, !length_fmap.
  - simpl. rewrite length_app, !length_flat_map_with, sum_list_with_plus.
    apply sum_list_with_eq. intros p.
    by rewrite !length_fmap, !length_positiveEntries.
  - apply Forall_forall. intros e [He|He]%Hedges;
      by destruct He as (p & rid & a & _ & _ & _ & ->).
Qed.

(** ** The caller's matrix after a call *)

(** C8: after a call of [detectDeadlock] (whatever the fuel) or of
    [generateResourceFlowGraph], every object the caller had holds the
    values it held before the call, so the matrix denotes the same process
    and resource data, [available] fields included. *)
Theorem calls_leave_matrix_unchanged h matrix v fuel :
  denotes h matrix v ->
  exists out h' g,
    detectDeadlock fuel matrix h = Some (out, h') /\
    preserved h h' /\
    denotes h' matrix v /\
    generateResourceFlowGraph matrix h = Some (g, h).
Proof.
  intros [Hden Hdbl].
  destruct (setup_of_holds _ _ _ Hden) as (av & h' & Hsetup & Hpres & _).
  eexists _, h', _.
  split; [by apply (detectDeadlock_unfold _ _ _ _ _ _ Hsetup)|].
  split; [done|]. split; [|by apply wp_generateResourceFlowGraph].
  split; [|done]. destruct Hden as [Hps Hrs]. split.
  - eapply Forall2_impl; [exact Hps|]. intros l p. apply Hpres.
  - eapply Forall2_impl; [exact Hrs|]. intros l r. apply Hpres.
Qed.

(** ** The theorems at the example matrices *)

(** C3 at scenario A: the first round admits nobody. *)
Lemma detectDeadlock_deadlock_scenarioA :
  exists h' st last,
    detectDeadlock 1 scenarioA scenarioA_store
    = Some (Some {| deadlocked :=
                      process_id <$> filter (fun p => process_id p ∉ finished st) [P1; P2];
                    safeSequence := None;
                    steps := trace st ++ [last] |}, h') /\
    description last
      = deadlockTemplate
          (process_id <$> filter (fun p => process_id p ∉ finished st) [P1; P2]) /\
    remainingProcesses last
      = process_id <$> filter (fun p => process_id p ∉ finished st) [P1; P2] /\
    availableResources last = current st /\
    processedThisRound last = [].
Proof.
  eexists _, _.
  eapply (detectDeadlock_deadlock scenarioA_store scenarioA [P1; P2] _ _ 0%nat _ 1%nat).
  - vm_compute. reflexivity.
  - reflexivity.
  - vm_compute. reflexivity.
  - exists P1. split; [by left|]. vm_compute. set_solver.
  - lia.
Defined.

(** C6 at scenario B. *)
Lemma detectDeadlock_terminates_scenarioB :
  exists r h' k,
    (k <= length (v_processes scenarioB_value))%nat /\
    length (admissionSteps r) = k /\
    (forall fuel, (k < fuel)%nat ->
       detectDeadlock fuel scenarioB scenarioB_store = Some (Some r, h')) /\
    (forall fuel, (length (v_processes scenarioB_value) < fuel)%nat ->
       detectDeadlock fuel scenarioB scenarioB_store = Some (Some r, h')).
Proof.
  apply (detectDeadlock_terminates scenarioB_store scenarioB scenarioB_value).
  denotes_example.
Defined.

(** C7 at scenario B. *)
Lemma detectDeadlock_descriptions_scenarioB :
  exists r h' admitted closing,
    detectDeadlock 4 scenarioB scenarioB_store = Some (Some r, h') /\
    Forall (fun p => p ∈ v_processes scenarioB_value) admitted /\
    closing = match safeSequence r, admitted with
              | None, _ => [deadlockTemplate (deadlocked r)]
              | Some _, [] => []
              | Some s, _ :: _ => [successTemplate s]
              end /\
    description <$> steps r
    = "Initial available resources" :: (admissionTemplate <$> admitted) ++ closing /\
    processedThisRound <$> steps r
    = [] :: ((fun p => [process_id p]) <$> admitted) ++ ((fun _ => []) <$> closing).
Proof.
  apply (detectDeadlock_descriptions scenarioB_store scenarioB scenarioB_value 4).
  - denotes_example.
  - simpl. lia.
Defined.

(** C2, amended, at scenario B. *)
Lemma detectDeadlock_coverage_scenarioB :
  exists r h',
    detectDeadlock 4 scenarioB scenarioB_store = Some (Some r, h') /\
    NoDup (admittedIds r ++ deadlocked r) /\
    (forall x, x ∈ process_id <$> v_processes scenarioB_value
               <-> x ∈ admittedIds r \/ x ∈ deadlocked r) /\
    ((safeSequence r = Some (admittedIds r) /\ deadlocked r = []) \/
     (safeSequence r = None /\ deadlocked r <> [])).
Proof.
  apply (detectDeadlock_coverage scenarioB_store scenarioB scenarioB_value 4).
  - denotes_example.
  - by apply (bool_decide_unpack _).
  - simpl. lia.
Defined.

(** C2 as stated fails when a process is admitted before the others
    deadlock: [P0] is admitted in the first round, then [P1] and [P2] block
    each other; the result has [safeSequence] null and [P0] is not in
    [deadlocked], so [P0] is in neither sequence. *)
Lemma detectDeadlock_bystander :
  exists r h',
    denotes bystander_store bystander bystander_value /\
    NoDup (process_id <$> v_processes bystander_value) /\
    detectDeadlock 4 bystander bystander_store = Some (Some r, h') /\
    "P0" ∈ process_id <$> v_processes bystander_value /\
    safeSequence r = None /\
    deadlocked r = ["P1"; "P2"] /\
    "P0" ∉ deadlocked r.
Proof.
  eexists _, _.
  split; [denotes_example|].
  split; [by apply (bool_decide_unpack _)|].
  split; [vm_compute; reflexivity|].
  split; [set_solver|]. split; [reflexivity|]. split; [reflexivity|].
  by apply (bool_decide_unpack _).
Qed.

(** C10, amended, at a matrix whose first process requests a resource
    nobody has. *)
Lemma detectDeadlock_unknown_request_stranger :
  exists r h',
    detectDeadlock 3 stranger stranger_store = Some (Some r, h') /\
    Forall (fun s => availableResources s !! "X" = None) (steps r) /\
    (process_id waiting ∉ admittedIds r) /\
    process_id waiting ∈ deadlocked r /\
    safeSequence r = None.
Proof.
  apply (detectDeadlock_unknown_request stranger_store stranger stranger_value 3
           waiting "X" 1).
  - denotes_example.
  - by apply (bool_decide_unpack _).
  - simpl. lia.
  - by left.
  - reflexivity.
  - lia.
  - simpl. apply not_elem_of_nil.
  - intros Q [->|[->|HQ%elem_of_nil]%elem_of_cons]%elem_of_cons; done.
  - by_evaluation.
Defined.

(** C10 as stated fails when two processes share an id: the second [P1]
    requests nothing and is admitted, so the id is finished and is not in
    [deadlocked], although the first [P1] requests the resource [X] that
    nobody has. *)
Lemma detectDeadlock_twin_ids :
  exists r h',
    denotes twinProcesses_store twinProcesses twinProcesses_value /\
    detectDeadlock 3 twinProcesses twinProcesses_store = Some (Some r, h') /\
    waiting ∈ v_processes twinProcesses_value /\
    request waiting !! "X" = Some 1 /\
    ("X" ∉ resource_id <$> v_resources twinProcesses_value) /\
    Forall (fun Q => allocation Q !! "X" = None) (v_processes twinProcesses_value) /\
    ("X" ∉ inheritedNames) /\
    deadlocked r = [] /\
    process_id waiting ∉ deadlocked r.
Proof.
  eexists _, _.
  split; [denotes_example|].
  split; [vm_compute; reflexivity|].
  split; [by left|]. split; [reflexivity|].
  split; [apply not_elem_of_nil|].
  split; [by repeat constructor|].
  split; [by_evaluation|].
  split; [reflexivity|]. apply not_elem_of_nil.
Qed.

(** C8 at scenario B. *)
Lemma calls_leave_matrix_unchanged_scenarioB :
  exists out h' g,
    detectDeadlock 4 scenarioB scenarioB_store = Some (out, h') /\
    preserved scenarioB_store h' /\
    denotes h' scenarioB scenarioB_value /\
    generateResourceFlowGraph scenarioB scenarioB_store = Some (g, scenarioB_store).
Proof.
  apply (calls_leave_matrix_unchanged scenarioB_store scenarioB scenarioB_value 4).
  denotes_example.
Defined.

(** C9, amended, at scenario B. *)
Lemma generateResourceFlowGraph_shape_scenarioB :
  exists g,
    generateResourceFlowGraph scenarioB scenarioB_store = Some (g, scenarioB_store) /\
    node_id <$> nodes g
      = (process_id <$> v_processes scenarioB_value)
        ++ (resource_id <$> v_resources scenarioB_value) /\
    length (nodes g)
      = (length (v_processes scenarioB_value) + length (v_resources scenarioB_value))%nat /\
    (forall e, e ∈ edges g <->
       (exists p rid a, p ∈ v_processes scenarioB_value /\
          allocation p !! rid = Some a /\ 0 < a /\
          e = {| edge_id := rid +:+ "-" +:+ process_id p; source := rid;
                 target := process_id p; edge_type := "allocation"; amount := a |}) \/
       (exists p rid a, p ∈ v_processes scenarioB_value /\
          request p !! rid = Some a /\ 0 < a /\
          e = {| edge_id := process_id p +:+ "-" +:+ rid; source := process_id p;
                 target := rid; edge_type := "request"; amount := a |})) /\
    length (edges g)
      = sum_list_with (fun p => (positiveCount (allocation p) + positiveCount (request p))%nat)
          (v_processes scenarioB_value) /\
    Forall (fun e => edge_id e = source e +:+ "-" +:+ target e) (edges g).
Proof.
  apply (generateResourceFlowGraph_shape scenarioB_store scenarioB scenarioB_value).
  denotes_example.
Defined.

(** C9 as stated fails on the edge ids: the allocation edge from [R1] to
    [P1] of scenario B has the id "R1-P1", with a hyphen, while the
    concatenation of its source and target ids is "R1P1". *)
Lemma generateResourceFlowGraph_edge_id :
  exists g e,
    generateResourceFlowGraph scenarioB scenarioB_store = Some (g, scenarioB_store) /\
    e ∈ edges g /\
    source e = "R1" /\
    target e = "P1" /\
    edge_id e = "R1-P1" /\
    source e +:+ target e = "R1P1" /\
    edge_id e <> source e +:+ target e.
Proof.
  eexists _, (mkEdge "R1-P1" "R1" "P1" "allocation" 1).
  split; [vm_compute; reflexivity|].
  split; [by left|]. by repeat split.
Qed.

(** ** The scenarios of the specification *)

(** Scenario A: nothing is available, neither request can be satisfied. *)
Example scenarioA_deadlocks :
  exists h',
    detectDeadlock 3 scenarioA scenarioA_store
    = Some (Some
        {| deadlocked := ["P1"; "P2"];
           safeSequence := None;
           steps :=
             [ mkStep "Initial available resources" ["P1"; "P2"]
                 (Num <$> entries [("R1", 0); ("R2", 0)]) [];
               mkStep (deadlockTemplate ["P1"; "P2"]) ["P1"; "P2"]
                 (Num <$> entries [("R1", 0); ("R2", 0)]) [] ] |}, h').
Proof. eexists. vm_compute. reflexivity. Qed.

(** Scenario B: [P3] is admitted first, its instance of [R2] lets [P1]
    finish, and [R1] released by [P1] lets [P2] finish. *)
Example scenarioB_safe :
  exists h',
    detectDeadlock 4 scenarioB scenarioB_store
    = Some (Some
        {| deadlocked := [];
           safeSequence := Some ["P3"; "P1"; "P2"];
           steps :=
             [ mkStep "Initial available resources" ["P1"; "P2"; "P3"]
                 (Num <$> entries [("R1", 0); ("R2", 0)]) [];
               mkStep (admissionTemplate P3) ["P1"; "P2"]
                 (Num <$> entries [("R1", 0); ("R2", 1)]) ["P3"];
               mkStep (admissionTemplate P1) ["P2"]
                 (Num <$> entries [("R1", 1); ("R2", 1)]) ["P1"];
               mkStep (admissionTemplate P2) []
                 (Num <$> entries [("R1", 1); ("R2", 2)]) ["P2"];
               mkStep (successTemplate ["P3"; "P1"; "P2"]) []
                 (Num <$> entries [("R1", 1); ("R2", 2)]) [] ] |}, h').
Proof. eexists. vm_compute. reflexivity. Qed.

(** With less fuel than rounds, the model of the loop stops short. *)
Example scenarioB_short_of_fuel :
  exists h', detectDeadlock 3 scenarioB scenarioB_store = Some (None, h').
Proof. eexists. vm_compute. reflexivity. Qed.

(* ================================================================== *)
(** * Further properties of the code *)

(** ** [detectDeadlock] as a function of the matrix data *)

Lemma wp_mapM_new_distinct {V} (inj : V -> object) (vs : list V)
    (Q : list loc -> heap -> Prop) h :
  (forall ls h',
     Forall2 (fun l v => h' !! l = Some (inj v)) ls vs ->
     Forall (fun l => h !! l = None) ls ->
     NoDup ls ->
     preserved h h' -> Q ls h') ->
  wp (mapM (fun v => newObject (inj v)) vs) Q h.
Proof.
  revert h Q. induction vs as [|v vs IH]; intros h Q HQ; simpl.
  - apply wp_ret. apply HQ; [constructor|constructor|constructor|apply preserved_refl].
  - apply wp_bind, wp_newObject. intros l Hl.
    apply wp_bind, IH. intros ls h' Hall Hnew Hnd Hpres.
    assert (Forall (fun l' => l' <> l /\ h !! l' = None) ls) as Hls.
    { eapply Forall_impl; [exact Hnew|]. intros l' Hl'. simpl in Hl'.
      destruct (decide (l = l')) as [->|Hne]; [by rewrite lookup_insert_eq in Hl'|].
      rewrite lookup_insert_ne in Hl' by done. by split; [intros ->|]. }
    apply wp_ret, HQ.
    + constructor; [|done]. apply Hpres, lookup_insert_eq.
    + constructor; [done|]. eapply Forall_impl; [exact Hls|]. by intros l' [_ ?].
    + constructor; [|done]. intros Hin. rewrite Forall_forall in Hls.
      by destruct (Hls l Hin).
    + eapply preserved_trans; [|exact Hpres]. by apply preserved_insert.
Qed.

Lemma wp_JSON_parse_distinct v (Q : AllocationMatrix -> heap -> Prop) h :
  (forall m h',
     holds h' m v ->
     Forall (fun l => h !! l = None) (resources m) ->
     NoDup (resources m) ->
     preserved h h' -> Q m h') ->
  wp (JSON_parse v) Q h.
Proof.
  intros HQ. unfold JSON_parse.
  apply wp_bind, (wp_mapM_new ProcessObj). intros ps h1 Hps _ Hpres1.
  apply wp_bind, (wp_mapM_new_distinct ResourceObj). intros rs h2 Hrs Hnew Hnd Hpres2.
  apply wp_ret, HQ.
  - split; simpl; [|done].
    eapply Forall2_impl; [exact Hps|]. intros l p Hl. by apply Hpres2.
  - simpl. eapply Forall_impl; [exact Hnew|]. intros l Hl. simpl in Hl.
    destruct (h !! l) as [o|] eqn:Ho; [|done].
    apply Hpres1 in Ho. congruence.
  - done.
  - by eapply preserved_trans.
Qed.

Lemma firstIndex_lt rs rid i : firstIndex rs rid = Some i -> (i < length rs)%nat.
Proof.
  revert i. induction rs as [|r rs IH]; intros i; simpl; [done|].
  destruct (decide (resource_id r = rid)).
  - intros [= <-]. lia.
  - destruct (firstIndex rs rid) as [j|]; simpl; [|done].
    intros [= <-]. specialize (IH j eq_refl). lia.
Qed.

(** [find] on objects that hold the data [rs] returns the object at the
    first position whose data has the id. *)
Lemma firstWithId_index h ls rs rid :
  Forall2 (fun l r => h !! l = Some (ResourceObj r)) ls rs ->
  firstWithId h ls rid = firstIndex rs rid ≫= (fun i => ls !! i).
Proof.
  induction 1 as [|l r ls rs Hl Hall IH]; simpl; [done|].
  rewrite Hl. destruct (decide (resource_id r = rid)); [done|].
  rewrite IH. by destruct (firstIndex rs rid).
Qed.

Lemma firstWithId_position h ls rs rid j l :
  Forall2 (fun l r => h !! l = Some (ResourceObj r)) ls rs ->
  NoDup ls -> ls !! j = Some l ->
  firstWithId h ls rid = Some l <-> firstIndex rs rid = Some j.
Proof.
  intros Hall Hnd Hj. rewrite (firstWithId_index _ _ _ _ Hall).
  destruct (firstIndex rs rid) as [i|] eqn:Hi; simpl; [|done].
  split.
  - intros Hl. f_equal. by apply (NoDup_lookup ls i j l).
  - by intros [= ->].
Qed.

Lemma foldl_ext_all {A B} (f g : A -> B -> A) (a : A) (l : list B) :
  (forall a e, f a e = g a e) -> foldl f a l = foldl g a l.
Proof.
  intros Heq. revert a. induction l as [|e l IH]; intros a; simpl; [done|].
  by rewrite Heq, IH.
Qed.

Lemma subtractFrom_position h ls rs j l a e :
  Forall2 (fun l r => h !! l = Some (ResourceObj r)) ls rs ->
  NoDup ls -> ls !! j = Some l ->
  subtractFrom h ls l a e = subtractAt rs j a e.
Proof.
  intros Hall Hnd Hj. unfold subtractFrom, subtractAt.
  destruct (decide (firstIndex rs e.1 = Some j)) as [Hi|Hi].
  - rewrite decide_True; [done|]. by apply (firstWithId_position h ls rs e.1 j l).
  - rewrite decide_False; [done|]. intros Hf. apply Hi.
    by apply (firstWithId_position h ls rs e.1 j l).
Qed.

(** The store of the working copy after [calculateAvailableResources]. *)
Lemma recomputed_distinct h ls rs ps h' :
  Forall2 (fun l r => h !! l = Some (ResourceObj r)) ls rs ->
  NoDup ls ->
  recomputed h ls (availableAt h ls ps) h' ->
  Forall2 (fun l r => h' !! l = Some (ResourceObj r)) ls (recomputedResources rs ps).
Proof.
  intros Hall Hnd [_ Hin].
  apply Forall2_same_length_lookup_2.
  - unfold recomputedResources. rewrite length_imap. by eapply Forall2_length.
  - intros j l r' Hj Hr'. unfold recomputedResources in Hr'.
    rewrite list_lookup_imap in Hr'.
    destruct (rs !! j) as [r|] eqn:Hr; [|done]. simpl in Hr'. injection Hr' as <-.
    pose proof (Forall2_lookup_lr _ _ _ _ _ _ Hall Hj Hr) as Hl. simpl in Hl.
    rewrite (Hin l r); [|by eapply list_elem_of_lookup_2|done].
    do 3 f_equal. unfold availableAt, totalAt. rewrite Hl.
    apply foldl_ext_all. intros a e. by apply subtractFrom_position.
Qed.

Lemma wp_collectAvailable_exact h ls vals acc :
  Forall2 (fun l r => h !! l = Some (ResourceObj r)) ls vals ->
  wp (collectAvailable ls acc)
     (fun av h' =>
        h' = h /\
        av = foldl (fun acc r => assign acc (resource_id r) (Num (available r))) acc vals) h.
Proof.
  intros Hall. revert acc. induction Hall as [|l r ls vals Hl Hall IH]; intros acc; simpl.
  - by apply wp_ret.
  - apply wp_bind. eapply wp_readResource; [exact Hl|]. apply IH.
Qed.

(** Lines 57-80 on a well-formed store: the loop starts on the caller's
    process data and on [initialAvailable]. *)
Lemma wp_setup_exact h matrix v :
  holds h matrix v ->
  wp (setup matrix)
     (fun out h' =>
        preserved h h' /\
        out = (v_processes v,
               initialState (process_id <$> v_processes v) (initialAvailable v))) h.
Proof.
  intros Hden. unfold setup.
  apply wp_bind. eapply wp_mono; [by apply wp_JSON_stringify|].
  intros json h0 [-> ->].
  apply wp_bind, wp_JSON_parse_distinct. intros wm h1 Hwm Hnew Hnd Hpres.
  apply wp_bind. eapply wp_mono; [by apply (wp_calculateAvailableResources h1 wm v)|].
  intros rs h2 [-> Hrec]. simpl.
  pose proof (recomputed_distinct _ _ _ _ _ (proj2 Hwm) Hnd Hrec) as Hres.
  apply wp_bind. eapply wp_mono; [by apply (wp_collectAvailable_exact h2 _ _ ∅ Hres)|].
  intros av h3 [-> ->].
  destruct Hrec as [Hout Hin].
  assert (Forall2 (fun l p => h2 !! l = Some (ProcessObj p))
            (processes wm) (v_processes v)) as Hps.
  { eapply Forall2_impl; [exact (proj1 Hwm)|]. intros l p Hl. simpl in Hl.
    rewrite Hout; [done|]. intros Hin'.
    destruct (holds_resource _ _ _ _ Hwm Hin') as (r & _ & Hr). congruence. }
  apply wp_bind. apply (wp_mapM_read _ ProcessObj _ _ _ _ readProcess_holds Hps).
  apply wp_ret. simpl. split; [|done].
  intros l o Hl. rewrite Hout; [by apply Hpres|].
  intros Hin'. rewrite Forall_forall in Hnew. specialize (Hnew l Hin'). congruence.
Qed.

(** On a well-formed store, [detectDeadlock] returns what [detect] computes
    from the data of the matrix, and leaves the caller's objects alone. *)
Lemma detectDeadlock_detect h matrix v fuel :
  holds h matrix v ->
  exists h', detectDeadlock fuel matrix h = Some (detect fuel v, h') /\ preserved h h'.
Proof.
  intros Hden.
  destruct (wp_elim _ _ _ (wp_setup_exact h matrix v Hden))
    as (out & h' & Hrun & Hpres & ->).
  exists h'. split; [|done].
  by rewrite (detectDeadlock_unfold _ _ _ _ _ _ Hrun).
Qed.

Lemma firstIndex_ext rs1 rs2 rid :
  Forall2 (fun r r' => resource_id r = resource_id r' /\ total r = total r') rs1 rs2 ->
  firstIndex rs1 rid = firstIndex rs2 rid.
Proof.
  induction 1 as [|r r' rs1 rs2 [Hid _] _ IH]; simpl; [done|].
  rewrite Hid, IH. done.
Qed.

Lemma availableOf_ext rs1 rs2 :
  Forall2 (fun r r' => resource_id r = resource_id r' /\ available r = available r') rs1 rs2 ->
  availableOf rs1 = availableOf rs2.
Proof.
  intros Hall. unfold availableOf. generalize (∅ : gmap string Value).
  induction Hall as [|r r' rs1 rs2 [Hid Hav] _ IH]; intros acc; simpl; [done|].
  rewrite Hid, Hav. apply IH.
Qed.

Lemma initialAvailable_ext v1 v2 :
  v_processes v1 = v_processes v2 ->
  Forall2 (fun r r' => resource_id r = resource_id r' /\ total r = total r')
    (v_resources v1) (v_resources v2) ->
  initialAvailable v1 = initialAvailable v2.
Proof.
  intros Hps Hrs. unfold initialAvailable. apply availableOf_ext.
  unfold recomputedResources. apply Forall2_same_length_lookup_2.
  - rewrite !length_imap. by eapply Forall2_length.
  - intros i x y. rewrite !list_lookup_imap.
    destruct (v_resources v1 !! i) as [r|] eqn:Hr; [|done].
    destruct (v_resources v2 !! i) as [r'|] eqn:Hr'; [|done].
    simpl. intros [= <-] [= <-]. simpl.
    destruct (Forall2_lookup_lr _ _ _ _ _ _ Hrs Hr Hr') as [Hid Htot].
    split; [done|]. rewrite Htot, Hps.
    apply foldl_ext_all. intros a e. unfold subtractAt.
    by rewrite (firstIndex_ext _ _ _ Hrs).
Qed.

(** X1: the result of [detectDeadlock] depends only on the processes and on
    the id and [total] of each resource: two matrices (in any two stores)
    with the same process data and resources that agree, position by
    position, on id and [total] get the same result, whatever their
    [available] and [isMultiInstance] fields hold. *)
Theorem detectDeadlock_reads_id_and_total h1 m1 v1 h2 m2 v2 fuel :
  denotes h1 m1 v1 ->
  denotes h2 m2 v2 ->
  v_processes v1 = v_processes v2 ->
  Forall2 (fun r r' => resource_id r = resource_id r' /\ total r = total r')
    (v_resources v1) (v_resources v2) ->
  exists out h1' h2',
    detectDeadlock fuel m1 h1 = Some (out, h1') /\
    detectDeadlock fuel m2 h2 = Some (out, h2').
Proof.
  intros [Hden1 _] [Hden2 _] Hps Hrs.
  destruct (detectDeadlock_detect _ _ _ fuel Hden1) as (h1' & Hrun1 & _).
  destruct (detectDeadlock_detect _ _ _ fuel Hden2) as (h2' & Hrun2 & _).
  exists (detect fuel v1), h1', h2'. split; [done|].
  rewrite Hrun2. unfold detect. by rewrite <- Hps, (initialAvailable_ext v1 v2).
Qed.

(** X1 at scenario B and at the same data held in other objects. *)
Lemma detectDeadlock_reads_id_and_total_scenarioB :
  exists out h1' h2',
    detectDeadlock 4 scenarioB scenarioB_store = Some (out, h1') /\
    detectDeadlock 4 scenarioB_other scenarioB_other_store = Some (out, h2').
Proof.
  apply (detectDeadlock_reads_id_and_total
           scenarioB_store scenarioB scenarioB_value
           scenarioB_other_store scenarioB_other scenarioB_other_value 4).
  - denotes_example.
  - denotes_example.
  - reflexivity.
  - repeat constructor.
Defined.

(** ** Availability along a run *)

(** More of everything keeps a request satisfiable. *)
Lemma satisfiable_mono p (f g : string -> Z) :
  (forall rid, f rid <= g rid) -> satisfiable p f -> satisfiable p g.
Proof.
  intros Hle Hsat rid q Hreq Hq. specialize (Hsat rid q Hreq Hq).
  specialize (Hle rid). lia.
Qed.

Lemma safeOrder_ext (f g : string -> Z) l :
  (forall rid, f rid = g rid) -> safeOrder f l -> safeOrder g l.
Proof.
  revert f g. induction l as [|p l IH]; intros f g Heq; simpl; [done|].
  intros [Hsat Hrest]. split.
  - apply (satisfiable_mono p f); [|done]. intros rid. rewrite Heq. lia.
  - apply (IH (released p f)); [|done]. intros rid. unfold released. by rewrite Heq.
Qed.

Lemma pending_nonneg ps waiting rid : 0 <= pending ps waiting rid.
Proof.
  unfold pending. induction ps as [|q ps IH]; simpl; [lia|].
  destruct (decide (process_id q ∈ waiting)); lia.
Qed.

(** What a waiting process holds is part of what is pending, and is no
    longer once its id has left the waiting ids. *)
Lemma pending_remove ps (waiting waiting' : list string) p rid :
  (forall x, x ∈ waiting' -> x ∈ waiting /\ x <> process_id p) ->
  p ∈ ps -> process_id p ∈ waiting ->
  pending ps waiting' rid + Z.abs (default 0 (allocation p !! rid))
  <= pending ps waiting rid.
Proof.
  intros Hsub Hp Hw.
  assert (forall l, pending l waiting' rid <= pending l waiting rid) as Hle.
  { intros l. unfold pending. induction l as [|q l IH]; simpl; [lia|].
    destruct (decide (process_id q ∈ waiting')) as [Hq|Hq].
    - destruct (Hsub _ Hq) as [Hq' _]. rewrite decide_True by done. lia.
    - destruct (decide (process_id q ∈ waiting)); lia. }
  induction ps as [|q ps IH]; [by apply elem_of_nil in Hp|].
  apply elem_of_cons in Hp as [<-|Hp].
  - specialize (Hle ps). unfold pending in *. simpl.
    rewrite decide_False by (intros Hin; by destruct (Hsub _ Hin)).
    rewrite decide_True by done. lia.
  - specialize (IH Hp). unfold pending in *. simpl.
    destruct (decide (process_id q ∈ waiting')) as [Hq|Hq].
    + destruct (Hsub _ Hq) as [Hq' _]. rewrite decide_True by done. lia.
    + destruct (decide (process_id q ∈ waiting)); lia.
Qed.

(** Lines 110-112 on a balanced availability add the entries of a waiting
    process exactly, and leave a balanced availability for the ids that
    still wait. *)
Lemma balanced_release ps (waiting waiting' : list string) av p :
  balanced ps waiting av ->
  plainProcess p -> p ∈ ps -> process_id p ∈ waiting ->
  (forall x, x ∈ waiting' -> x ∈ waiting /\ x <> process_id p) ->
  givenBack p av (release p av) /\ balanced ps waiting' (release p av).
Proof.
  intros [Hnum Hb] Hplain Hp Hw Hsub.
  assert (givenBack p av (release p av)) as Hgb.
  { apply release_givenBack; [done|done|]. intros rid a Ha.
    pose proof (pending_remove ps waiting waiting' p rid Hsub Hp Hw) as Hrem.
    pose proof (pending_nonneg ps waiting' rid). specialize (Hb rid).
    rewrite Ha in Hrem. simpl in Hrem. lia. }
  split; [done|]. split; [by apply release_numeric|].
  intros rid. rewrite (givenBack_amountOf p av _ rid Hgb). unfold released.
  pose proof (pending_remove ps waiting waiting' p rid Hsub Hp Hw) as Hrem.
  specialize (Hb rid). lia.
Qed.

(** On a balanced availability and with plain keys, an order the loop can
    admit is a safe order. *)
Lemma admissibleOrder_safeOrder ps (waiting : list string) av l :
  Forall plainProcess ps ->
  balanced ps waiting av ->
  Forall (fun p => p ∈ ps) l ->
  NoDup (process_id <$> l) ->
  Forall (fun p => process_id p ∈ waiting) l ->
  admissibleOrder av l -> safeOrder (amountOf av) l.
Proof.
  intros Hplain. revert waiting av.
  induction l as [|p l IH]; intros waiting av Hbal Hin Hnd Hw; simpl; [done|].
  intros [Hcan Hrest].
  apply Forall_cons in Hin as [Hp Hin]. apply Forall_cons in Hw as [Hpw Hw].
  rewrite fmap_cons in Hnd. apply NoDup_cons in Hnd as [Hfresh Hnd].
  assert (plainProcess p) as Hpp by (rewrite Forall_forall in Hplain; by apply Hplain).
  destruct (balanced_release ps waiting
              (filter (fun x => x <> process_id p) waiting) av p Hbal Hpp Hp Hpw)
    as [Hgb Hbal'].
  { by intros x [? ?]%list_elem_of_filter. }
  split; [by apply canFinish_satisfiable; [|destruct Hbal|]|].
  apply (safeOrder_ext (amountOf (release p av))).
  { intros rid. by apply givenBack_amountOf. }
  apply (IH (filter (fun x => x <> process_id p) waiting)); try done.
  apply Forall_forall. intros q Hq. apply list_elem_of_filter. split.
  - intros Heq. apply Hfresh. rewrite <- Heq. by apply list_elem_of_fmap_2.
  - rewrite Forall_forall in Hw. by apply Hw.
Qed.

Lemma admitProcess_trace ids p st :
  trace (admitProcess ids p st) = trace st ++ [admissionStep ids p st].
Proof. done. Qed.

Lemma admitAll_snoc ids st l p :
  admitAll ids st (l ++ [p]) = admitProcess ids p (admitAll ids st l).
Proof. unfold admitAll. by rewrite foldl_app. Qed.

Lemma admitAll_current ids st l :
  current (admitAll ids st l) = releaseAll (current st) l.
Proof. revert st. induction l as [|p l IH]; intros st; [done|]. apply IH. Qed.

Lemma admitAll_sequence ids st l :
  sequence (admitAll ids st l) = sequence st ++ (process_id <$> l).
Proof.
  revert st. induction l as [|p l IH]; intros st; simpl; [by rewrite app_nil_r|].
  unfold admitAll in *. simpl. rewrite IH. simpl. by rewrite <- app_assoc.
Qed.

Lemma admitAll_finished ids st l :
  finished (admitAll ids st l) = finished st ∪ list_to_set (process_id <$> l).
Proof.
  revert st. induction l as [|p l IH]; intros st; simpl.
  - by rewrite union_empty_r_L.
  - unfold admitAll in *. simpl. rewrite IH. simpl. by rewrite (assoc_L (∪)).
Qed.

(** The states of the loop are those reached by admitting, in turn, the
    processes of an order the loop can admit from the state's availability:
    [k] rounds admit [k] processes of the matrix, each unfinished at its
    turn. *)
Lemma rounds_admitAll ids ps k st st' :
  rounds ids ps k st = Some st' ->
  exists l,
    length l = k /\
    st' = admitAll ids st l /\
    Forall (fun p => p ∈ ps) l /\
    admissibleOrder (current st) l /\
    NoDup (process_id <$> l) /\
    Forall (fun p => process_id p ∉ finished st) l.
Proof.
  revert st. induction k as [|k IH]; intros st; simpl.
  - intros [= <-]. exists []. repeat split; constructor.
  - destruct (scan ids ps st) as [s1|] eqn:Hscan; [|done].
    destruct (scan_Some _ _ _ _ Hscan) as (P & HP & Hfin & Hcan & ->).
    intros (l & Hlen & -> & Hin & Hsafe & Hnd & Hnew)%IH.
    exists (P :: l). simpl in *.
    assert (Forall (fun p => process_id p <> process_id P /\ process_id p ∉ finished st) l)
      as Hl.
    { eapply Forall_impl; [exact Hnew|]. intros p Hp. simpl in Hp.
      split; intros ?; apply Hp; set_solver. }
    split; [by rewrite Hlen|]. split; [done|]. split; [by constructor|].
    split; [by split|]. split.
    + constructor; [|done].
      intros (p & Heq & Hp)%list_elem_of_fmap. rewrite Forall_forall in Hl.
      destruct (Hl p Hp) as [Hne _]. by apply Hne.
    + constructor; [done|]. eapply Forall_impl; [exact Hl|]. by intros p [_ ?].
Qed.

Lemma admitAll_trace ids st l :
  exists rest, trace (admitAll ids st l) = trace st ++ rest.
Proof.
  revert st. induction l as [|p l IH]; intros st.
  - exists []. by rewrite app_nil_r.
  - destruct (IH (admitProcess ids p st)) as [rest Hrest].
    exists (admissionStep ids p st :: rest).
    change (admitAll ids st (p :: l)) with (admitAll ids (admitProcess ids p st) l).
    rewrite Hrest, admitProcess_trace, <- app_assoc. done.
Qed.

(** A run with enough fuel: the processes of some list [l] are admitted in
    turn from the initial state, [canFinish] being true of each at its turn,
    the scan then admits nobody, and the result is built from the state
    reached. *)
Lemma detectDeadlock_admitted h matrix v fuel :
  holds h matrix v ->
  (length (v_processes v) < fuel)%nat ->
  exists h' l stf,
    detectDeadlock fuel matrix h = Some (Some (finish (v_processes v) stf), h') /\
    stf = admitAll (process_id <$> v_processes v)
            (initialState (process_id <$> v_processes v) (initialAvailable v)) l /\
    Forall (fun p => p ∈ v_processes v) l /\
    admissibleOrder (initialAvailable v) l /\
    NoDup (process_id <$> l) /\
    loopInv (v_processes v) stf /\
    scan (process_id <$> v_processes v) (v_processes v) stf = None.
Proof.
  intros Hden Hfuel.
  destruct (detectDeadlock_detect _ _ _ fuel Hden) as (h' & Hrun & _).
  unfold detect in Hrun.
  set (ps := v_processes v) in *. set (ids := process_id <$> ps) in *.
  set (st0 := initialState ids (initialAvailable v)) in *.
  destruct (whileLoop_run ps fuel st0) as (k & stf & Hk & Hscan & Hloop).
  { apply loopInv_initial. }
  { simpl. lia. }
  destruct (rounds_admitAll _ _ _ _ _ Hk) as (l & _ & Hstf & Hin & Hsafe & Hnd & _).
  exists h', l, stf.
  split; [rewrite Hrun; unfold ids in *; by rewrite Hloop|].
  split; [done|]. split; [done|]. split; [done|]. split; [done|].
  split; [by apply (rounds_initial _ _ _ _ Hk)|done].
Qed.

(** The steps of a result start with the initial step. *)
Lemma finish_first_step ps ids av l :
  exists rest,
    steps (finish ps (admitAll ids (initialState ids av) l))
    = {| description := "Initial available resources";
         remainingProcesses := ids;
         availableResources := av;
         processedThisRound := [] |} :: rest.
Proof.
  destruct (finish_steps ps (admitAll ids (initialState ids av) l)) as (closing & -> & _).
  destruct (admitAll_trace ids (initialState ids av) l) as (rest & ->).
  simpl. by eexists.
Qed.

Lemma firstIndex_unique rs rid j r :
  NoDup (resource_id <$> rs) -> rs !! j = Some r ->
  firstIndex rs rid = Some j <-> rid = resource_id r.
Proof.
  revert j. induction rs as [|r0 rs IH]; intros j Hnd Hj; [done|].
  rewrite fmap_cons in Hnd. apply NoDup_cons in Hnd as [Hfresh Hnd]. simpl.
  destruct j as [|j]; simpl in Hj.
  - injection Hj as ->. destruct (decide (resource_id r = rid)) as [Heq|Hne].
    + by split.
    + split; [|by intros ->]. by destruct (firstIndex rs rid).
  - destruct (decide (resource_id r0 = rid)) as [Heq|Hne].
    + split; [done|]. intros ->. exfalso. apply Hfresh. rewrite Heq.
      apply list_elem_of_fmap_2. by eapply list_elem_of_lookup_2.
    + rewrite <- (IH j Hnd Hj). destruct (firstIndex rs rid) as [i|]; simpl.
      * split; intros [= ->]; done.
      * done.
Qed.

Lemma availableOf_fold_fresh (vals : list Resource) (acc : gmap string Value) (k : string) :
  k ∉ resource_id <$> vals ->
  foldl (fun acc r => assign acc (resource_id r) (Num (available r))) acc vals !! k = acc !! k.
Proof.
  revert acc. induction vals as [|r vals IH]; intros acc Hk; simpl; [done|].
  rewrite fmap_cons in Hk. apply not_elem_of_cons in Hk as [Hne Hk].
  rewrite (IH _ Hk). unfold assign.
  destruct (decide (resource_id r = "__proto__")); [done|]. by apply lookup_insert_ne.
Qed.

Lemma availableOf_fold_unique (vals : list Resource) (acc : gmap string Value) r :
  NoDup (resource_id <$> vals) -> r ∈ vals -> resource_id r <> "__proto__" ->
  foldl (fun acc r => assign acc (resource_id r) (Num (available r))) acc vals
    !! resource_id r
  = Some (Num (available r)).
Proof.
  revert acc. induction vals as [|r0 vals IH]; intros acc Hnd Hr Hproto; simpl.
  - by apply elem_of_nil in Hr.
  - rewrite fmap_cons in Hnd. apply NoDup_cons in Hnd as [Hfresh Hnd].
    apply elem_of_cons in Hr as [->|Hr].
    + rewrite availableOf_fold_fresh by done. unfold assign.
      rewrite decide_False by done. apply lookup_insert_eq.
    + by apply IH.
Qed.

(** Every entry lines 63-66 write is the [available] amount of a
    resource. *)
Lemma availableOf_fold_elem (vals : list Resource) (acc : gmap string Value) k x :
  foldl (fun acc r => assign acc (resource_id r) (Num (available r))) acc vals !! k = Some x ->
  acc !! k = Some x \/ exists r, r ∈ vals /\ x = Num (available r).
Proof.
  revert acc. induction vals as [|r vals IH]; intros acc; simpl; [by left|].
  intros [Hacc|(r' & Hr' & ->)]%IH; [|right; exists r'; split; [by right|done]].
  unfold assign in Hacc. destruct (decide (resource_id r = "__proto__")); [by left|].
  destruct (decide (resource_id r = k)) as [Heq|Hne].
  - rewrite Heq, lookup_insert_eq in Hacc. injection Hacc as <-.
    right. exists r. split; [by left|done].
  - rewrite lookup_insert_ne in Hacc by done. by left.
Qed.

Lemma sumZ_abs_bound {A} (f g : A -> Z) (l : list A) :
  (forall x, Z.abs (f x) <= Z.abs (g x)) ->
  Z.abs (sumZ (map f l)) <= sumZ (map (fun x => Z.abs (g x)) l).
Proof.
  intros Hle. induction l as [|x l IH]; simpl; [lia|]. specialize (Hle x). lia.
Qed.

(** Within 2^53, lines 25-37 leave [total] minus what the processes take
    from the resource at position [j]. *)
Lemma subtractAt_exact rs ps j (a : Z) :
  Z.abs a + sumZ (map (fun p => magnitude (allocation p)) ps) <= 2 ^ 53 ->
  foldl (subtractAt rs j) a (entriesOf ps) = a - takenAt rs ps j /\
  Z.abs (takenAt rs ps j) <= sumZ (map (fun p => magnitude (allocation p)) ps).
Proof.
  intros Hb. split.
  - unfold subtractAt.
    rewrite (foldl_subtract_exact (fun e => firstIndex rs e.1 = Some j)).
    + f_equal. unfold takenAt, entriesOf. apply sumZ_flat_map.
    + by rewrite entriesOf_magnitude.
  - rewrite <- entriesOf_magnitude. unfold takenAt, entriesOf.
    rewrite <- (sumZ_flat_map
      (fun e : string * Z => if decide (firstIndex rs e.1 = Some j) then e.2 else 0)).
    apply (sumZ_abs_bound _ snd). intros e.
    destruct (decide (firstIndex rs e.1 = Some j)); lia.
Qed.

Lemma takenAt_unique rs ps j r :
  NoDup (resource_id <$> rs) -> rs !! j = Some r ->
  takenAt rs ps j = sumZ (map (fun p => default 0 (allocation p !! resource_id r)) ps).
Proof.
  intros Hnd Hj. unfold takenAt. f_equal. apply map_ext. intros p.
  rewrite <- sumZ_entries. f_equal. apply map_ext. intros e.
  destruct (decide (e.1 = resource_id r)) as [He|He].
  - rewrite decide_True; [done|]. by apply (firstIndex_unique _ _ _ r).
  - rewrite decide_False; [done|]. intros Hf. apply He.
    by apply (firstIndex_unique _ _ j r Hnd Hj).
Qed.

Lemma recomputedResources_ids rs ps :
  resource_id <$> recomputedResources rs ps = resource_id <$> rs.
Proof.
  unfold recomputedResources. apply list_eq. intros i.
  rewrite !list_lookup_fmap, list_lookup_imap.
  by destruct (rs !! i).
Qed.

(** With pairwise distinct resource ids and amounts within 2^53, the loop
    starts with [total] minus the allocations under the id of each
    resource, and with no entry for any other id. *)
Lemma initialAvailable_lookup v r :
  NoDup (resource_id <$> v_resources v) -> r ∈ v_resources v ->
  safeAmounts v -> resource_id r <> "__proto__" ->
  initialAvailable v !! resource_id r
  = Some (Num (total r - sumZ (map (fun p => default 0 (allocation p !! resource_id r))
                                   (v_processes v)))).
Proof.
  intros Hnd Hr Hsafe Hproto.
  pose proof (safeAmounts_resource v r Hsafe Hr) as Hb.
  pose proof (sumZ_magnitude_nonneg (v_processes v)) as Hpos.
  apply list_elem_of_lookup in Hr as [j Hj].
  set (r' := set_available r
               (foldl (subtractAt (v_resources v) j) (total r) (entriesOf (v_processes v)))).
  assert (recomputedResources (v_resources v) (v_processes v) !! j = Some r') as Hj'.
  { unfold recomputedResources. by rewrite list_lookup_imap, Hj. }
  unfold initialAvailable, availableOf.
  change (resource_id r) with (resource_id r') at 1.
  rewrite availableOf_fold_unique;
    [|by rewrite recomputedResources_ids|by eapply list_elem_of_lookup_2|done].
  simpl. do 2 f_equal.
  destruct (subtractAt_exact (v_resources v) (v_processes v) j (total r)) as [-> _]; [lia|].
  by rewrite (takenAt_unique _ _ j r).
Qed.

Lemma initialAvailable_fresh v (rid : string) :
  rid ∉ resource_id <$> v_resources v -> initialAvailable v !! rid = None.
Proof.
  intros Hrid. unfold initialAvailable, availableOf.
  rewrite availableOf_fold_fresh; [done|]. by rewrite recomputedResources_ids.
Qed.

Lemma magnitude_entry (m : gmap string Z) rid : Z.abs (default 0 (m !! rid)) <= magnitude m.
Proof.
  destruct (m !! rid) as [a|] eqn:Ha; simpl; [|apply magnitude_nonneg].
  apply elem_of_map_to_list in Ha.
  apply (sumZ_abs_elem snd (map_to_list m) (rid, a) Ha).
Qed.

Lemma pending_magnitude ps waiting rid :
  pending ps waiting rid <= sumZ (map (fun p => magnitude (allocation p)) ps).
Proof.
  unfold pending. induction ps as [|p ps IH]; simpl; [lia|].
  pose proof (magnitude_entry (allocation p) rid).
  pose proof (magnitude_nonneg (allocation p)).
  destruct (decide (process_id p ∈ waiting)); lia.
Qed.

(** With amounts within 2^53, the loop starts on a balanced
    availability. *)
Lemma balanced_initial v (waiting : list string) :
  safeAmounts v -> balanced (v_processes v) waiting (initialAvailable v).
Proof.
  intros Hsafe.
  pose proof (sumZ_magnitude_nonneg (v_processes v)) as Hpos.
  pose proof (sumZ_abs_nonneg total (v_resources v)) as Htot.
  assert (forall rid x, initialAvailable v !! rid = Some x ->
            exists n, x = Num n /\
              Z.abs n + sumZ (map (fun p => magnitude (allocation p)) (v_processes v))
              <= 2 ^ 53) as Hentries.
  { intros rid x Hx. unfold initialAvailable, availableOf in Hx.
    apply availableOf_fold_elem in Hx as [Hx|(r' & Hr' & ->)];
      [by rewrite lookup_empty in Hx|].
    eexists. split; [done|].
    unfold recomputedResources in Hr'. apply list_elem_of_lookup in Hr' as [j Hj].
    rewrite list_lookup_imap in Hj.
    destruct (v_resources v !! j) as [r|] eqn:Hr; [|done]. injection Hj as <-. simpl.
    pose proof (safeAmounts_resource v r Hsafe (list_elem_of_lookup_2 _ _ _ Hr)) as Hb.
    destruct (subtractAt_exact (v_resources v) (v_processes v) j (total r))
      as [-> Hle]; lia. }
  split.
  - intros rid Hx. by destruct (Hentries rid _ Hx) as (n & ? & _).
  - intros rid. pose proof (pending_magnitude (v_processes v) waiting rid) as Hpend.
    unfold amountOf. destruct (initialAvailable v !! rid) as [x|] eqn:Hx.
    + destruct (Hentries rid x Hx) as (n & -> & Hb). lia.
    + unfold safeAmounts in Hsafe. simpl. lia.
Qed.

Lemma plainIds_resource v r : plainIds v -> r ∈ v_resources v -> resource_id r <> "__proto__".
Proof.
  intros [_ Hrs] Hr Heq. rewrite Forall_forall in Hrs. apply (Hrs r Hr).
  rewrite Heq. by_evaluation.
Qed.

(** X2: for a matrix with pairwise distinct resource ids, none of them a
    name that every object inherits ([plainIds]), and amounts small enough
    for the subtractions to be exact ([safeAmounts]), the first step of
    every result lists all process ids as remaining, records no admission,
    and holds as available, for each resource, the number [total] minus the
    sum of the allocation entries of all processes under its id (a missing
    entry is 0) and nothing under any other id, whatever [available] held in
    the input. *)
Theorem detectDeadlock_initial_step h matrix v fuel :
  denotes h matrix v ->
  NoDup (resource_id <$> v_resources v) ->
  plainIds v ->
  safeAmounts v ->
  (length (v_processes v) < fuel)%nat ->
  exists r h' first rest,
    detectDeadlock fuel matrix h = Some (Some r, h') /\
    steps r = first :: rest /\
    description first = "Initial available resources" /\
    remainingProcesses first = process_id <$> v_processes v /\
    processedThisRound first = [] /\
    Forall (fun res =>
        availableResources first !! resource_id res
        = Some (Num (total res
                     - sumZ (map (fun p => default 0 (allocation p !! resource_id res))
                                 (v_processes v)))))
      (v_resources v) /\
    (forall rid : string,
       rid ∉ resource_id <$> v_resources v -> availableResources first !! rid = None).
Proof.
  intros [Hden Hdbl] Hnd Hplain Hsafe Hfuel.
  destruct (detectDeadlock_admitted _ _ _ _ Hden Hfuel)
    as (h' & l & stf & Hrun & -> & _).
  destruct (finish_first_step (v_processes v) (process_id <$> v_processes v)
              (initialAvailable v) l) as (rest & Hsteps).
  eexists _, h', _, rest. split; [exact Hrun|]. split; [exact Hsteps|]. simpl.
  split; [done|]. split; [done|]. split; [done|]. split.
  - apply Forall_forall. intros res Hres.
    apply initialAvailable_lookup; [done|done|done|by apply (plainIds_resource v)].
  - apply initialAvailable_fresh.
Qed.

(** X2 at scenario B. *)
Lemma detectDeadlock_initial_step_scenarioB :
  exists r h' first rest,
    detectDeadlock 4 scenarioB scenarioB_store = Some (Some r, h') /\
    steps r = first :: rest /\
    description first = "Initial available resources" /\
    remainingProcesses first = process_id <$> v_processes scenarioB_value /\
    processedThisRound first = [] /\
    Forall (fun res =>
        availableResources first !! resource_id res
        = Some (Num (total res
                     - sumZ (map (fun p => default 0 (allocation p !! resource_id res))
                                 (v_processes scenarioB_value)))))
      (v_resources scenarioB_value) /\
    (forall rid : string,
       rid ∉ resource_id <$> v_resources scenarioB_value ->
       availableResources first !! rid = None).
Proof.
  apply (detectDeadlock_initial_step scenarioB_store scenarioB scenarioB_value 4).
  - denotes_example.
  - by_evaluation.
  - by_evaluation.
  - by_evaluation.
  - simpl. lia.
Defined.

(** ** The verdict of the detector *)

(** The processes admitted in a run that ends safe are all the processes. *)
Lemma safe_run_admits_all ps st (l : list Process) :
  loopInv ps st ->
  sequence st = process_id <$> l ->
  Forall (fun p => p ∈ ps) l ->
  ~ (size (finished st) < length ps)%nat ->
  l ≡ₚ ps.
Proof.
  intros Hinv Hseq Hin Hsize.
  rewrite (loopInv_size _ _ Hinv), Hseq, length_fmap in Hsize.
  destruct Hinv as [_ Hnd _ _]. rewrite Hseq in Hnd.
  apply submseteq_length_Permutation; [|lia].
  apply NoDup_submseteq; [by apply NoDup_fmap_1 in Hnd|].
  by apply Forall_forall.
Qed.

Lemma admitAll_initial_sequence ids av l :
  sequence (admitAll ids (initialState ids av) l) = process_id <$> l.
Proof. by rewrite admitAll_sequence. Qed.

(** X3: for a matrix whose ids are no names that every object inherits
    ([plainIds]) and whose amounts are small enough for the sums to be exact
    ([safeAmounts]), the processes the steps record as admitted form, in
    that order, a safe order from the amounts of the first step: each one's
    strictly positive requests are within those amounts plus the allocation
    entries of the processes before it ([safeOrder], which adds the entries
    in exact arithmetic).  When [safeSequence] is not null, it lists the ids
    of that order, which is then a permutation of all the processes of the
    matrix. *)
Theorem detectDeadlock_sequence_is_safe h matrix v fuel :
  denotes h matrix v ->
  plainIds v ->
  safeAmounts v ->
  (length (v_processes v) < fuel)%nat ->
  exists r h' first rest order,
    detectDeadlock fuel matrix h = Some (Some r, h') /\
    steps r = first :: rest /\
    admittedIds r = process_id <$> order /\
    Forall (fun p => p ∈ v_processes v) order /\
    safeOrder (amountOf (availableResources first)) order /\
    (forall s, safeSequence r = Some s ->
       s = process_id <$> order /\ order ≡ₚ v_processes v).
Proof.
  intros [Hden Hdbl] Hplain Hamounts Hfuel.
  destruct (detectDeadlock_admitted _ _ _ _ Hden Hfuel)
    as (h' & l & stf & Hrun & Hstf & Hin & Hadm & Hnd & Hinv & _).
  assert (safeOrder (amountOf (initialAvailable v)) l) as Hsafe.
  { apply (admissibleOrder_safeOrder (v_processes v) (process_id <$> v_processes v));
      try done.
    - by destruct Hplain.
    - by apply balanced_initial.
    - eapply Forall_impl; [exact Hin|]. intros p Hp. by apply list_elem_of_fmap_2. }
  destruct (finish_first_step (v_processes v) (process_id <$> v_processes v)
              (initialAvailable v) l) as (rest & Hsteps).
  rewrite <- Hstf in Hsteps.
  assert (sequence stf = process_id <$> l) as Hseq.
  { rewrite Hstf. apply admitAll_initial_sequence. }
  eexists _, h', _, rest, l. split; [exact Hrun|]. split; [exact Hsteps|].
  split; [by rewrite (finish_admittedIds _ _ Hinv)|].
  split; [done|]. split; [done|].
  intros s. unfold finish.
  destruct (decide (size (finished stf) < length (v_processes v))%nat) as [Hlt|Hge];
    simpl; [done|].
  intros [= <-]. split; [done|]. by apply (safe_run_admits_all _ stf).
Qed.

(** X3 at scenario B. *)
Lemma detectDeadlock_sequence_is_safe_scenarioB :
  exists r h' first rest order,
    detectDeadlock 4 scenarioB scenarioB_store = Some (Some r, h') /\
    steps r = first :: rest /\
    admittedIds r = process_id <$> order /\
    Forall (fun p => p ∈ v_processes scenarioB_value) order /\
    safeOrder (amountOf (availableResources first)) order /\
    (forall s, safeSequence r = Some s ->
       s = process_id <$> order /\ order ≡ₚ v_processes scenarioB_value).
Proof.
  apply (detectDeadlock_sequence_is_safe scenarioB_store scenarioB scenarioB_value 4).
  - denotes_example.
  - by_evaluation.
  - by_evaluation.
  - simpl. lia.
Defined.

(** X4: a matrix in which two processes share an id is never reported safe:
    [safeSequence] is null, whatever the requests are (the test of line 136
    compares the number of distinct finished ids with the number of
    processes). *)
Theorem detectDeadlock_repeated_id_never_safe h matrix v fuel :
  denotes h matrix v ->
  (length (v_processes v) < fuel)%nat ->
  ~ NoDup (process_id <$> v_processes v) ->
  exists r h',
    detectDeadlock fuel matrix h = Some (Some r, h') /\
    safeSequence r = None.
Proof.
  intros [Hden Hdbl] Hfuel Hdup.
  destruct (detectDeadlock_admitted _ _ _ _ Hden Hfuel)
    as (h' & l & stf & Hrun & Hstf & Hin & Hadm & Hnd & Hinv & _).
  eexists _, h'. split; [exact Hrun|]. unfold finish.
  destruct (decide (size (finished stf) < length (v_processes v))%nat) as [Hlt|Hge];
    simpl; [done|].
  exfalso. apply Hdup.
  assert (l ≡ₚ v_processes v) as Hperm.
  { apply (safe_run_admits_all _ stf); try done.
    rewrite Hstf. apply admitAll_initial_sequence. }
  by rewrite <- Hperm.
Qed.

(** X4 at two idle processes under one id. *)
Lemma detectDeadlock_repeated_id_never_safe_twins :
  exists r h',
    detectDeadlock 3 twinProcesses twinProcesses_store = Some (Some r, h') /\
    safeSequence r = None.
Proof.
  apply (detectDeadlock_repeated_id_never_safe
           twinProcesses_store twinProcesses twinProcesses_value 3).
  - denotes_example.
  - simpl. lia.
  - intros Hnd. by apply (bool_decide_pack _) in Hnd.
Defined.

(** A scan that admits nobody passed over every process: each one has
    finished or cannot finish. *)
Lemma scan_None_all ids ps st P :
  scan ids ps st = None -> P ∈ ps ->
  process_id P ∈ finished st \/ canFinish P (current st) = false.
Proof.
  induction ps as [|Q ps IH]; simpl; intros Hscan HP.
  - by apply elem_of_nil in HP.
  - destruct (decide (process_id Q ∈ finished st)) as [Hfin|Hfin].
    + apply elem_of_cons in HP as [->|HP]; [by left|by apply IH].
    + destruct (canFinish Q (current st)) eqn:HQ; [done|].
      apply elem_of_cons in HP as [->|HP]; [by right|by apply IH].
Qed.

(** A process that cannot finish has a strictly positive request above the
    available amount. *)
Lemma exceeds_amountOf q av rid :
  exceeds q (readOr0 av rid) = true -> amountOf av rid < q.
Proof.
  unfold readOr0, amountOf. destruct (av !! rid) as [[n|]|]; simpl; [lia|done|].
  destruct (decide (rid ∈ inheritedNames)); simpl; [done|lia].
Qed.

Lemma canFinish_false_blocking p av :
  canFinish p av = false ->
  exists rid q, request p !! rid = Some q /\ 0 < q /\ amountOf av rid < q.
Proof.
  intros Hcan.
  assert (~ Forall (fun e : string * Z => 0 < e.2 -> exceeds e.2 (readOr0 av e.1) = false)
            (map_to_list (request p))) as Hnot.
  { intros Hall. assert (canFinish p av = true) as Htrue; [|congruence].
    unfold canFinish. by apply canFinish_fold. }
  apply not_Forall_Exists in Hnot; [|intros e; apply _].
  apply Exists_exists in Hnot as ([rid q] & Hin & Hq). simpl in Hq.
  apply elem_of_map_to_list in Hin. exists rid, q. split; [done|].
  destruct (decide (0 < q)) as [Hpos|Hneg]; [|by destruct Hq].
  split; [done|]. apply exceeds_amountOf.
  destruct (exceeds q (readOr0 av rid)); [done|]. by destruct Hq.
Qed.

(** ** The trace of a run *)

Lemma stepwise_snoc R l s s' :
  stepwise R l -> last l = Some s -> R s s' -> stepwise R (l ++ [s']).
Proof.
  intros Hl Hlast HR i a b Ha Hb.
  rewrite last_lookup in Hlast.
  destruct (decide (S i < length l)%nat) as [Hlt|Hge].
  - rewrite lookup_app_l in Ha by lia. rewrite lookup_app_l in Hb by lia.
    by apply (Hl i).
  - assert (S i = length l) as Hi.
    { apply lookup_lt_Some in Hb. rewrite length_app in Hb. simpl in Hb. lia. }
    rewrite lookup_app_l in Ha by lia.
    rewrite lookup_app_r in Hb by lia. rewrite Hi, Nat.sub_diag in Hb.
    injection Hb as <-. rewrite <- Hi in Hlast. simpl in Hlast.
    rewrite Hlast in Ha. by injection Ha as <-.
Qed.

Lemma filter_unfinished_ids (ps : list Process) (X : gset string) :
  process_id <$> filter (fun p => process_id p ∉ X) ps
  = filter (fun id => id ∉ X) (process_id <$> ps).
Proof.
  induction ps as [|p ps IH]; [done|].
  rewrite fmap_cons, !filter_cons. simpl.
  destruct (decide (process_id p ∉ X)); by rewrite ?fmap_cons, IH.
Qed.

Lemma filter_all {A} (P : A -> Prop) `{forall x, Decision (P x)} (l : list A) :
  Forall P l -> filter P l = l.
Proof.
  induction 1 as [|x l Hx Hall IH]; [done|].
  by rewrite filter_cons, decide_True, IH.
Qed.

Lemma traceInv_initial ps av : traceInv ps (initialState (process_id <$> ps) av).
Proof.
  eexists. split; [done|]. simpl. split; [done|]. split.
  - symmetry. apply filter_all. apply Forall_forall. intros x _.
    apply not_elem_of_empty.
  - intros i s s' _ Hs'. by destruct i.
Qed.

(** The scan of one round, as the code runs it: it passes over the
    processes that have finished or whose [canFinish] flag is false, and
    admits the first other one. *)
Lemma scan_first ids ps st :
  match scan ids ps st with
  | Some st' =>
      exists before P after,
        ps = before ++ P :: after /\
        Forall (fun p => process_id p ∈ finished st \/ canFinish p (current st) = false)
               before /\
        (process_id P ∉ finished st) /\
        canFinish P (current st) = true /\
        st' = admitProcess ids P st
  | None =>
      Forall (fun p => process_id p ∈ finished st \/ canFinish p (current st) = false) ps
  end.
Proof.
  induction ps as [|Q ps IH]; simpl; [done|].
  destruct (decide (process_id Q ∈ finished st)) as [Hfin|Hfin].
  - destruct (scan ids ps st) as [st'|].
    + destruct IH as (before & P & after & -> & Hbefore & HP).
      exists (Q :: before), P, after. split; [done|]. split; [|done].
      constructor; [by left|done].
    + constructor; [by left|done].
  - destruct (canFinish Q (current st)) eqn:HQ.
    + exists [], Q, ps. by repeat split.
    + destruct (scan ids ps st) as [st'|].
      * destruct IH as (before & P & after & -> & Hbefore & HP).
        exists (Q :: before), P, after. split; [done|]. split; [|done].
        constructor; [by right|done].
      * constructor; [by right|done].
Qed.

Lemma passedOver_final (ids : list string) st final p :
  availableResources final = current st ->
  remainingProcesses final = filter (fun id => id ∉ finished st) ids ->
  process_id p ∈ finished st \/ canFinish p (current st) = false ->
  passedOver final p.
Proof.
  intros Hav Hrem [Hfin|Hcan]; [left|right; by rewrite Hav].
  rewrite Hrem. by intros [? _]%list_elem_of_filter.
Qed.

Lemma traceInv_scan ps st st' :
  traceInv ps st -> scan (process_id <$> ps) ps st = Some st' -> traceInv ps st'.
Proof.
  intros (final & Hlast & Hav & Hrem & Hstep) Hscan.
  pose proof (scan_first (process_id <$> ps) ps st) as Hfirst. rewrite Hscan in Hfirst.
  destruct Hfirst as (before & P & after & Hps & Hbefore & Hfin & Hcan & ->).
  assert (P ∈ ps) as HP.
  { rewrite Hps. apply elem_of_app. right. by left. }
  exists (admissionStep (process_id <$> ps) P st).
  rewrite admitProcess_trace. split; [apply last_snoc|].
  split; [done|]. split; [done|].
  apply (stepwise_snoc _ _ final); [done|done|].
  right. exists before, P, after. split; [done|]. split.
  { eapply Forall_impl; [exact Hbefore|]. intros p Hp.
    by apply (passedOver_final (process_id <$> ps) st). }
  split.
  { rewrite Hrem. apply list_elem_of_filter. split; [done|].
    by apply list_elem_of_fmap_2. }
  split; [by rewrite Hav|]. split; [done|].
  split; [simpl; by rewrite Hav|]. simpl. rewrite Hrem, list_filter_filter.
  apply list_filter_iff. intros x.
  rewrite not_elem_of_union, not_elem_of_singleton. tauto.
Qed.

(** The steps of a result: each is what a round made of the one before, and
    the last one shows the availability the loop ended with. *)
Lemma finish_trace ps st :
  loopInv ps st -> traceInv ps st ->
  scan (process_id <$> ps) ps st = None ->
  stepwise (roundStep ps) (steps (finish ps st)) /\
  exists final, last (steps (finish ps st)) = Some final /\
                availableResources final = current st.
Proof.
  intros Hinv (final & Hlast & Hav & Hrem & Hstep) Hscan.
  assert (Forall (passedOver final) ps) as Hpassed.
  { pose proof (scan_first (process_id <$> ps) ps st) as Hfirst. rewrite Hscan in Hfirst.
    eapply Forall_impl; [exact Hfirst|]. intros p Hp.
    by apply (passedOver_final (process_id <$> ps) st). }
  unfold finish, deadlockResult, safeResult.
  destruct (decide (size (finished st) < length ps)%nat) as [Hlt|Hge]; simpl.
  - split; [|eexists; split; [apply last_snoc|done]].
    apply (stepwise_snoc _ _ final); [done|done|]. left. simpl.
    split; [done|]. split; [done|]. split; [|done].
    by rewrite Hrem, filter_unfinished_ids.
  - destruct (decide (1 < length (trace st))%nat) as [Hmany|Hone].
    + split; [|eexists; split; [apply last_snoc|done]].
      apply (stepwise_snoc _ _ final); [done|done|]. left. simpl.
      split; [done|]. split; [done|]. split; [|done]. rewrite Hrem. symmetry.
      apply filter_none. apply Forall_forall. intros x Hx Hnot.
      destruct Hinv as [Hf Hnd Hids Htr].
      assert (sequence st ≡ₚ process_id <$> ps) as Hperm.
      { apply submseteq_length_Permutation; [by apply NoDup_submseteq|].
        rewrite length_fmap. rewrite Hf, size_list_to_set in Hge by done. lia. }
      apply Hnot. rewrite Hf, elem_of_list_to_set, Hperm. done.
    + split; [done|]. by exists final.
Qed.

Lemma rounds_traceInv ps k av st :
  rounds (process_id <$> ps) ps k (initialState (process_id <$> ps) av) = Some st ->
  traceInv ps st.
Proof.
  apply (rounds_invariant (traceInv ps)); [|apply traceInv_initial].
  intros s s'. apply traceInv_scan.
Qed.

(** What holds of the first step and is kept from each step to the next
    holds of every step. *)
Lemma stepwise_invariant (I : DetectionStep -> Prop)
    (R : DetectionStep -> DetectionStep -> Prop) first rest :
  I first -> (forall s s', I s -> R s s' -> I s') ->
  stepwise R (first :: rest) ->
  stepwise (fun s s' => I s /\ R s s') (first :: rest).
Proof.
  intros Hfirst Hkeep Hstep.
  assert (forall i s, (first :: rest) !! i = Some s -> I s) as Hall.
  { induction i as [|i IH]; intros s Hs; [by injection Hs as <-|].
    destruct (lookup_lt_is_Some_2 (first :: rest) i) as [s0 Hs0].
    { apply lookup_lt_Some in Hs. lia. }
    apply (Hkeep s0); [by apply IH|by apply (Hstep i)]. }
  intros i s s' Hs Hs'. split; [by apply (Hall i)|by apply (Hstep i)].
Qed.

Lemma elem_of_middle {A} (before after : list A) x : x ∈ before ++ x :: after.
Proof. apply elem_of_app. right. by left. Qed.

(** A round keeps a balanced availability balanced. *)
Lemma roundStep_balanced ps s s' :
  Forall plainProcess ps ->
  balanced ps (remainingProcesses s) (availableResources s) ->
  roundStep ps s s' ->
  balanced ps (remainingProcesses s') (availableResources s').
Proof.
  intros Hplain Hbal
    [(_ & -> & -> & _)|(before & P & after & Hps & _ & Hrem & _ & _ & -> & ->)]; [done|].
  assert (P ∈ ps) as HP by (rewrite Hps; apply elem_of_middle).
  apply (balanced_release ps (remainingProcesses s)); try done.
  - rewrite Forall_forall in Hplain. by apply Hplain.
  - by intros x [? ?]%list_elem_of_filter.
Qed.

Lemma passedOver_not_qualifies s p :
  plainProcess p -> numeric (availableResources s) ->
  passedOver s p -> ~ qualifies s p.
Proof.
  intros Hplain Hnum [Hnot|Hcan] [Hin Hsat]; [done|].
  apply canFinish_satisfiable in Hsat; [congruence|done|done].
Qed.

(** On a balanced availability and with plain keys, what a round does is
    what the specification says of it. *)
Lemma roundStep_admitsFirst ps s s' :
  Forall plainProcess ps ->
  balanced ps (remainingProcesses s) (availableResources s) ->
  roundStep ps s s' -> admitsFirst ps s s'.
Proof.
  intros Hplain Hbal. pose proof Hbal as [Hnum _]. rewrite Forall_forall in Hplain.
  intros [(Hnone & _ & _ & Hall)
         |(before & P & after & Hps & Hbefore & Hrem & Hcan & Hone & Hav & Hrest)].
  - left. split; [done|]. apply Forall_forall. intros p Hp.
    rewrite Forall_forall in Hall. apply passedOver_not_qualifies; auto.
  - assert (P ∈ ps) as HP by (rewrite Hps; apply elem_of_middle).
    right. exists before, P, after. split; [done|]. split.
    { apply Forall_forall. intros p Hp. rewrite Forall_forall in Hbefore.
      apply passedOver_not_qualifies; auto.
      apply Hplain. rewrite Hps. apply elem_of_app. by left. }
    split; [split; [done|by apply canFinish_satisfiable; auto]|].
    split; [done|]. split; [|done]. rewrite Hav.
    apply (balanced_release ps (remainingProcesses s)
             (filter (fun id => id <> process_id P) (remainingProcesses s))); auto.
    by intros x [? ?]%list_elem_of_filter.
Qed.

Lemma roundStep_follows ps s s' :
  Forall plainProcess ps ->
  balanced ps (remainingProcesses s) (availableResources s) ->
  roundStep ps s s' -> follows ps s s'.
Proof.
  intros Hplain Hbal. pose proof Hbal as [Hnum _]. rewrite Forall_forall in Hplain.
  intros [(Hnone & Hav & Hrem & _)
         |(before & P & after & Hps & _ & Hrem & Hcan & Hone & Hav & Hrest)].
  - by left.
  - assert (P ∈ ps) as HP by (rewrite Hps; apply elem_of_middle).
    right. exists P. split; [done|]. split; [done|]. split; [done|].
    split; [by apply canFinish_satisfiable; auto|]. split; [|done]. rewrite Hav.
    apply (balanced_release ps (remainingProcesses s)
             (filter (fun id => id <> process_id P) (remainingProcesses s))); auto.
    by intros x [? ?]%list_elem_of_filter.
Qed.

(** A run with enough fuel, with what holds of the state it ends in. *)
Lemma detectDeadlock_final_state h matrix v fuel :
  holds h matrix v ->
  (length (v_processes v) < fuel)%nat ->
  exists h' l stf,
    detectDeadlock fuel matrix h = Some (Some (finish (v_processes v) stf), h') /\
    stf = admitAll (process_id <$> v_processes v)
            (initialState (process_id <$> v_processes v) (initialAvailable v)) l /\
    Forall (fun p => p ∈ v_processes v) l /\
    NoDup (process_id <$> l) /\
    loopInv (v_processes v) stf /\
    traceInv (v_processes v) stf /\
    scan (process_id <$> v_processes v) (v_processes v) stf = None.
Proof.
  intros Hden Hfuel.
  destruct (detectDeadlock_detect _ _ _ fuel Hden) as (h' & Hrun & _).
  unfold detect in Hrun.
  destruct (whileLoop_run (v_processes v) fuel
              (initialState (process_id <$> v_processes v) (initialAvailable v)))
    as (k & stf & Hk & Hscan & Hloop).
  { apply loopInv_initial. }
  { simpl. lia. }
  destruct (rounds_admitAll _ _ _ _ _ Hk) as (l & _ & Hstf & Hin & _ & Hnd & _).
  exists h', l, stf.
  split; [by rewrite Hrun, Hloop|].
  split; [done|]. split; [done|]. split; [done|].
  split; [by apply (rounds_initial _ _ _ _ Hk)|].
  split; [by apply (rounds_traceInv _ _ _ _ Hk)|done].
Qed.

(** X5: every process whose id ends up in [deadlocked] is really blocked
    at the end of the run: it has a request entry with a strictly positive
    amount above the amount of that resource in the availability of the
    last step (a missing amount is 0). *)
Theorem detectDeadlock_deadlocked_are_blocked h matrix v fuel :
  denotes h matrix v ->
  (length (v_processes v) < fuel)%nat ->
  exists r h' final,
    detectDeadlock fuel matrix h = Some (Some r, h') /\
    last (steps r) = Some final /\
    forall p, p ∈ v_processes v -> process_id p ∈ deadlocked r ->
      exists rid q,
        request p !! rid = Some q /\ 0 < q /\
        amountOf (availableResources final) rid < q.
Proof.
  intros [Hden Hdbl] Hfuel.
  destruct (detectDeadlock_final_state _ _ _ _ Hden Hfuel)
    as (h' & l & stf & Hrun & _ & _ & _ & Hinv & Htrace & Hscan).
  destruct (finish_trace _ _ Hinv Htrace Hscan) as (_ & final & Hlast & Hav).
  exists (finish (v_processes v) stf), h', final.
  split; [done|]. split; [done|].
  intros p Hp. unfold finish.
  destruct (decide (size (finished stf) < length (v_processes v))%nat); simpl.
  - intros [_ Hnot]%elem_of_unfinished. rewrite Hav.
    destruct (scan_None_all _ _ _ _ Hscan Hp) as [Hfin|Hcan]; [done|].
    by apply canFinish_false_blocking.
  - intros Hin. by apply elem_of_nil in Hin.
Qed.

(** X5 at scenario A. *)
Lemma detectDeadlock_deadlocked_are_blocked_scenarioA :
  exists r h' final,
    detectDeadlock 3 scenarioA scenarioA_store = Some (Some r, h') /\
    last (steps r) = Some final /\
    forall p, p ∈ v_processes scenarioA_value -> process_id p ∈ deadlocked r ->
      exists rid q,
        request p !! rid = Some q /\ 0 < q /\
        amountOf (availableResources final) rid < q.
Proof.
  apply (detectDeadlock_deadlocked_are_blocked scenarioA_store scenarioA scenarioA_value 3).
  - denotes_example.
  - simpl. lia.
Defined.

(** A run with enough fuel on a matrix with plain ids and amounts within
    2^53: every step is what a round made of the step before it, whose
    availability is balanced. *)
Lemma detectDeadlock_balanced_steps h matrix v fuel :
  holds h matrix v ->
  plainIds v ->
  safeAmounts v ->
  (length (v_processes v) < fuel)%nat ->
  exists r h',
    detectDeadlock fuel matrix h = Some (Some r, h') /\
    stepwise (fun s s' =>
        balanced (v_processes v) (remainingProcesses s) (availableResources s) /\
        roundStep (v_processes v) s s')
      (steps r).
Proof.
  intros Hden [Hplain _] Hsafe Hfuel.
  destruct (detectDeadlock_final_state _ _ _ _ Hden Hfuel)
    as (h' & l & stf & Hrun & Hstf & _ & _ & Hinv & Htrace & Hscan).
  destruct (finish_trace _ _ Hinv Htrace Hscan) as [Hstep _].
  destruct (finish_first_step (v_processes v) (process_id <$> v_processes v)
              (initialAvailable v) l) as (rest & Hsteps).
  rewrite <- Hstf in Hsteps.
  exists (finish (v_processes v) stf), h'. split; [done|].
  rewrite Hsteps in *. apply stepwise_invariant; [| |done].
  - simpl. by apply balanced_initial.
  - intros s s'. by apply roundStep_balanced.
Qed.

(** C1, amended: for every matrix whose ids are no names that every object
    inherits ([plainIds]) and whose amounts are small enough for the sums to
    be exact ([safeAmounts]), each step of the result after the first is
    what one round of the loop made of the step before it: the round scans
    the processes in list order and admits exactly the first one whose id is
    still remaining and whose every strictly positive request is within the
    available amount of its resource (absent, zero and negative requests do
    not count, and a resource without entry has amount 0); every allocation
    entry of the admitted process is added to the available amounts, its id
    leaves the remaining ids, and nothing else is admitted in the round.
    When no process qualifies, the step admits none. *)
Theorem detectDeadlock_admits_first h matrix v fuel :
  denotes h matrix v ->
  plainIds v ->
  safeAmounts v ->
  (length (v_processes v) < fuel)%nat ->
  exists r h',
    detectDeadlock fuel matrix h = Some (Some r, h') /\
    stepwise (admitsFirst (v_processes v)) (steps r).
Proof.
  intros [Hden Hdbl] Hplain Hsafe Hfuel.
  destruct (detectDeadlock_balanced_steps _ _ _ _ Hden Hplain Hsafe Hfuel)
    as (r & h' & Hrun & Hstep).
  exists r, h'. split; [done|]. intros i s s' Hs Hs'.
  destruct (Hstep i s s' Hs Hs') as [Hbal Hround].
  apply roundStep_admitsFirst; [by destruct Hplain|done|done].
Qed.

(** C1, amended, at scenario B. *)
Lemma detectDeadlock_admits_first_scenarioB :
  exists r h',
    detectDeadlock 4 scenarioB scenarioB_store = Some (Some r, h') /\
    stepwise (admitsFirst (v_processes scenarioB_value)) (steps r).
Proof.
  apply (detectDeadlock_admits_first scenarioB_store scenarioB scenarioB_value 4).
  - denotes_example.
  - by_evaluation.
  - by_evaluation.
  - simpl. lia.
Defined.

(** C1 as stated fails when a request names a property that every object
    inherits: [needy] requests one unit of "toString" in a matrix without
    resources, so the amount available of it is 0 and the request is not
    within it; line 100 reads the inherited function, the comparison of line
    101 is false, and the first round admits [needy]: the run is reported
    safe. *)
Lemma detectDeadlock_inherited_request :
  exists r h' first second,
    denotes inherited_store inherited inherited_value /\
    safeAmounts inherited_value /\
    ~ plainIds inherited_value /\
    detectDeadlock 2 inherited inherited_store = Some (Some r, h') /\
    steps r !! 0%nat = Some first /\
    steps r !! 1%nat = Some second /\
    request needy !! "toString" = Some 1 /\
    amountOf (availableResources first) "toString" = 0 /\
    ~ qualifies first needy /\
    processedThisRound second = [process_id needy] /\
    safeSequence r = Some ["P1"] /\
    ~ admitsFirst (v_processes inherited_value) first second.
Proof.
  eexists _, _, _, _.
  split; [denotes_example|].
  split; [by_evaluation|].
  split; [by_evaluation|].
  split; [vm_compute; reflexivity|].
  split; [reflexivity|]. split; [reflexivity|].
  split; [reflexivity|]. split; [reflexivity|].
  assert (forall s, amountOf (availableResources s) "toString" = 0 -> ~ qualifies s needy)
    as Hnot.
  { intros s Hs [_ Hsat]. specialize (Hsat "toString" 1 eq_refl). lia. }
  split; [by apply Hnot|]. split; [reflexivity|]. split; [reflexivity|].
  intros [[Hnone _]|(before & P & after & Heq & _ & Hq & _)]; [done|].
  destruct before as [|b before]; simpl in Heq.
  - injection Heq as <- _. by apply Hnot in Hq.
  - injection Heq as _ Heq. by destruct before.
Qed.

(** X6: for a matrix whose ids are no names that every object inherits
    ([plainIds]) and whose amounts are small enough for the sums to be exact
    ([safeAmounts]), each step of a result follows from the step before it.
    A step that admits a process admits one of the matrix whose id the
    previous step listed as remaining and whose strictly positive requests
    the previous amounts cover; its availability is the previous one with
    every allocation entry of that process added to the amount under its id
    ([givenBack]: the sum is the exact one, and the other entries are
    unchanged), and its remaining ids are the previous ones without that id.
    A step that admits nobody (the closing step) repeats the previous
    availability and remaining ids. *)
Theorem detectDeadlock_steps_follow h matrix v fuel :
  denotes h matrix v ->
  plainIds v ->
  safeAmounts v ->
  (length (v_processes v) < fuel)%nat ->
  exists r h',
    detectDeadlock fuel matrix h = Some (Some r, h') /\
    stepwise (follows (v_processes v)) (steps r).
Proof.
  intros [Hden Hdbl] Hplain Hsafe Hfuel.
  destruct (detectDeadlock_balanced_steps _ _ _ _ Hden Hplain Hsafe Hfuel)
    as (r & h' & Hrun & Hstep).
  exists r, h'. split; [done|]. intros i s s' Hs Hs'.
  destruct (Hstep i s s' Hs Hs') as [Hbal Hround].
  apply roundStep_follows; [by destruct Hplain|done|done].
Qed.

(** X6 at scenario B. *)
Lemma detectDeadlock_steps_follow_scenarioB :
  exists r h',
    detectDeadlock 4 scenarioB scenarioB_store = Some (Some r, h') /\
    stepwise (follows (v_processes scenarioB_value)) (steps r).
Proof.
  apply (detectDeadlock_steps_follow scenarioB_store scenarioB scenarioB_value 4).
  - denotes_example.
  - by_evaluation.
  - by_evaluation.
  - simpl. lia.
Defined.

(** Line 34 keeps a double a double. *)
Lemma foldl_subtractAt_double rs j (a : Z) (es : list (string * Z)) :
  isDouble a -> isDouble (foldl (subtractAt rs j) a es).
Proof.
  revert a. induction es as [|e es IH]; intros a Ha; simpl; [done|].
  apply IH. unfold subtractAt.
  destruct (decide (firstIndex rs e.1 = Some j)); [apply isDouble_fl|done].
Qed.

(** The loop starts on numbers that are doubles. *)
Lemma initialAvailable_doubles v : doubles v -> doubleAmounts (initialAvailable v).
Proof.
  intros [_ Hrs] rid n Hn. unfold initialAvailable, availableOf in Hn.
  apply availableOf_fold_elem in Hn as [Hn|(r' & Hr' & Hn)];
    [by rewrite lookup_empty in Hn|].
  injection Hn as ->.
  unfold recomputedResources in Hr'. apply list_elem_of_lookup in Hr' as [j Hj].
  rewrite list_lookup_imap in Hj.
  destruct (v_resources v !! j) as [r|] eqn:Hr; [|done]. injection Hj as <-. simpl.
  apply foldl_subtractAt_double. rewrite Forall_forall in Hrs.
  by destruct (Hrs r (list_elem_of_lookup_2 _ _ _ Hr)).
Qed.

(** Line 111 for an entry with a non-negative amount: the numbers stay
    doubles, and no amount decreases. *)
Lemma assign_plus_monotone av k a :
  doubleAmounts av -> 0 <= a ->
  doubleAmounts (assign av k (plus (readOr0 av k) a)) /\
  forall rid, amountOf av rid <= amountOf (assign av k (plus (readOr0 av k) a)) rid.
Proof.
  intros Hdbl Ha. unfold assign.
  destruct (decide (k = "__proto__")); [by split|]. split.
  - intros rid m. destruct (decide (k = rid)) as [<-|Hne].
    + rewrite lookup_insert_eq. intros [= Hm].
      destruct (readOr0 av k); [|done]. injection Hm as <-. apply isDouble_fl.
    + rewrite lookup_insert_ne by done. apply Hdbl.
  - intros rid. unfold amountOf at 2. destruct (decide (k = rid)) as [<-|Hne].
    + rewrite lookup_insert_eq. unfold readOr0, amountOf.
      destruct (av !! k) as [[m|]|] eqn:Hk; simpl.
      * pose proof (fl_mono m (m + a) ltac:(lia)) as Hle.
        rewrite (Hdbl k m Hk) in Hle. done.
      * done.
      * destruct (decide (k ∈ inheritedNames)); simpl; [done|].
        by apply fl_nonneg.
    + rewrite lookup_insert_ne by done. done.
Qed.

(** Lines 110-112 for a process that holds no negative amount. *)
Lemma release_monotone p av :
  doubleAmounts av -> map_Forall (fun _ a => 0 <= a) (allocation p) ->
  doubleAmounts (release p av) /\
  forall rid, amountOf av rid <= amountOf (release p av) rid.
Proof.
  intros Hdbl Hpos. unfold release.
  assert (Forall (fun e : string * Z => 0 <= e.2) (map_to_list (allocation p))) as Hall.
  { apply Forall_forall. intros [k a] Hin%elem_of_map_to_list. by apply (Hpos k a). }
  revert av Hdbl. induction Hall as [|e l He _ IH]; intros av Hdbl; simpl.
  - split; [done|]. intros rid. lia.
  - destruct (assign_plus_monotone av e.1 e.2 Hdbl He) as [Hdbl' Hle].
    destruct (IH _ Hdbl') as [Hdbl'' Hle']. split; [done|].
    intros rid. specialize (Hle rid). specialize (Hle' rid). lia.
Qed.

(** X7: when no process holds a negative amount, the available amount of
    every resource id (0 when there is no entry) never decreases from one
    step of the result to the next. *)
Theorem detectDeadlock_available_never_decreases h matrix v fuel :
  denotes h matrix v ->
  (length (v_processes v) < fuel)%nat ->
  nonNegativeAllocations (v_processes v) ->
  exists r h',
    detectDeadlock fuel matrix h = Some (Some r, h') /\
    stepwise (fun s s' =>
        forall rid, amountOf (availableResources s) rid
                    <= amountOf (availableResources s') rid)
      (steps r).
Proof.
  intros [Hden Hdbl] Hfuel Hnonneg.
  destruct (detectDeadlock_final_state _ _ _ _ Hden Hfuel)
    as (h' & l & stf & Hrun & Hstf & _ & _ & Hinv & Htrace & Hscan).
  exists (finish (v_processes v) stf), h'. split; [done|].
  destruct (finish_trace _ _ Hinv Htrace Hscan) as [Hstep _].
  destruct (finish_first_step (v_processes v) (process_id <$> v_processes v)
              (initialAvailable v) l) as (rest & Hsteps).
  rewrite <- Hstf in Hsteps. rewrite Hsteps in *.
  unfold nonNegativeAllocations in Hnonneg. rewrite Forall_forall in Hnonneg.
  assert (forall s s', doubleAmounts (availableResources s) ->
            roundStep (v_processes v) s s' ->
            doubleAmounts (availableResources s') /\
            forall rid, amountOf (availableResources s) rid
                        <= amountOf (availableResources s') rid) as Hround.
  { intros s s' Hs
      [(_ & -> & _)|(before & P & after & Hps & _ & _ & _ & _ & -> & _)].
    - split; [done|]. intros rid. lia.
    - apply release_monotone; [done|]. apply Hnonneg. rewrite Hps.
      apply elem_of_middle. }
  apply (stepwise_invariant (fun s => doubleAmounts (availableResources s))) in Hstep;
    [|by apply initialAvailable_doubles|intros s s' Hs Hr; by apply (Hround s s')].
  intros i s s' Hs Hs'. destruct (Hstep i s s' Hs Hs') as [Hd Hr]. by apply Hround.
Qed.

(** X7 at scenario B. *)
Lemma detectDeadlock_available_never_decreases_scenarioB :
  exists r h',
    detectDeadlock 4 scenarioB scenarioB_store = Some (Some r, h') /\
    stepwise (fun s s' =>
        forall rid, amountOf (availableResources s) rid
                    <= amountOf (availableResources s') rid)
      (steps r).
Proof.
  apply (detectDeadlock_available_never_decreases
           scenarioB_store scenarioB scenarioB_value 4).
  - denotes_example.
  - simpl. lia.
  - apply (bool_decide_unpack _). vm_compute. exact I.
Defined.

(** ** Deadlock means that no order is safe *)

Lemma sumZ_Permutation l1 l2 : l1 ≡ₚ l2 -> sumZ l1 = sumZ l2.
Proof. induction 1; simpl; lia. Qed.

Lemma sumZ_nonneg l : Forall (fun x => 0 <= x) l -> 0 <= sumZ l.
Proof. induction 1; simpl; lia. Qed.

(** Part of the processes release no more than all of them, when nobody
    holds a negative amount. *)
Lemma sumZ_submseteq {A} (f : A -> Z) (l1 l2 : list A) :
  l1 ⊆+ l2 -> Forall (fun x => 0 <= f x) l2 ->
  sumZ (map f l1) <= sumZ (map f l2).
Proof.
  intros [k Hk]%submseteq_Permutation Hpos.
  rewrite (sumZ_Permutation (map f l2) (map f (l1 ++ k))).
  2:{ apply Permutation_map. exact Hk. }
  rewrite map_app, sumZ_app.
  assert (0 <= sumZ (map f k)); [|lia].
  apply sumZ_nonneg. rewrite Hk in Hpos. apply Forall_app in Hpos as [_ Hpos].
  clear -Hpos. induction Hpos; constructor; done.
Qed.

Lemma allocation_nonneg ps p (rid : string) :
  nonNegativeAllocations ps -> p ∈ ps -> 0 <= default 0 (allocation p !! rid).
Proof.
  unfold nonNegativeAllocations. rewrite Forall_forall. intros Hall Hp.
  destruct (allocation p !! rid) as [a|] eqn:Ha; simpl; [|lia].
  by apply (Hall p Hp rid a).
Qed.

(** On a balanced availability and with plain keys, the entries of the
    processes admitted in turn are added exactly. *)
Lemma releaseAll_exact ps (waiting : list string) av l :
  Forall plainProcess ps ->
  balanced ps waiting av ->
  Forall (fun p => p ∈ ps) l ->
  NoDup (process_id <$> l) ->
  Forall (fun p => process_id p ∈ waiting) l ->
  numeric (releaseAll av l) /\
  forall rid, amountOf (releaseAll av l) rid
              = amountOf av rid + sumZ (map (fun p => default 0 (allocation p !! rid)) l).
Proof.
  intros Hplain. revert waiting av.
  induction l as [|p l IH]; intros waiting av Hbal Hin Hnd Hw.
  - simpl. split; [by destruct Hbal|]. intros rid. lia.
  - apply Forall_cons in Hin as [Hp Hin]. apply Forall_cons in Hw as [Hpw Hw].
    rewrite fmap_cons in Hnd. apply NoDup_cons in Hnd as [Hfresh Hnd].
    assert (plainProcess p) as Hpp by (rewrite Forall_forall in Hplain; by apply Hplain).
    destruct (balanced_release ps waiting
                (filter (fun x => x <> process_id p) waiting) av p Hbal Hpp Hp Hpw)
      as [Hgb Hbal'].
    { by intros x [? ?]%list_elem_of_filter. }
    destruct (IH (filter (fun x => x <> process_id p) waiting) (release p av))
      as [Hnum Hsum]; try done.
    { apply Forall_forall. intros q Hq. apply list_elem_of_filter. split.
      - intros Heq. apply Hfresh. rewrite <- Heq. by apply list_elem_of_fmap_2.
      - rewrite Forall_forall in Hw. by apply Hw. }
    change (releaseAll av (p :: l)) with (releaseAll (release p av) l).
    split; [done|]. intros rid.
    rewrite Hsum, (givenBack_amountOf p av _ rid Hgb). unfold released. simpl. lia.
Qed.

(** A safe order cannot leave the processes the run admitted: from the
    amounts [g] reached once a part [pre] of the admitted processes has
    given back what it held, whoever a safe order runs next can also finish
    in the final state of the run, so the run admitted it. *)
Lemma safeOrder_within_admitted ps (f g : string -> Z) (l : list Process) st pre rest :
  NoDup (process_id <$> ps) ->
  nonNegativeAllocations ps ->
  Forall plainProcess ps ->
  Forall (fun p => p ∈ ps) l ->
  finished st = list_to_set (process_id <$> l) ->
  numeric (current st) ->
  (forall rid, amountOf (current st) rid
               = f rid + sumZ (map (fun p => default 0 (allocation p !! rid)) l)) ->
  scan (process_id <$> ps) ps st = None ->
  NoDup (pre ++ rest) ->
  Forall (fun p => p ∈ l) pre ->
  Forall (fun p => p ∈ ps) rest ->
  (forall rid, g rid = f rid + sumZ (map (fun p => default 0 (allocation p !! rid)) pre)) ->
  safeOrder g rest ->
  Forall (fun p => p ∈ l) rest.
Proof.
  intros Hids Hnonneg Hplain Hl Hfin Hnum Hcur Hscan.
  revert pre g. induction rest as [|Q rest IH]; intros pre g Hnd Hpre Hrest Hg Hsafe.
  - constructor.
  - apply Forall_cons in Hrest as [HQ Hrest]. destruct Hsafe as [HsatQ Hsafe].
    assert (Q ∈ l) as HQl.
    { destruct (scan_None_all _ _ _ _ Hscan HQ) as [Hin|Hcan].
      - rewrite Hfin in Hin. apply elem_of_list_to_set, list_elem_of_fmap in Hin
          as (p & Heq & Hp).
        rewrite Forall_forall in Hl.
        by rewrite (same_id_same_process ps Q p Hids HQ (Hl p Hp) Heq).
      - exfalso. assert (canFinish Q (current st) = true) as Htrue; [|congruence].
        apply canFinish_satisfiable; [|done|].
        { rewrite Forall_forall in Hplain. by apply Hplain. }
        apply (satisfiable_mono Q g); [|done].
        intros rid. rewrite Hcur, Hg.
        assert (sumZ (map (fun p => default 0 (allocation p !! rid)) pre)
                <= sumZ (map (fun p => default 0 (allocation p !! rid)) l)); [|lia].
        apply sumZ_submseteq.
        + apply NoDup_submseteq; [|by apply Forall_forall].
          by apply NoDup_app in Hnd as [? _].
        + eapply Forall_impl; [exact Hl|]. intros p Hp. simpl.
          by apply (allocation_nonneg ps). }
    constructor; [done|]. apply (IH (pre ++ [Q]) (released Q g)).
    + by rewrite <- app_assoc.
    + apply Forall_app. split; [done|]. by constructor.
    + done.
    + intros rid. unfold released. rewrite Hg, map_app, sumZ_app. simpl. lia.
    + done.
Qed.

Lemma admitAll_initial_finished ids av l :
  finished (admitAll ids (initialState ids av) l) = list_to_set (process_id <$> l).
Proof. rewrite admitAll_finished. simpl. by rewrite union_empty_l_L. Qed.

(** When the run from a balanced availability [av] ends in a deadlock, no
    order of all the processes is safe from the amounts of [av]. *)
Lemma finish_deadlock_unsafe (ps : list Process) av (l : list Process) stf :
  stf = admitAll (process_id <$> ps) (initialState (process_id <$> ps) av) l ->
  Forall (fun p => p ∈ ps) l ->
  NoDup (process_id <$> l) ->
  loopInv ps stf ->
  scan (process_id <$> ps) ps stf = None ->
  NoDup (process_id <$> ps) ->
  nonNegativeAllocations ps ->
  Forall plainProcess ps ->
  balanced ps (process_id <$> ps) av ->
  safeSequence (finish ps stf) = None ->
  forall order, order ≡ₚ ps -> ~ safeOrder (amountOf av) order.
Proof.
  intros Hstf Hl Hlnd Hinv Hscan Hids Hnonneg Hplain Hbal. unfold finish.
  destruct (decide (size (finished stf) < length ps)%nat) as [Hlt|Hge];
    simpl; [|done].
  intros _ order Hperm Hsafe.
  assert (NoDup ps) as Hps by (by apply NoDup_fmap_1 in Hids).
  destruct (releaseAll_exact ps (process_id <$> ps) av l) as [Hnum Hsum]; try done.
  { eapply Forall_impl; [exact Hl|]. intros p Hp. by apply list_elem_of_fmap_2. }
  assert (current stf = releaseAll av l) as Hcur.
  { rewrite Hstf. apply admitAll_current. }
  assert (Forall (fun p => p ∈ l) order) as Hall.
  { apply (safeOrder_within_admitted ps (amountOf av) (amountOf av) l stf []); try done.
    - rewrite Hstf. apply admitAll_initial_finished.
    - by rewrite Hcur.
    - intros rid. by rewrite Hcur.
    - simpl. by rewrite Hperm.
    - apply Forall_forall. intros p Hp. by rewrite <- Hperm.
    - intros rid. simpl. lia. }
  assert (ps ⊆+ l) as Hsub.
  { apply NoDup_submseteq; [done|]. intros p Hp.
    rewrite Forall_forall in Hall. apply Hall. by rewrite Hperm. }
  apply submseteq_length in Hsub.
  rewrite (loopInv_size _ _ Hinv), Hstf, admitAll_initial_sequence, length_fmap in Hlt.
  lia.
Qed.

(** X8: for a matrix with unique process ids in which no process holds a
    negative amount, whose ids are no names that every object inherits
    ([plainIds]) and whose amounts are small enough for the sums to be exact
    ([safeAmounts]), a deadlock verdict is right: when [safeSequence] is
    null, no order of all the processes is a safe order from the amounts of
    the first step ([safeOrder]: each process's strictly positive requests
    within those amounts plus the allocation entries of the processes before
    it). *)
Theorem detectDeadlock_deadlock_means_unsafe h matrix v fuel :
  denotes h matrix v ->
  plainIds v ->
  safeAmounts v ->
  (length (v_processes v) < fuel)%nat ->
  NoDup (process_id <$> v_processes v) ->
  nonNegativeAllocations (v_processes v) ->
  exists r h' first rest,
    detectDeadlock fuel matrix h = Some (Some r, h') /\
    steps r = first :: rest /\
    (safeSequence r = None ->
     forall order, order ≡ₚ v_processes v ->
       ~ safeOrder (amountOf (availableResources first)) order).
Proof.
  intros [Hden Hdbl] [Hplain _] Hsafe Hfuel Hids Hnonneg.
  destruct (detectDeadlock_final_state _ _ _ _ Hden Hfuel)
    as (h' & l & stf & Hrun & Hstf & Hl & Hnd & Hinv & _ & Hscan).
  destruct (finish_first_step (v_processes v) (process_id <$> v_processes v)
              (initialAvailable v) l) as (rest & Hsteps).
  rewrite <- Hstf in Hsteps.
  eexists _, h', _, rest. split; [exact Hrun|]. split; [exact Hsteps|]. simpl.
  apply (finish_deadlock_unsafe _ _ l stf); try done.
  by apply balanced_initial.
Qed.

(** X8 at scenario A. *)
Lemma detectDeadlock_deadlock_means_unsafe_scenarioA :
  exists r h' first rest,
    detectDeadlock 3 scenarioA scenarioA_store = Some (Some r, h') /\
    steps r = first :: rest /\
    (safeSequence r = None ->
     forall order, order ≡ₚ v_processes scenarioA_value ->
       ~ safeOrder (amountOf (availableResources first)) order).
Proof.
  apply (detectDeadlock_deadlock_means_unsafe scenarioA_store scenarioA scenarioA_value 3).
  - denotes_example.
  - by_evaluation.
  - by_evaluation.
  - simpl. lia.
  - by_evaluation.
  - by_evaluation.
Defined.

(** ** What a safe run leaves available *)

Lemma release_is_Some p av (rid : string) :
  is_Some (av !! rid) -> is_Some (release p av !! rid).
Proof.
  intros Hx. unfold release. generalize (map_to_list (allocation p)). intros l.
  revert av Hx. induction l as [|e l IH]; intros av Hx; simpl; [done|].
  apply IH. unfold assign. destruct (decide (e.1 = "__proto__")); [done|].
  destruct (decide (e.1 = rid)) as [<-|Hne].
  - rewrite lookup_insert_eq. by eexists.
  - by rewrite lookup_insert_ne.
Qed.

Lemma releaseAll_is_Some l av (rid : string) :
  is_Some (av !! rid) -> is_Some (releaseAll av l !! rid).
Proof.
  revert av. induction l as [|p l IH]; intros av Hav; [done|].
  apply IH. by apply release_is_Some.
Qed.

(** X9: for a matrix with pairwise distinct resource ids, whose ids are no
    names that every object inherits ([plainIds]) and whose amounts are
    small enough for the sums to be exact ([safeAmounts]), when the run is
    safe the availability of the last step holds, under each resource's id,
    exactly that resource's total: every process has given back what it
    held. *)
Theorem detectDeadlock_safe_run_returns_totals h matrix v fuel :
  denotes h matrix v ->
  plainIds v ->
  safeAmounts v ->
  (length (v_processes v) < fuel)%nat ->
  NoDup (resource_id <$> v_resources v) ->
  exists r h' final,
    detectDeadlock fuel matrix h = Some (Some r, h') /\
    last (steps r) = Some final /\
    (forall s, safeSequence r = Some s ->
       forall res, res ∈ v_resources v ->
         availableResources final !! resource_id res = Some (Num (total res))).
Proof.
  intros [Hden Hdbl] Hplain Hsafe Hfuel Hrids.
  destruct (detectDeadlock_final_state _ _ _ _ Hden Hfuel)
    as (h' & l & stf & Hrun & Hstf & Hl & Hnd & Hinv & Htr & Hscan).
  destruct (finish_trace _ _ Hinv Htr Hscan) as (_ & final & Hlast & Hav).
  eexists _, h', final. split; [exact Hrun|]. split; [exact Hlast|].
  intros s. unfold finish.
  destruct (decide (size (finished stf) < length (v_processes v))%nat) as [Hlt|Hge];
    simpl; [done|].
  intros _ res Hres.
  assert (l ≡ₚ v_processes v) as Hperm.
  { apply (safe_run_admits_all _ stf); try done.
    rewrite Hstf. apply admitAll_initial_sequence. }
  pose proof (initialAvailable_lookup v res Hrids Hres Hsafe
                (plainIds_resource v res Hplain Hres)) as Hinit.
  assert (current stf = releaseAll (initialAvailable v) l) as Hcur.
  { rewrite Hstf. apply admitAll_current. }
  destruct (releaseAll_exact (v_processes v) (process_id <$> v_processes v)
              (initialAvailable v) l) as [Hnum Hsum]; try done.
  { by destruct Hplain. }
  { by apply balanced_initial. }
  { eapply Forall_impl; [exact Hl|]. intros p Hp. by apply list_elem_of_fmap_2. }
  rewrite Hav, Hcur.
  destruct (releaseAll_is_Some l (initialAvailable v) (resource_id res)) as [x Hx];
    [by eexists|].
  specialize (Hsum (resource_id res)). specialize (Hnum (resource_id res)).
  unfold amountOf in Hsum. rewrite Hx, Hinit in Hsum. rewrite Hx.
  destruct x as [n|]; [|done]. do 2 f_equal. rewrite Hsum.
  rewrite (sumZ_Permutation
             (map (fun p => default 0 (allocation p !! resource_id res)) l)
             (map (fun p => default 0 (allocation p !! resource_id res)) (v_processes v))).
  - lia.
  - by apply Permutation_map.
Qed.

(** X9 at scenario B. *)
Lemma detectDeadlock_safe_run_returns_totals_scenarioB :
  exists r h' final,
    detectDeadlock 4 scenarioB scenarioB_store = Some (Some r, h') /\
    last (steps r) = Some final /\
    (forall s, safeSequence r = Some s ->
       forall res, res ∈ v_resources scenarioB_value ->
         availableResources final !! resource_id res = Some (Num (total res))).
Proof.
  apply (detectDeadlock_safe_run_returns_totals scenarioB_store scenarioB scenarioB_value 4).
  - denotes_example.
  - by_evaluation.
  - by_evaluation.
  - simpl. lia.
  - by_evaluation.
Defined.

(** ** A matrix without processes *)

(** X10: on a matrix without processes the single round of the loop
    admits nobody: the result is safe with the empty sequence, nobody is
    deadlocked, and the only step is the initial one (the closing success
    step is left out, because it is added only when the steps hold more
    than the initial one). *)
Theorem detectDeadlock_no_process h matrix v fuel :
  denotes h matrix v ->
  v_processes v = [] ->
  (0 < fuel)%nat ->
  exists h',
    detectDeadlock fuel matrix h
    = Some (Some {| deadlocked := [];
                    safeSequence := Some [];
                    steps := [ {| description := "Initial available resources";
                                  remainingProcesses := [];
                                  availableResources := initialAvailable v;
                                  processedThisRound := [] |} ] |}, h').
Proof.
  intros [Hden Hdbl] Hnil Hfuel.
  destruct (detectDeadlock_detect h matrix v fuel Hden) as (h' & Hrun & _).
  exists h'. rewrite Hrun. do 2 f_equal.
  unfold detect. rewrite Hnil. destruct fuel as [|fuel]; [lia|]. reflexivity.
Qed.

(** X10 at a matrix with two resources and no process. *)
Lemma detectDeadlock_no_process_unused :
  exists h',
    detectDeadlock 1 unused unused_store
    = Some (Some {| deadlocked := [];
                    safeSequence := Some [];
                    steps := [ {| description := "Initial available resources";
                                  remainingProcesses := [];
                                  availableResources := initialAvailable unused_value;
                                  processedThisRound := [] |} ] |}, h').
Proof.
  apply (detectDeadlock_no_process unused_store unused unused_value 1).
  - denotes_example.
  - reflexivity.
  - lia.
Defined.

(** ** Recomputing twice *)

(** Stores that hold, at each reference of [rs], resources with the same id
    give [resources.find] the same answer. *)
Lemma firstWithId_same_ids h h' (rs : list loc) (rid : string) :
  (forall l, l ∈ rs ->
     match h !! l, h' !! l with
     | Some (ResourceObj r), Some (ResourceObj r') => resource_id r = resource_id r'
     | _, _ => False
     end) ->
  firstWithId h' rs rid = firstWithId h rs rid.
Proof.
  induction rs as [|l rs IH]; intros Hids; [done|]. simpl.
  pose proof (Hids l ltac:(by left)) as Hl.
  destruct (h !! l) as [[p|r]|]; try done.
  destruct (h' !! l) as [[p'|r']|]; try done.
  rewrite <- Hl. destruct (decide _); [done|].
  apply IH. intros l' Hl'. apply Hids. by right.
Qed.

(** X11: [calculateAvailableResources] recomputes from the totals, so a
    second call changes nothing: run on the store the first call left, it
    returns the same references and leaves that store as it is. *)
Theorem calculateAvailableResources_twice h matrix v :
  denotes h matrix v ->
  exists h',
    calculateAvailableResources matrix h = Some (resources matrix, h') /\
    calculateAvailableResources matrix h' = Some (resources matrix, h').
Proof.
  intros [Hden Hdbl].
  destruct (wp_elim _ _ _ (wp_calculateAvailableResources h matrix v Hden))
    as (out & h1 & Hrun & -> & Hout & Hin).
  exists h1. split; [done|].
  set (acc := availableAt h (resources matrix) (v_processes v)) in *.
  assert (forall l r, l ∈ resources matrix -> h !! l = Some (ResourceObj r) ->
            h1 !! l = Some (ResourceObj (set_available r (acc l)))) as Hin'
    by done.
  assert (exists v1, holds h1 matrix v1 /\ v_processes v1 = v_processes v)
    as (v1 & Hden1 & Hps1).
  { destruct Hden as [Hps Hrs].
    assert (exists rs1, Forall2 (fun l r => h1 !! l = Some (ResourceObj r))
                          (resources matrix) rs1) as [rs1 Hrs1].
    { assert (forall ls, (forall l, l ∈ ls -> l ∈ resources matrix) ->
                exists rs1, Forall2 (fun l r => h1 !! l = Some (ResourceObj r)) ls rs1)
        as Hgen.
      { induction ls as [|l ls IH]; intros Hsub; [by exists []|].
        destruct IH as [rs1 Hrs1]; [intros l' Hl'; apply Hsub; by right|].
        destruct (Forall2_elem_l _ _ _ l Hrs (Hsub l ltac:(by left))) as (r & _ & Hr).
        eexists (_ :: rs1). constructor; [|done].
        apply (Hin' l r); [apply Hsub; by left|done]. }
      by apply Hgen. }
    exists (mkValue (v_processes v) rs1). split; [|done]. split; [|done]. simpl.
    eapply Forall2_impl_elem; [exact Hps|]. intros l p Hl _ Hp. simpl in Hp.
    rewrite Hout; [done|]. intros Hl'.
    destruct (Forall2_elem_l _ _ _ l Hrs Hl') as (r & _ & Hr). congruence. }
  destruct (wp_elim _ _ _ (wp_calculateAvailableResources h1 matrix v1 Hden1))
    as (out & h2 & Hrun2 & -> & Hout2 & Hin2).
  rewrite Hrun2. do 2 f_equal. apply map_eq. intros l.
  destruct (decide (l ∈ resources matrix)) as [Hl|Hl]; [|by apply Hout2].
  destruct (holds_resource _ _ _ _ Hden Hl) as (r & _ & Hr).
  assert (availableAt h1 (resources matrix) (v_processes v1) l = acc l) as Hacc.
  { rewrite Hps1. unfold acc, availableAt, totalAt. rewrite Hr, (Hin' l r Hl Hr). simpl.
    apply foldl_ext_all. intros a e. unfold subtractFrom.
    rewrite (firstWithId_same_ids h h1); [done|].
    intros l' Hl'. destruct (holds_resource _ _ _ _ Hden Hl') as (r' & _ & Hr').
    by rewrite Hr', (Hin' l' r' Hl' Hr'). }
  by rewrite (Hin2 l _ Hl (Hin' l r Hl Hr)), (Hin' l r Hl Hr), Hacc.
Qed.

(** X11 at scenario B. *)
Lemma calculateAvailableResources_twice_scenarioB :
  exists h',
    calculateAvailableResources scenarioB scenarioB_store
    = Some (resources scenarioB, h') /\
    calculateAvailableResources scenarioB h' = Some (resources scenarioB, h').
Proof.
  apply (calculateAvailableResources_twice scenarioB_store scenarioB scenarioB_value).
  denotes_example.
Defined.

(** ** The allocation graph *)

Lemma entries_key l (rid : string) a : entries l !! rid = Some a -> rid ∈ l.*1.
Proof.
  intros Hl%elem_of_list_to_map_2. apply list_elem_of_fmap. by exists (rid, a).
Qed.

(** X12: when every positive allocation and request entry of the matrix is
    under the id of a resource of the matrix, every edge of the graph joins
    two of its nodes: an allocation edge leads from a resource to a
    process, a request edge from a process to a resource, and each carries
    a positive amount. *)
Theorem generateResourceFlowGraph_edges_join_nodes h matrix v :
  denotes h matrix v ->
  (forall p rid a, p ∈ v_processes v ->
     allocation p !! rid = Some a \/ request p !! rid = Some a ->
     0 < a -> rid ∈ resource_id <$> v_resources v) ->
  exists g,
    generateResourceFlowGraph matrix h = Some (g, h) /\
    forall e, e ∈ edges g ->
      0 < amount e /\
      source e ∈ node_id <$> nodes g /\
      target e ∈ node_id <$> nodes g /\
      ((edge_type e = "allocation" /\
        source e ∈ resource_id <$> v_resources v /\
        target e ∈ process_id <$> v_processes v) \/
       (edge_type e = "request" /\
        source e ∈ process_id <$> v_processes v /\
        target e ∈ resource_id <$> v_resources v)).
Proof.
  intros [Hden Hdbl] Hkeys. eexists. split; [by apply wp_generateResourceFlowGraph|].
  assert (forall x : string, x ∈ process_id <$> v_processes v ->
            x ∈ node_id <$> nodes (buildGraph (v_processes v) (v_resources v))) as Hpn.
  { intros x (p & -> & Hp)%list_elem_of_fmap. simpl. rewrite fmap_app.
    apply elem_of_app. left. apply list_elem_of_fmap. exists (processNode p).
    split; [done|]. by apply list_elem_of_fmap_2. }
  assert (forall x : string, x ∈ resource_id <$> v_resources v ->
            x ∈ node_id <$> nodes (buildGraph (v_processes v) (v_resources v))) as Hrn.
  { intros x (r & -> & Hr)%list_elem_of_fmap. simpl. rewrite fmap_app.
    apply elem_of_app. right. apply list_elem_of_fmap. exists (resourceNode r).
    split; [done|]. by apply list_elem_of_fmap_2. }
  intros e. simpl. rewrite elem_of_app, !elem_of_flat_map.
  intros [(p & Hp & He)|(p & Hp & He)];
    apply list_elem_of_fmap in He as ([rid a] & -> & [Hlook Hpos]%elem_of_positiveEntries);
    simpl.
  - assert (rid ∈ resource_id <$> v_resources v) as Hrid by (by eapply Hkeys; eauto).
    assert (process_id p ∈ process_id <$> v_processes v) as Hpid
      by (by apply list_elem_of_fmap_2).
    split; [done|]. split; [by apply Hrn|]. split; [by apply Hpn|]. by left.
  - assert (rid ∈ resource_id <$> v_resources v) as Hrid by (by eapply Hkeys; eauto).
    assert (process_id p ∈ process_id <$> v_processes v) as Hpid
      by (by apply list_elem_of_fmap_2).
    split; [done|]. split; [by apply Hpn|]. split; [by apply Hrn|]. by right.
Qed.

(** X12 at scenario B. *)
Lemma generateResourceFlowGraph_edges_join_nodes_scenarioB :
  exists g,
    generateResourceFlowGraph scenarioB scenarioB_store = Some (g, scenarioB_store) /\
    forall e, e ∈ edges g ->
      0 < amount e /\
      source e ∈ node_id <$> nodes g /\
      target e ∈ node_id <$> nodes g /\
      ((edge_type e = "allocation" /\
        source e ∈ resource_id <$> v_resources scenarioB_value /\
        target e ∈ process_id <$> v_processes scenarioB_value) \/
       (edge_type e = "request" /\
        source e ∈ process_id <$> v_processes scenarioB_value /\
        target e ∈ resource_id <$> v_resources scenarioB_value)).
Proof.
  apply (generateResourceFlowGraph_edges_join_nodes scenarioB_store scenarioB
           scenarioB_value).
  - denotes_example.
  - intros p rid a Hp Hlook _. simpl in Hp.
    repeat (apply elem_of_cons in Hp as [->|Hp]); [| | |by apply elem_of_nil in Hp];
      (destruct Hlook as [Hl|Hl]; apply entries_key in Hl; exact Hl).
Defined.

(** ** The table editor keeps the table well formed *)

Lemma keysOf_snoc rs r : keysOf (rs ++ [r]) = keysOf rs ∪ {[resource_id r]}.
Proof.
  unfold keysOf. rewrite fmap_app, list_to_set_app_L. simpl.
  by rewrite union_empty_r_L.
Qed.

Lemma elem_of_keysOf rs (rid : string) :
  rid ∈ keysOf rs <-> exists r, r ∈ rs /\ resource_id r = rid.
Proof.
  unfold keysOf. rewrite elem_of_list_to_set, list_elem_of_fmap.
  split; intros (r & H1 & H2); exists r; done.
Qed.

Lemma keysOf_filter rs (rid : string) :
  keysOf (filter (fun r => resource_id r <> rid) rs) = keysOf rs ∖ {[rid]}.
Proof.
  apply set_eq. intros x.
  rewrite elem_of_difference, not_elem_of_singleton, !elem_of_keysOf.
  split.
  - intros (r & [Hne Hr]%list_elem_of_filter & <-). split; [by exists r|done].
  - intros [(r & Hr & <-) Hne]. exists r. split; [|done].
    by apply list_elem_of_filter.
Qed.

Lemma NoDup_fmap_filter {A B} (f : A -> B) (P : A -> Prop)
    `{forall x, Decision (P x)} (l : list A) :
  NoDup (f <$> l) -> NoDup (f <$> filter P l).
Proof.
  induction l as [|x l IH]; [done|].
  rewrite fmap_cons, NoDup_cons. intros [Hx Hl].
  rewrite filter_cons. destruct (decide (P x)); [|by apply IH].
  rewrite fmap_cons, NoDup_cons. split; [|by apply IH].
  intros (y & Hy & [_ Hin]%list_elem_of_filter)%list_elem_of_fmap.
  apply Hx. apply list_elem_of_fmap. by exists y.
Qed.

Lemma existsb_id_false {A} (f : A -> string) (l : list A) (id : string) :
  existsb (fun x => bool_decide (f x = id)) l = false -> id ∉ f <$> l.
Proof.
  intros Hex (x & -> & Hx)%list_elem_of_fmap.
  assert (existsb (fun y => bool_decide (f y = f x)) l = true) as Htrue; [|congruence].
  apply existsb_exists. exists x. split; [by apply list_elem_of_In|].
  by apply bool_decide_eq_true.
Qed.

(** The process [addProcess] builds (lines 70-79): it carries the new id,
    and holds and requests 0 of every resource. *)
Lemma newProcess_fold rs np :
  let np' :=
    foldl (fun newProcess resource =>
             mkProcess (process_id newProcess)
                       (<[resource_id resource := 0]> (allocation newProcess))
                       (<[resource_id resource := 0]> (request newProcess)))
          np rs in
  process_id np' = process_id np /\
  dom (allocation np') = dom (allocation np) ∪ keysOf rs /\
  dom (request np') = dom (request np) ∪ keysOf rs /\
  (map_Forall (fun _ a => a = 0) (allocation np) ->
   map_Forall (fun _ a => a = 0) (allocation np')) /\
  (map_Forall (fun _ a => a = 0) (request np) ->
   map_Forall (fun _ a => a = 0) (request np')).
Proof.
  revert np. induction rs as [|r rs IH]; intros np; simpl.
  - unfold keysOf. simpl. by rewrite !union_empty_r_L.
  - destruct (IH (mkProcess (process_id np)
                    (<[resource_id r := 0]> (allocation np))
                    (<[resource_id r := 0]> (request np))))
      as (Hid & Ha & Hr & Hza & Hzr). simpl in *.
    split; [done|].
    assert (keysOf (r :: rs) = {[resource_id r]} ∪ keysOf rs) as -> by done.
    split; [by rewrite Ha, dom_insert_L, (comm_L (∪) {[_]}), (assoc_L (∪))|].
    split; [by rewrite Hr, dom_insert_L, (comm_L (∪) {[_]}), (assoc_L (∪))|].
    split; intros Hz; [apply Hza|apply Hzr]; by apply map_Forall_insert_2.
Qed.

Lemma fmap_process_id (f : Process -> Process) (ps : list Process) :
  (forall p, process_id (f p) = process_id p) ->
  process_id <$> (f <$> ps) = process_id <$> ps.
Proof.
  intros Hf. rewrite <- list_fmap_compose. apply list_fmap_ext. intros _ p _. apply Hf.
Qed.

Lemma wellFormed_sampleData : wellFormed ResourceTable.sampleData.
Proof.
  split.
  - by apply (bool_decide_unpack _).
  - by apply (bool_decide_unpack _).
  - repeat constructor; by apply (bool_decide_unpack _).
Qed.

Lemma wellFormed_empty : wellFormed (mkValue [] []).
Proof. split; simpl; constructor. Qed.

Section EditorInvariants.

Variable blank : string -> bool.
Variable toUpperCase : string -> string.

Lemma wellFormed_addProcess st :
  wellFormed (ResourceTable.matrix st) ->
  wellFormed (ResourceTable.matrix (ResourceTable.addProcess blank st).1).
Proof.
  intros [Hps Hrs Hkeys]. unfold ResourceTable.addProcess.
  destruct (blank _); [by split|].
  destruct (existsb _ _) eqn:Hex; [by split|]. simpl.
  apply existsb_id_false in Hex.
  destruct (newProcess_fold (v_resources (ResourceTable.matrix st))
              (mkProcess (ResourceTable.newProcessId st) ∅ ∅))
    as (Hid & Ha & Hr & _). simpl in *.
  split; simpl.
  - rewrite fmap_app. apply NoDup_app. split; [done|]. split.
    + intros x Hx. simpl. rewrite Hid. intros ->%list_elem_of_singleton. done.
    + simpl. apply NoDup_singleton.
  - done.
  - apply Forall_app. split; [done|]. constructor; [|constructor].
    rewrite Ha, Hr, !dom_empty_L, !union_empty_l_L. done.
Qed.

Lemma wellFormed_addResource st :
  wellFormed (ResourceTable.matrix st) ->
  wellFormed (ResourceTable.matrix (ResourceTable.addResource blank st).1).
Proof.
  intros [Hps Hrs Hkeys]. unfold ResourceTable.addResource.
  destruct (blank _); [by split|].
  destruct (existsb _ _) eqn:Hex; [by split|]. simpl.
  apply existsb_id_false in Hex.
  split; simpl.
  - by rewrite fmap_process_id.
  - rewrite fmap_app. apply NoDup_app. split; [done|]. split.
    + intros x Hx. simpl. intros ->%list_elem_of_singleton. done.
    + simpl. apply NoDup_singleton.
  - rewrite Forall_fmap. eapply Forall_impl; [exact Hkeys|].
    intros p [Ha Hr]. simpl.
    rewrite !dom_insert_L, Ha, Hr, keysOf_snoc. simpl.
    by rewrite (comm_L (∪)).
Qed.

Lemma wellFormed_removeProcess st (processId : string) :
  wellFormed (ResourceTable.matrix st) ->
  wellFormed (ResourceTable.matrix (ResourceTable.removeProcess processId st).1).
Proof.
  intros [Hps Hrs Hkeys]. split; simpl.
  - by apply NoDup_fmap_filter.
  - done.
  - rewrite Forall_forall in Hkeys. apply Forall_forall.
    intros p [_ Hp]%list_elem_of_filter. by apply Hkeys.
Qed.

Lemma wellFormed_removeResource st (resourceId : string) :
  wellFormed (ResourceTable.matrix st) ->
  wellFormed (ResourceTable.matrix (ResourceTable.removeResource resourceId st).1).
Proof.
  intros [Hps Hrs Hkeys]. split; simpl.
  - by rewrite fmap_process_id.
  - by apply NoDup_fmap_filter.
  - rewrite Forall_fmap. eapply Forall_impl; [exact Hkeys|].
    intros p [Ha Hr]. simpl. by rewrite !dom_delete_L, Ha, Hr, keysOf_filter.
Qed.

Lemma wellFormed_updateAllocation st (processId : string) r value :
  r ∈ v_resources (ResourceTable.matrix st) ->
  wellFormed (ResourceTable.matrix st) ->
  wellFormed (ResourceTable.matrix
                (ResourceTable.updateAllocation processId (resource_id r) value st)).
Proof.
  intros Hr [Hps Hrs Hkeys]. unfold ResourceTable.updateAllocation.
  set (v := match find _ _ with Some _ => _ | None => _ end). clearbody v.
  split; simpl.
  - rewrite fmap_process_id; [done|]. intros p. by destruct (decide _).
  - done.
  - rewrite Forall_fmap. eapply Forall_impl; [exact Hkeys|].
    intros p [Ha Hq]. simpl. destruct (decide _); [|done]. simpl.
    split; [|done]. rewrite dom_insert_L, Ha.
    assert (resource_id r ∈ keysOf (v_resources (ResourceTable.matrix st)))
      by (apply elem_of_keysOf; by exists r).
    apply subseteq_union_1_L. by apply singleton_subseteq_l.
Qed.

Lemma wellFormed_updateRequest st (processId : string) r value :
  r ∈ v_resources (ResourceTable.matrix st) ->
  wellFormed (ResourceTable.matrix st) ->
  wellFormed (ResourceTable.matrix
                (ResourceTable.updateRequest processId (resource_id r) value st)).
Proof.
  intros Hr [Hps Hrs Hkeys]. unfold ResourceTable.updateRequest.
  split; simpl.
  - rewrite fmap_process_id; [done|]. intros p. by destruct (decide _).
  - done.
  - rewrite Forall_fmap. eapply Forall_impl; [exact Hkeys|].
    intros p [Ha Hq]. simpl. destruct (decide _); [|done]. simpl.
    split; [done|]. rewrite dom_insert_L, Hq.
    assert (resource_id r ∈ keysOf (v_resources (ResourceTable.matrix st)))
      by (apply elem_of_keysOf; by exists r).
    apply subseteq_union_1_L. by apply singleton_subseteq_l.
Qed.

Lemma reachable_wellFormed st :
  ResourceTable.reachable blank toUpperCase st -> wellFormed (ResourceTable.matrix st).
Proof.
  induction 1 as [ | | | | |st key action _ IH| | | | | | | | ]; simpl;
    try done.
  - apply wellFormed_empty.
  - unfold ResourceTable.handleKeyPress. destruct (decide _); [|done].
    destruct action; [by apply wellFormed_addProcess|by apply wellFormed_addResource].
  - by apply wellFormed_addProcess.
  - by apply wellFormed_addResource.
  - by apply (wellFormed_removeProcess st).
  - by apply (wellFormed_removeResource st).
  - by apply wellFormed_updateAllocation.
  - by apply wellFormed_updateRequest.
  - apply wellFormed_empty.
  - apply wellFormed_sampleData.
Qed.

End EditorInvariants.

(** ** The table editor keeps the allocations within the totals *)

Lemma held_snoc ps p (rid : string) :
  held (ps ++ [p]) rid = held ps rid + default 0 (allocation p !! rid).
Proof.
  unfold held. apply (sumZ_map_snoc (fun q => default 0 (allocation q !! rid))).
Qed.

Lemma sumZ_map_ext {A} (f g : A -> Z) (l : list A) :
  (forall x, x ∈ l -> f x = g x) -> sumZ (map f l) = sumZ (map g l).
Proof.
  induction l as [|x l IH]; intros Hfg; simpl; [done|].
  rewrite (Hfg x), IH; [done| |by left]. intros y Hy. apply Hfg. by right.
Qed.

Lemma sumZ_map_fmap {A B} (f : B -> Z) (g : A -> B) (l : list A) :
  sumZ (map f (g <$> l)) = sumZ (map (fun x => f (g x)) l).
Proof.
  induction l as [|x l IH]; [done|].
  rewrite fmap_cons. unfold sumZ in *. simpl. by rewrite <- IH.
Qed.

Lemma sumZ_map_zero {A} (f : A -> Z) (l : list A) :
  (forall x, x ∈ l -> f x = 0) -> sumZ (map f l) = 0.
Proof.
  induction l as [|x l IH]; intros Hf; simpl; [done|].
  rewrite (Hf x), IH; [done| |by left]. intros y Hy. apply Hf. by right.
Qed.

Lemma sumZ_map_filter_le {A} (f : A -> Z) (P : A -> Prop)
    `{forall x, Decision (P x)} (l : list A) :
  Forall (fun x => 0 <= f x) l -> sumZ (map f (filter P l)) <= sumZ (map f l).
Proof.
  induction 1 as [|x l Hx Hl IH]; [done|].
  rewrite filter_cons. destruct (decide (P x)); simpl; lia.
Qed.

(** The sum [updateAllocation] takes over the other processes (lines
    158-161), when each of them has an entry for the resource, none
    negative, and the sum stays within 2^53: every addition is exact. *)
Lemma others_fold (ps : list Process) (processId resourceId : string) acc :
  Forall (fun p => is_Some (allocation p !! resourceId) /\
                   0 <= default 0 (allocation p !! resourceId)) ps ->
  0 <= acc ->
  acc + sumZ (map (fun p => if decide (process_id p <> processId)
                            then default 0 (allocation p !! resourceId) else 0) ps)
  <= 2 ^ 53 ->
  foldl (fun sum p =>
           if decide (process_id p <> processId)
           then ResourceTable.addTo sum (ResourceTable.allocationOr0 p resourceId)
           else sum) (Num acc) ps
  = Num (acc + sumZ (map (fun p => if decide (process_id p <> processId)
                                   then default 0 (allocation p !! resourceId) else 0) ps)).
Proof.
  intros Hall. revert acc. induction Hall as [|p ps [[a Ha] Hp] Hall IH]; intros acc Hacc Hb.
  - simpl. f_equal. lia.
  - simpl in *.
    assert (0 <= sumZ (map (fun p => if decide (process_id p <> processId)
                              then default 0 (allocation p !! resourceId) else 0) ps))
      as Hrest.
    { clear -Hall. induction Hall as [|q qs [_ Hq] _ IH]; simpl; [lia|].
      destruct (decide _); lia. }
    destruct (decide (process_id p <> processId)).
    + unfold ResourceTable.allocationOr0. rewrite Ha in *. simpl in *.
      rewrite fl_small by lia. rewrite IH by lia. f_equal. lia.
    + rewrite IH by lia. f_equal.
Qed.

Lemma held_split (ps : list Process) (processId rid : string) :
  held ps rid
  = sumZ (map (fun p => if decide (process_id p <> processId)
                        then default 0 (allocation p !! rid) else 0) ps)
    + sumZ (map (fun p => if decide (process_id p <> processId)
                          then 0 else default 0 (allocation p !! rid)) ps).
Proof.
  unfold held. induction ps as [|p ps IH]; simpl; [done|].
  destruct (decide _); lia.
Qed.

Lemma sumZ_one_id (ps : list Process) (processId : string) v :
  NoDup (process_id <$> ps) -> 0 <= v ->
  sumZ (map (fun p => if decide (process_id p <> processId) then 0 else v) ps) <= v.
Proof.
  intros Hnd Hv. induction ps as [|p ps IH]; simpl; [done|].
  rewrite fmap_cons, NoDup_cons in Hnd. destruct Hnd as [Hp Hnd].
  destruct (decide _) as [Hne|Heq]; [by specialize (IH Hnd); lia|].
  rewrite sumZ_map_zero; [lia|].
  intros q Hq. destruct (decide _) as [|Heq']; [done|]. exfalso. apply Hp.
  apply list_elem_of_fmap. exists q. split; [|done].
  apply dec_stable in Heq. apply dec_stable in Heq'. congruence.
Qed.

Lemma find_unique_id (rs : list Resource) r :
  NoDup (resource_id <$> rs) -> r ∈ rs ->
  find (fun r' => bool_decide (resource_id r' = resource_id r)) rs = Some r.
Proof.
  induction rs as [|r' rs IH]; [by intros _ ?%elem_of_nil|].
  rewrite fmap_cons, NoDup_cons. intros [Hr' Hnd] Hr. simpl.
  destruct (bool_decide_reflect (resource_id r' = resource_id r)) as [Heq|Hne].
  - apply elem_of_cons in Hr as [->|Hr]; [done|]. exfalso. apply Hr'.
    rewrite Heq. apply list_elem_of_fmap. by exists r.
  - apply elem_of_cons in Hr as [->|Hr]; [done|]. by apply IH.
Qed.

Lemma zero_lookup (m : gmap string Z) (k : string) :
  map_Forall (fun _ a => a = 0) m -> default 0 (m !! k) = 0.
Proof. intros Hm. destruct (m !! k) as [a|] eqn:Ha; [by apply (Hm k a)|done]. Qed.

Lemma withinTotals_sampleData : withinTotals ResourceTable.sampleData.
Proof.
  intros r Hr _. simpl in Hr.
  repeat (apply elem_of_cons in Hr as [->|Hr]);
    [| |by apply elem_of_nil in Hr];
    (split; [repeat constructor; by vm_compute|by vm_compute]).
Qed.

Lemma nonNegativeRequests_sampleData :
  nonNegativeRequests (v_processes ResourceTable.sampleData).
Proof. apply (bool_decide_unpack _). vm_compute. exact I. Qed.

Section EditorTotals.

Variable blank : string -> bool.
Variable toUpperCase : string -> string.

Lemma withinTotals_addProcess st :
  withinTotals (ResourceTable.matrix st) ->
  withinTotals (ResourceTable.matrix (ResourceTable.addProcess blank st).1).
Proof.
  intros Hin. unfold ResourceTable.addProcess.
  destruct (blank _); [done|]. destruct (existsb _ _); [done|]. simpl.
  destruct (newProcess_fold (v_resources (ResourceTable.matrix st))
              (mkProcess (ResourceTable.newProcessId st) ∅ ∅))
    as (_ & _ & _ & Hz & _). simpl in Hz.
  specialize (Hz (map_Forall_empty _)).
  intros r Hr Htotal. simpl in *. destruct (Hin r Hr Htotal) as [Hpos Hsum].
  split.
  - apply Forall_app. split; [done|]. constructor; [|constructor].
    by rewrite zero_lookup.
  - rewrite held_snoc, zero_lookup; [lia|done].
Qed.

Lemma withinTotals_addResource st :
  withinTotals (ResourceTable.matrix st) ->
  withinTotals (ResourceTable.matrix (ResourceTable.addResource blank st).1).
Proof.
  intros Hin. unfold ResourceTable.addResource.
  destruct (blank _); [done|]. destruct (existsb _ _) eqn:Hex; [done|]. simpl.
  apply existsb_id_false in Hex.
  intros r Hr Htotal. simpl in *. apply elem_of_app in Hr as [Hr|Hr].
  - destruct (Hin r Hr Htotal) as [Hpos Hsum].
    assert (ResourceTable.newResourceId st <> resource_id r) as Hne.
    { intros Heq. apply Hex. rewrite Heq. apply list_elem_of_fmap. by exists r. }
    split.
    + rewrite Forall_fmap. eapply Forall_impl; [exact Hpos|].
      intros p Hp. simpl. by rewrite lookup_insert_ne.
    + unfold held. rewrite sumZ_map_fmap. simpl.
      erewrite sumZ_map_ext; [exact Hsum|].
      intros p _. simpl. by rewrite lookup_insert_ne.
  - apply list_elem_of_singleton in Hr as ->. simpl in *. split.
    + rewrite Forall_fmap. apply Forall_forall. intros p _. simpl.
      by rewrite lookup_insert_eq.
    + unfold held. rewrite sumZ_map_fmap, sumZ_map_zero; [by destruct Htotal|].
      intros p _. simpl. by rewrite lookup_insert_eq.
Qed.

Lemma withinTotals_removeProcess st (processId : string) :
  withinTotals (ResourceTable.matrix st) ->
  withinTotals (ResourceTable.matrix (ResourceTable.removeProcess processId st).1).
Proof.
  intros Hin r Hr Htotal. simpl in *. destruct (Hin r Hr Htotal) as [Hpos Hsum].
  split.
  - rewrite Forall_forall in Hpos. apply Forall_forall.
    intros p [_ Hp]%list_elem_of_filter. by apply Hpos.
  - unfold held in *.
    pose proof (sumZ_map_filter_le
                  (fun p => default 0 (allocation p !! resource_id r))
                  (fun p => process_id p <> processId) _ Hpos).
    lia.
Qed.

Lemma withinTotals_removeResource st (resourceId : string) :
  withinTotals (ResourceTable.matrix st) ->
  withinTotals (ResourceTable.matrix (ResourceTable.removeResource resourceId st).1).
Proof.
  intros Hin r [Hne Hr]%list_elem_of_filter Htotal. simpl in *.
  destruct (Hin r Hr Htotal) as [Hpos Hsum]. split.
  - rewrite Forall_fmap. eapply Forall_impl; [exact Hpos|].
    intros p Hp. simpl. by rewrite lookup_delete_ne.
  - unfold held. rewrite sumZ_map_fmap. simpl.
    erewrite sumZ_map_ext; [exact Hsum|].
    intros p _. simpl. by rewrite lookup_delete_ne.
Qed.

Lemma withinTotals_updateRequest st (processId resourceId : string) value :
  withinTotals (ResourceTable.matrix st) ->
  withinTotals (ResourceTable.matrix
                  (ResourceTable.updateRequest processId resourceId value st)).
Proof.
  intros Hin r Hr Htotal. simpl in *. destruct (Hin r Hr Htotal) as [Hpos Hsum].
  split.
  - rewrite Forall_fmap. eapply Forall_impl; [exact Hpos|].
    intros p Hp. simpl. by destruct (decide _).
  - unfold held. rewrite sumZ_map_fmap.
    erewrite sumZ_map_ext; [exact Hsum|].
    intros p _. simpl. by destruct (decide _).
Qed.

Lemma withinTotals_updateAllocation st (processId : string) r0 value :
  wellFormed (ResourceTable.matrix st) ->
  r0 ∈ v_resources (ResourceTable.matrix st) ->
  withinTotals (ResourceTable.matrix st) ->
  withinTotals (ResourceTable.matrix
                  (ResourceTable.updateAllocation processId (resource_id r0) value st)).
Proof.
  intros [Hps Hrs Hkeys] Hr0 Hin. unfold ResourceTable.updateAllocation.
  rewrite (find_unique_id _ r0 Hrs Hr0).
  set (ps := v_processes (ResourceTable.matrix st)) in *.
  set (others := sumZ (map (fun p => if decide (process_id p <> processId)
                               then default 0 (allocation p !! resource_id r0) else 0) ps)).
  set (v0 := if value <? 0 then 0 else value).
  assert (0 <= v0) as Hv0 by (unfold v0; destruct (Z.ltb_spec value 0); lia).
  set (current := foldl _ (Num 0) ps).
  set (v := match current with Num c => _ | NotNum => v0 end).
  intros r Hr Htotal. simpl in *. fold ps.
  destruct (Hin r Hr Htotal) as [Hpos Hsum].
  destruct (decide (resource_id r = resource_id r0)) as [Heq|Hne].
  - assert (r = r0) as ->.
    { apply list_elem_of_lookup in Hr as [i Hi]. apply list_elem_of_lookup in Hr0 as [j Hj].
      assert (i = j) as ->; [|congruence].
      apply (NoDup_lookup _ _ _ (resource_id r0) Hrs);
        rewrite list_lookup_fmap; [by rewrite Hi, <- Heq|by rewrite Hj]. }
    clear Heq. fold ps in Hpos, Hsum.
    pose proof (held_split ps processId (resource_id r0)) as Hsplit. fold others in Hsplit.
    assert (0 <= sumZ (map (fun p => if decide (process_id p <> processId)
                              then 0 else default 0 (allocation p !! resource_id r0)) ps))
      as Hmine.
    { apply sumZ_nonneg. apply Forall_forall. intros x (p & <- & Hp)%list_elem_of_In%in_map_iff.
      destruct (decide _); [done|]. rewrite Forall_forall in Hpos.
      apply Hpos. by apply list_elem_of_In. }
    assert (0 <= others) as Hothers.
    { apply sumZ_nonneg. apply Forall_forall. intros x (p & <- & Hp)%list_elem_of_In%in_map_iff.
      destruct (decide _); [|done]. rewrite Forall_forall in Hpos.
      apply Hpos. by apply list_elem_of_In. }
    assert (current = Num (0 + others)) as Hcur.
    { unfold current. apply others_fold; [|lia|fold others; lia].
      apply Forall_forall. intros p Hp. rewrite Forall_forall in Hpos, Hkeys.
      split; [|by apply Hpos]. destruct (Hkeys p Hp) as [Hdom _].
      apply elem_of_dom. rewrite Hdom. apply elem_of_keysOf. by exists r0. }
    assert (v = if v0 >? total r0 - others then total r0 - others else v0) as Hvdef.
    { unfold v. rewrite Hcur. replace (0 + others) with others by lia.
      by rewrite fl_small by lia. }
    assert (0 <= v /\ others + v <= total r0) as [Hv Hle].
    { rewrite Hvdef. destruct (Z.gtb_spec v0 (total r0 - others)); lia. }
    split.
    + rewrite Forall_fmap. eapply Forall_impl; [exact Hpos|].
      intros p Hp. simpl. destruct (decide _); [|done]. simpl.
      by rewrite lookup_insert_eq.
    + unfold held. rewrite sumZ_map_fmap.
      rewrite (sumZ_map_ext _
                 (fun p => (if decide (process_id p <> processId)
                            then default 0 (allocation p !! resource_id r0) else 0)
                           + (if decide (process_id p <> processId) then 0 else v))).
      2:{ intros p _. simpl. destruct (decide (process_id p = processId)) as [Hp|Hp];
            destruct (decide (process_id p <> processId)) as [Hp'|Hp']; try done.
          - simpl. rewrite lookup_insert_eq. simpl. lia.
          - lia. }
      assert (forall (f g : Process -> Z) l,
                sumZ (map (fun p => f p + g p) l) = sumZ (map f l) + sumZ (map g l)) as Hadd.
      { intros f g l. induction l as [|x l IH]; simpl; lia. }
      rewrite Hadd. fold others.
      pose proof (sumZ_one_id ps processId v Hps Hv). lia.
  - split.
    + rewrite Forall_fmap. eapply Forall_impl; [exact Hpos|].
      intros p Hp. simpl. destruct (decide _); [|done]. simpl.
      by rewrite lookup_insert_ne.
    + unfold held. rewrite sumZ_map_fmap.
      erewrite sumZ_map_ext; [exact Hsum|].
      intros p _. simpl. destruct (decide _); [|done]. simpl.
      by rewrite lookup_insert_ne.
Qed.

Lemma reachable_withinTotals st :
  ResourceTable.reachable blank toUpperCase st -> withinTotals (ResourceTable.matrix st).
Proof.
  induction 1 as [ | | | | |st key action _ IH| | | | |st p r value Hst IH Hp Hr| | | ];
    simpl; try done; try (by intros r0 ?%elem_of_nil).
  - unfold ResourceTable.handleKeyPress. destruct (decide _); [|done].
    destruct action; [by apply withinTotals_addProcess|by apply withinTotals_addResource].
  - by apply withinTotals_addProcess.
  - by apply withinTotals_addResource.
  - by apply (withinTotals_removeProcess st).
  - by apply (withinTotals_removeResource st).
  - apply withinTotals_updateAllocation; [|done|done].
    by apply (reachable_wellFormed blank toUpperCase).
  - by apply withinTotals_updateRequest.
  - apply withinTotals_sampleData.
Qed.

Lemma nonNegativeRequests_addProcess st :
  nonNegativeRequests (v_processes (ResourceTable.matrix st)) ->
  nonNegativeRequests
    (v_processes (ResourceTable.matrix (ResourceTable.addProcess blank st).1)).
Proof.
  intros Hin. unfold ResourceTable.addProcess.
  destruct (blank _); [done|]. destruct (existsb _ _); [done|]. simpl.
  destruct (newProcess_fold (v_resources (ResourceTable.matrix st))
              (mkProcess (ResourceTable.newProcessId st) ∅ ∅))
    as (_ & _ & _ & _ & Hz). simpl in Hz.
  specialize (Hz (map_Forall_empty _)).
  apply Forall_app. split; [done|]. constructor; [|constructor].
  intros k q Hq. simpl. by rewrite (Hz k q Hq).
Qed.

Lemma nonNegativeRequests_addResource st :
  nonNegativeRequests (v_processes (ResourceTable.matrix st)) ->
  nonNegativeRequests
    (v_processes (ResourceTable.matrix (ResourceTable.addResource blank st).1)).
Proof.
  intros Hin. unfold ResourceTable.addResource.
  destruct (blank _); [done|]. destruct (existsb _ _); [done|]. simpl.
  unfold nonNegativeRequests. rewrite Forall_fmap.
  eapply Forall_impl; [exact Hin|]. intros p Hp. simpl.
  by apply map_Forall_insert_2.
Qed.

Lemma reachable_nonNegativeRequests st :
  ResourceTable.reachable blank toUpperCase st ->
  nonNegativeRequests (v_processes (ResourceTable.matrix st)).
Proof.
  induction 1 as [ | | | | |st key action _ IH| | | | | |st p r value Hst IH Hp Hr| | ];
    simpl; try done.
  - constructor.
  - unfold ResourceTable.handleKeyPress. destruct (decide _); [|done].
    destruct action;
      [by apply nonNegativeRequests_addProcess|by apply nonNegativeRequests_addResource].
  - by apply nonNegativeRequests_addProcess.
  - by apply nonNegativeRequests_addResource.
  - unfold nonNegativeRequests in *. rewrite Forall_forall in IHreachable.
    apply Forall_forall. intros q [_ Hq]%list_elem_of_filter. by apply IHreachable.
  - unfold nonNegativeRequests in *. rewrite Forall_fmap.
    eapply Forall_impl; [exact IHreachable|]. intros q Hq. simpl.
    intros k a [_ Ha]%lookup_delete_Some. by apply (Hq k a).
  - unfold nonNegativeRequests in *. rewrite Forall_fmap.
    eapply Forall_impl; [exact IHreachable|]. intros q Hq. simpl.
    by destruct (decide _).
  - unfold nonNegativeRequests in *. rewrite Forall_fmap.
    eapply Forall_impl; [exact IH|]. intros q Hq. simpl.
    destruct (decide _); [|done]. simpl. apply map_Forall_insert_2; [|done].
    destruct (Z.ltb_spec value 0); lia.
  - constructor.
  - apply nonNegativeRequests_sampleData.
Qed.

End EditorTotals.

(** ** The tables of the editor *)

Lemma session_reachable :
  ResourceTable.reachable plainBlank plainUpperCase session_allocated.
Proof.
  apply (ResourceTable.reach_updateAllocation plainBlank plainUpperCase
           session_processAdded
           (mkProcess "P1" (<["R1" := 0]> ∅) (<["R1" := 0]> ∅))
           (mkResource "R1" 2 2 true) 5).
  - apply ResourceTable.reach_addProcess, ResourceTable.reach_processId,
      ResourceTable.reach_addResource, ResourceTable.reach_instances,
      ResourceTable.reach_resourceId, ResourceTable.reach_initial.
  - vm_compute. left.
  - vm_compute. left.
Qed.



(** In a well-formed table whose totals are between 0 and 2^53, nobody
    holds a negative amount. *)
Lemma wellFormed_nonNegativeAllocations m :
  wellFormed m -> withinTotals m ->
  Forall (fun r => 0 <= total r <= 2 ^ 53) (v_resources m) ->
  nonNegativeAllocations (v_processes m).
Proof.
  intros [_ _ Hkeys] Hin Htotals. unfold nonNegativeAllocations.
  rewrite Forall_forall in Hkeys. rewrite Forall_forall in Htotals.
  apply Forall_forall.
  intros p Hp rid a Ha. simpl.
  destruct (Hkeys p Hp) as [Hdom _].
  assert (rid ∈ keysOf (v_resources m)) as (r & Hr & <-)%elem_of_keysOf.
  { rewrite <- Hdom. apply elem_of_dom. by eexists. }
  destruct (Hin r Hr (Htotals r Hr)) as [Hpos _].
  rewrite Forall_forall in Hpos. specialize (Hpos p Hp). by rewrite Ha in Hpos.
Qed.

Lemma held_nonneg ps (rid : string) :
  Forall (fun p => 0 <= default 0 (allocation p !! rid)) ps -> 0 <= held ps rid.
Proof. intros Hpos. unfold held. apply sumZ_nonneg. by rewrite Forall_map. Qed.

Section EditorTables.

Variable blank : string -> bool.
Variable toUpperCase : string -> string.

(** X13: in every state of the editor, no two processes and no two
    resources of the table share an id, and the allocation and request
    dictionaries of every process have an entry for each resource of the
    table and for nothing else. *)
Theorem editor_table_ids_and_keys st :
  ResourceTable.reachable blank toUpperCase st ->
  NoDup (process_id <$> v_processes (ResourceTable.matrix st)) /\
  NoDup (resource_id <$> v_resources (ResourceTable.matrix st)) /\
  forall p, p ∈ v_processes (ResourceTable.matrix st) -> forall rid : string,
    (is_Some (allocation p !! rid)
     <-> rid ∈ resource_id <$> v_resources (ResourceTable.matrix st)) /\
    (is_Some (request p !! rid)
     <-> rid ∈ resource_id <$> v_resources (ResourceTable.matrix st)).
Proof.
  intros [Hps Hrs Hkeys]%reachable_wellFormed.
  split; [done|]. split; [done|]. intros p Hp rid.
  rewrite Forall_forall in Hkeys. destruct (Hkeys p Hp) as [Ha Hr].
  rewrite <- !elem_of_dom, Ha, Hr. unfold keysOf.
  by rewrite elem_of_list_to_set.
Qed.

(** X14: in every state of the editor, no process requests a negative
    amount, and of every resource whose total is between 0 and 2^53 (so
    that the sums of line 159 are exact) no process holds a negative amount
    and the processes together hold no more than the total. *)
Theorem editor_table_within_totals st :
  ResourceTable.reachable blank toUpperCase st ->
  (forall r, r ∈ v_resources (ResourceTable.matrix st) -> 0 <= total r <= 2 ^ 53 ->
     (forall p, p ∈ v_processes (ResourceTable.matrix st) ->
        0 <= default 0 (allocation p !! resource_id r)) /\
     held (v_processes (ResourceTable.matrix st)) (resource_id r) <= total r) /\
  (forall p rid q, p ∈ v_processes (ResourceTable.matrix st) ->
     request p !! rid = Some q -> 0 <= q).
Proof.
  intros Hreach. split.
  - intros r Hr Htotal.
    destruct (reachable_withinTotals blank toUpperCase st Hreach r Hr Htotal)
      as [Hpos Hsum].
    split; [|done]. by apply Forall_forall.
  - intros p rid q Hp Hq.
    pose proof (reachable_nonNegativeRequests blank toUpperCase st Hreach) as Hreq.
    unfold nonNegativeRequests in Hreq. rewrite Forall_forall in Hreq.
    by apply (Hreq p Hp rid q).
Qed.



(** X17: on a table of the editor whose resource totals are not negative,
    whose ids are no names that every object inherits ([plainIds]) and
    whose amounts are small enough for the sums to be exact
    ([safeAmounts]), the verdict of [detectDeadlock] is exact.  The first
    step shows, for every resource, a number between 0 and its total, and
    [safeSequence] is null exactly when no order of all the processes is a
    safe order from the amounts of that step ([safeOrder]: each process's
    strictly positive requests within those amounts plus the allocation
    entries of the processes before it). *)
Theorem editor_table_verdict st h matrix fuel :
  ResourceTable.reachable blank toUpperCase st ->
  Forall (fun r => 0 <= total r) (v_resources (ResourceTable.matrix st)) ->
  plainIds (ResourceTable.matrix st) ->
  safeAmounts (ResourceTable.matrix st) ->
  denotes h matrix (ResourceTable.matrix st) ->
  (length (v_processes (ResourceTable.matrix st)) < fuel)%nat ->
  exists r h' first rest,
    detectDeadlock fuel matrix h = Some (Some r, h') /\
    steps r = first :: rest /\
    (forall res, res ∈ v_resources (ResourceTable.matrix st) ->
       exists a, availableResources first !! resource_id res = Some (Num a) /\
                 0 <= a <= total res) /\
    (safeSequence r = None
     <-> ~ exists order, order ≡ₚ v_processes (ResourceTable.matrix st) /\
                         safeOrder (amountOf (availableResources first)) order).
Proof.
  intros Hreach Htotals Hplain Hsafe [Hden Hdbl] Hfuel.
  pose proof (reachable_wellFormed blank toUpperCase st Hreach) as Hwf.
  pose proof (reachable_withinTotals blank toUpperCase st Hreach) as Hin.
  set (v := ResourceTable.matrix st) in *.
  assert (Forall (fun r => 0 <= total r <= 2 ^ 53) (v_resources v)) as Hrange.
  { rewrite Forall_forall in Htotals. apply Forall_forall. intros r Hr.
    pose proof (safeAmounts_resource v r Hsafe Hr).
    pose proof (sumZ_magnitude_nonneg (v_processes v)).
    specialize (Htotals r Hr). simpl in Htotals. lia. }
  pose proof (wellFormed_nonNegativeAllocations _ Hwf Hin Hrange) as Hnonneg.
  destruct Hwf as [Hps Hrs _].
  pose proof (balanced_initial v (process_id <$> v_processes v) Hsafe) as Hbal.
  destruct (detectDeadlock_admitted _ _ _ _ Hden Hfuel)
    as (h' & l & stf & Hrun & Hstf & Hl & Hadm & Hnd & Hinv & Hscan).
  destruct (finish_first_step (v_processes v) (process_id <$> v_processes v)
              (initialAvailable v) l) as (rest & Hsteps).
  rewrite <- Hstf in Hsteps.
  eexists _, h', _, rest. split; [exact Hrun|]. split; [exact Hsteps|]. simpl.
  split.
  - intros res Hres.
    rewrite (initialAvailable_lookup v res Hrs Hres Hsafe
               (plainIds_resource v res Hplain Hres)).
    eexists. split; [done|]. rewrite Forall_forall in Hrange.
    destruct (Hin res Hres (Hrange res Hres)) as [Hpos Hsum].
    pose proof (held_nonneg _ _ Hpos) as Hheld. unfold held in *. lia.
  - destruct Hplain as [Hplain _]. split.
    + intros Hnone (order & Hperm & Horder).
      by apply (finish_deadlock_unsafe (v_processes v) (initialAvailable v) l stf
                  Hstf Hl Hnd Hinv Hscan Hps Hnonneg Hplain Hbal Hnone order Hperm).
    + intros Hno. unfold finish.
      destruct (decide (size (finished stf) < length (v_processes v))%nat)
        as [Hlt|Hge]; simpl; [done|].
      exfalso. apply Hno. exists l. split.
      * apply (safe_run_admits_all _ stf); try done.
        rewrite Hstf. apply admitAll_initial_sequence.
      * apply (admissibleOrder_safeOrder (v_processes v) (process_id <$> v_processes v));
          try done.
        eapply Forall_impl; [exact Hl|]. intros p Hp. by apply list_elem_of_fmap_2.
Qed.

End EditorTables.

(** X13 at the session. *)
Lemma editor_table_ids_and_keys_session :
  NoDup (process_id <$> v_processes (ResourceTable.matrix session_allocated)) /\
  NoDup (resource_id <$> v_resources (ResourceTable.matrix session_allocated)) /\
  forall p, p ∈ v_processes (ResourceTable.matrix session_allocated) ->
    forall rid : string,
    (is_Some (allocation p !! rid)
     <-> rid ∈ resource_id <$> v_resources (ResourceTable.matrix session_allocated)) /\
    (is_Some (request p !! rid)
     <-> rid ∈ resource_id <$> v_resources (ResourceTable.matrix session_allocated)).
Proof.
  apply (editor_table_ids_and_keys plainBlank plainUpperCase session_allocated).
  exact session_reachable.
Defined.

(** X14 at the session. *)
Lemma editor_table_within_totals_session :
  (forall r, r ∈ v_resources (ResourceTable.matrix session_allocated) ->
     0 <= total r <= 2 ^ 53 ->
     (forall p, p ∈ v_processes (ResourceTable.matrix session_allocated) ->
        0 <= default 0 (allocation p !! resource_id r)) /\
     held (v_processes (ResourceTable.matrix session_allocated)) (resource_id r)
     <= total r) /\
  (forall p rid q, p ∈ v_processes (ResourceTable.matrix session_allocated) ->
     request p !! rid = Some q -> 0 <= q).
Proof.
  apply (editor_table_within_totals plainBlank plainUpperCase session_allocated).
  exact session_reachable.
Defined.

(** Beyond 2^53 the sum of line 159 rounds, and the editor lets the
    processes hold more than the total: with 2^53 + 2 instances, of which
    the first two processes hold 2^53 and 1, the sum 2^53 + 1 becomes 2^53,
    so the third process is allowed 2, and the three hold 2^53 + 3. *)
Example updateAllocation_rounding :
  ResourceTable.reachable plainBlank plainUpperCase crowd_third /\
  v_resources (ResourceTable.matrix crowd_third)
    = [mkResource "R1" (2 ^ 53 + 2) (2 ^ 53 + 2) true] /\
  held (v_processes (ResourceTable.matrix crowd_third)) "R1" = 2 ^ 53 + 3.
Proof.
  split; [|split; by vm_compute].
  assert (ResourceTable.reachable plainBlank plainUpperCase crowd_processesAdded) as Hadded.
  { repeat apply ResourceTable.reach_addProcess, ResourceTable.reach_processId.
    apply ResourceTable.reach_addResource, ResourceTable.reach_instances,
      ResourceTable.reach_resourceId, ResourceTable.reach_initial. }
  set (r := mkResource "R1" (2 ^ 53 + 2) (2 ^ 53 + 2) true).
  set (p1 := mkProcess "P1" (<["R1" := 0]> ∅) (<["R1" := 0]> ∅)).
  set (p2 := mkProcess "P2" (<["R1" := 0]> ∅) (<["R1" := 0]> ∅)).
  set (p3 := mkProcess "P3" (<["R1" := 0]> ∅) (<["R1" := 0]> ∅)).
  apply (ResourceTable.reach_updateAllocation plainBlank plainUpperCase crowd_second p3 r 2);
    [|vm_compute; by repeat constructor..].
  apply (ResourceTable.reach_updateAllocation plainBlank plainUpperCase crowd_first p2 r 1);
    [|vm_compute; by repeat constructor..].
  apply (ResourceTable.reach_updateAllocation plainBlank plainUpperCase
           crowd_processesAdded p1 r (2 ^ 53));
    [done|vm_compute; by repeat constructor..].
Qed.


(** X17 at the session. *)
Lemma editor_table_verdict_session :
  exists r h' first rest,
    detectDeadlock 2 session_table session_store = Some (Some r, h') /\
    steps r = first :: rest /\
    (forall res, res ∈ v_resources (ResourceTable.matrix session_allocated) ->
       exists a, availableResources first !! resource_id res = Some (Num a) /\
                 0 <= a <= total res) /\
    (safeSequence r = None
     <-> ~ exists order, order ≡ₚ v_processes (ResourceTable.matrix session_allocated) /\
                         safeOrder (amountOf (availableResources first)) order).
Proof.
  apply (editor_table_verdict plainBlank plainUpperCase session_allocated
           session_store session_table 2).
  - exact session_reachable.
  - vm_compute. repeat constructor. discriminate.
  - by_evaluation.
  - by_evaluation.
  - split; [split; vm_compute; repeat constructor|by_evaluation].
  - vm_compute. lia.
Defined.

(** ** The detection panel *)

Lemma holds_lengths h matrix v :
  holds h matrix v ->
  length (processes matrix) = length (v_processes v) /\
  length (resources matrix) = length (v_resources v).
Proof. intros [Hp Hr]. split; by eapply Forall2_length. Qed.

(** With unique process ids, a result lists deadlocked processes exactly
    when it has no safe sequence. *)
Lemma finish_deadlocked_nil ps stf :
  loopInv ps stf -> NoDup (process_id <$> ps) ->
  deadlocked (finish ps stf) = [] <-> safeSequence (finish ps stf) <> None.
Proof.
  intros Hinv Hnd. pose proof (loopInv_size _ _ Hinv) as Hsize.
  destruct Hinv as [Hfin Hseqnd Hids _]. unfold finish.
  destruct (decide (size (finished stf) < length ps)%nat) as [Hlt|Hge]; simpl;
    [|by split].
  split; [|done]. intros Hnil. exfalso.
  assert (process_id <$> ps ⊆+ sequence stf) as Hsub.
  { apply NoDup_submseteq; [done|]. intros x Hx.
    destruct (decide (x ∈ sequence stf)) as [|Hnot]; [done|]. exfalso.
    assert (x ∈ process_id <$> filter (fun p => process_id p ∉ finished stf) ps) as Hx'.
    { apply elem_of_unfinished. split; [done|]. by rewrite Hfin, elem_of_list_to_set. }
    rewrite Hnil in Hx'. by apply elem_of_nil in Hx'. }
  apply submseteq_length in Hsub. rewrite length_fmap in Hsub. lia.
Qed.

(** X18: [runDetection] does nothing on a matrix without processes or
    without resources.  On any other matrix with unique process ids it
    stores the result of [detectDeadlock], in the panel and in the parent
    component, leaves the matrix as it is, and the panel then announces a
    deadlock exactly when the result has no safe sequence. *)
Theorem runDetection_verdict h matrix v fuel st :
  denotes h matrix v ->
  (length (v_processes v) < fuel)%nat ->
  NoDup (process_id <$> v_processes v) ->
  exists st' h',
    DetectionPanel.runDetection fuel matrix st h = Some (Some st', h') /\
    preserved h h' /\
    (((v_processes v = [] \/ v_resources v = []) /\ st' = st) \/
     (v_processes v <> [] /\ v_resources v <> [] /\
      exists r,
        detectDeadlock fuel matrix h = Some (Some r, h') /\
        DetectionPanel.result st' = Some r /\
        DetectionPanel.detectionResult st' = Some r /\
        DetectionPanel.hasRun st' = true /\
        DetectionPanel.deadlockedProcesses st' = deadlocked r /\
        (DetectionPanel.hasDeadlock st' = true <-> safeSequence r = None))).
Proof.
  intros [Hden Hdbl] Hfuel Hnd. destruct (holds_lengths _ _ _ Hden) as [Hlp Hlr].
  unfold DetectionPanel.runDetection. rewrite Hlp, Hlr.
  destruct (v_processes v) as [|p ps] eqn:Hps.
  { exists st, h. split; [done|]. split; [by intros ??|]. left. split; [by left|done]. }
  destruct (v_resources v) as [|r rs] eqn:Hrs.
  { exists st, h. split; [done|]. split; [by intros ??|]. left. split; [by right|done]. }
  simpl. rewrite <- Hps in *. clear Hlp Hlr.
  destruct (detectDeadlock_final_state _ _ _ _ Hden Hfuel)
    as (h' & l & stf & Hrun & _ & _ & _ & Hinv & _).
  destruct (detectDeadlock_detect h matrix v fuel Hden) as (h'' & Hrun' & Hpres).
  assert (h'' = h') as -> by congruence.
  eexists _, h'. unfold bind. rewrite Hrun. simpl.
  split; [done|]. split; [done|]. right.
  split; [by rewrite Hps|]. split; [done|].
  eexists. split; [done|]. do 4 (split; [done|]).
  unfold DetectionPanel.hasDeadlock. simpl.
  pose proof (finish_deadlocked_nil _ _ Hinv Hnd) as Hnil.
  destruct (deadlocked (finish (v_processes v) stf)) as [|d ds]; simpl.
  - split; [done|]. intros Hnone. exfalso. by apply Hnil.
  - split; [|done]. intros _.
    destruct (safeSequence (finish (v_processes v) stf)) as [s|] eqn:Hs; [|done].
    exfalso. assert (d :: ds = []) as Habs; [|done]. by apply Hnil.
Qed.

(** X18 at scenario A. *)
Lemma runDetection_verdict_scenarioA :
  exists st' h',
    DetectionPanel.runDetection 3 scenarioA DetectionPanel.initial scenarioA_store
    = Some (Some st', h') /\
    preserved scenarioA_store h' /\
    (((v_processes scenarioA_value = [] \/ v_resources scenarioA_value = []) /\
      st' = DetectionPanel.initial) \/
     (v_processes scenarioA_value <> [] /\ v_resources scenarioA_value <> [] /\
      exists r,
        detectDeadlock 3 scenarioA scenarioA_store = Some (Some r, h') /\
        DetectionPanel.result st' = Some r /\
        DetectionPanel.detectionResult st' = Some r /\
        DetectionPanel.hasRun st' = true /\
        DetectionPanel.deadlockedProcesses st' = deadlocked r /\
        (DetectionPanel.hasDeadlock st' = true <-> safeSequence r = None))).
Proof.
  apply (runDetection_verdict scenarioA_store scenarioA scenarioA_value 3).
  - denotes_example.
  - simpl. lia.
  - apply (bool_decide_unpack _). vm_compute. exact I.
Defined.

(** ** The allocation graph view *)

Lemma filter_process_nodes ps rs :
  filter (fun n => node_type n = "process") (nodes (buildGraph ps rs))
  = processNode <$> ps.
Proof.
  simpl. rewrite filter_app, filter_all, filter_none; [apply app_nil_r| |].
  - apply Forall_forall. by intros n (r & -> & _)%list_elem_of_fmap.
  - apply Forall_forall. by intros n (p & -> & _)%list_elem_of_fmap.
Qed.

Lemma filter_resource_nodes ps rs :
  filter (fun n => node_type n = "resource") (nodes (buildGraph ps rs))
  = resourceNode <$> rs.
Proof.
  simpl. rewrite filter_app, filter_none, filter_all; [done| |].
  - apply Forall_forall. by intros n (r & -> & _)%list_elem_of_fmap.
  - apply Forall_forall. by intros n (p & -> & _)%list_elem_of_fmap.
Qed.

Lemma imap_same {A} (f : nat -> A -> A) (l : list A) :
  (forall i x, f i x = x) -> imap f l = l.
Proof.
  intros Hf. apply list_eq. intros i. rewrite list_lookup_imap.
  destruct (l !! i); simpl; by rewrite ?Hf.
Qed.

(** Nodes laid out on one row, 200 apart, are at distinct positions. *)
Lemma NoDup_row {A} (l : list A) (row : Z) :
  NoDup (imap (fun idx (_ : A) =>
                 {| AllocationGraph.x := 100 + Z.of_nat idx * 200;
                    AllocationGraph.y := row |}) l).
Proof.
  apply NoDup_alt. intros i j pos. rewrite !list_lookup_imap.
  destruct (l !! i); [|done]. destruct (l !! j); [|done]. simpl.
  intros [= <-] [= Heq]. lia.
Qed.

Lemma elem_of_row {A} (l : list A) (row : Z) pos :
  pos ∈ imap (fun idx (_ : A) =>
                {| AllocationGraph.x := 100 + Z.of_nat idx * 200;
                   AllocationGraph.y := row |}) l ->
  AllocationGraph.y pos = row.
Proof. by intros (i & a & -> & _)%elem_of_lookup_imap. Qed.

Lemma pretty_N_go_nonempty x s : s <> "" -> pretty_N_go x s <> "".
Proof.
  revert s. induction (N.lt_wf_0 x) as [x _ IH]. intros s Hs.
  destruct (decide (x = 0)%N) as [->|Hx]; [by rewrite pretty_N_go_0|].
  rewrite pretty_N_go_step by lia. apply IH; [|done].
  apply N.div_lt; lia.
Qed.

(** The decimal print of a positive amount is not the empty string. *)
Lemma pretty_positive_amount (a : Z) : 0 < a -> pretty a <> "".
Proof.
  destruct a as [|p|p]; try lia. intros _.
  unfold pretty, pretty_Z, pretty, pretty_positive, pretty, pretty_N.
  destruct (decide (N.pos p = 0)%N); [done|].
  rewrite pretty_N_go_step by lia. by apply pretty_N_go_nonempty.
Qed.

(** X19: the effect of the graph view shows nothing for a matrix without
    processes or without resources.  Otherwise it lays out the nodes of
    the graph, the processes on one row and the resources on another, in
    the order of the matrix, no two nodes at the same position, and it
    flags exactly the process nodes whose id is among the deadlocked ids
    it was given. *)
Theorem effect_nodes h matrix v deadlockedProcesses numberToString :
  denotes h matrix v ->
  exists ns es,
    AllocationGraph.effect numberToString matrix deadlockedProcesses h
    = Some ((ns, es), h) /\
    (v_processes v = [] \/ v_resources v = [] -> ns = [] /\ es = []) /\
    (v_processes v <> [] -> v_resources v <> [] ->
     AllocationGraph.node <$> ns
     = (processNode <$> v_processes v) ++ (resourceNode <$> v_resources v) /\
     NoDup (AllocationGraph.position <$> ns) /\
     (forall i n, ns !! i = Some n ->
        AllocationGraph.position n
        = if decide (i < length (v_processes v))%nat
          then {| AllocationGraph.x := 100 + Z.of_nat i * 200;
                  AllocationGraph.y := 200 |}
          else {| AllocationGraph.x :=
                    100 + Z.of_nat (i - length (v_processes v)) * 200;
                  AllocationGraph.y := 50 |}) /\
     (forall n, n ∈ ns ->
        AllocationGraph.data_deadlocked n = Some true
        <-> node_type (AllocationGraph.node n) = "process" /\
            node_id (AllocationGraph.node n) ∈ deadlockedProcesses)).
Proof.
  intros [Hden Hdbl]. destruct (holds_lengths _ _ _ Hden) as [Hlp Hlr].
  unfold AllocationGraph.effect. rewrite Hlp, Hlr.
  destruct (decide (v_processes v = [])) as [Hps|Hps].
  { rewrite Hps. eexists [], []. split; [done|]. split; [done|]. by intros []. }
  destruct (decide (v_resources v = [])) as [Hrs|Hrs].
  { rewrite Hrs, orb_true_r. eexists [], []. split; [done|]. split; [done|].
    by intros _ []. }
  assert (((length (v_processes v) =? 0)%nat || (length (v_resources v) =? 0)%nat)%bool
          = false) as -> by (by destruct (v_processes v), (v_resources v)).
  unfold bind. rewrite (wp_generateResourceFlowGraph h matrix v Hden).
  unfold AllocationGraph.processNodes, AllocationGraph.resourceNodes.
  change ((processNode <$> v_processes v) ++ (resourceNode <$> v_resources v))
    with (nodes (buildGraph (v_processes v) (v_resources v))).
  rewrite filter_process_nodes, filter_resource_nodes.
  eexists _, _. split; [done|].
  split; [by intros [Hnil|Hnil]|]. intros _ _.
  split; [|split; [|split]].
  - rewrite fmap_app, !fmap_imap. by rewrite !imap_same.
  - rewrite fmap_app, !fmap_imap. unfold compose. simpl.
    apply NoDup_app. split; [apply NoDup_row|]. split; [|apply NoDup_row].
    intros pos H1%elem_of_row H2%elem_of_row. congruence.
  - intros i n. rewrite lookup_app, !list_lookup_imap, length_imap, !length_fmap.
    destruct (decide (i < length (v_processes v))%nat) as [Hlt|Hge].
    + destruct (lookup_lt_is_Some_2 (processNode <$> v_processes v) i) as [x Hx];
        [by rewrite length_fmap|].
      rewrite Hx. simpl. by intros [= <-].
    + rewrite (lookup_ge_None_2 (processNode <$> v_processes v) i);
        [|rewrite length_fmap; lia]. simpl.
      destruct ((resourceNode <$> v_resources v) !! _); [|done]. simpl.
      by intros [= <-].
  - intros n [Hn|Hn]%elem_of_app;
      apply elem_of_lookup_imap in Hn as (i & x & -> & Hx); simpl.
    + apply list_elem_of_lookup_2, list_elem_of_fmap in Hx as (p & -> & _). simpl.
      split.
      * intros [= Hb]. split; [done|]. by apply bool_decide_eq_true in Hb.
      * intros [_ Hin]. f_equal. by apply bool_decide_eq_true.
    + apply list_elem_of_lookup_2, list_elem_of_fmap in Hx as (r & -> & _). simpl.
      split; [done|]. by intros [? _].
Qed.

(** X19 at scenario A, with both processes deadlocked. *)
Lemma effect_nodes_scenarioA :
  exists ns es,
    AllocationGraph.effect decimal scenarioA ["P1"; "P2"] scenarioA_store
    = Some ((ns, es), scenarioA_store) /\
    (v_processes scenarioA_value = [] \/ v_resources scenarioA_value = [] ->
     ns = [] /\ es = []) /\
    (v_processes scenarioA_value <> [] -> v_resources scenarioA_value <> [] ->
     AllocationGraph.node <$> ns
     = (processNode <$> v_processes scenarioA_value)
       ++ (resourceNode <$> v_resources scenarioA_value) /\
     NoDup (AllocationGraph.position <$> ns) /\
     (forall i n, ns !! i = Some n ->
        AllocationGraph.position n
        = if decide (i < length (v_processes scenarioA_value))%nat
          then {| AllocationGraph.x := 100 + Z.of_nat i * 200;
                  AllocationGraph.y := 200 |}
          else {| AllocationGraph.x :=
                    100 + Z.of_nat (i - length (v_processes scenarioA_value)) * 200;
                  AllocationGraph.y := 50 |}) /\
     (forall n, n ∈ ns ->
        AllocationGraph.data_deadlocked n = Some true
        <-> node_type (AllocationGraph.node n) = "process" /\
            node_id (AllocationGraph.node n) ∈ ["P1"; "P2"])).
Proof.
  apply (effect_nodes scenarioA_store scenarioA scenarioA_value ["P1"; "P2"] decimal).
  denotes_example.
Defined.

(** X20: the edges the graph view shows are the edges of the graph, in
    order; a request edge is animated and an allocation edge is not, and an
    edge is labelled with the text that the template literal of line 454
    makes of its amount ([numberToString]), except that an edge of amount 1
    has an empty label; as that text is never empty, the edges of amount 1
    are the only ones without a label. *)
Theorem effect_edges h matrix v deadlockedProcesses numberToString :
  denotes h matrix v ->
  v_processes v <> [] -> v_resources v <> [] ->
  (forall n, 1 < n -> numberToString n <> "") ->
  exists ns es,
    AllocationGraph.effect numberToString matrix deadlockedProcesses h
    = Some ((ns, es), h) /\
    AllocationGraph.edge <$> es = edges (buildGraph (v_processes v) (v_resources v)) /\
    forall e, e ∈ es ->
      (AllocationGraph.animated e = true
       <-> edge_type (AllocationGraph.edge e) = "request") /\
      (AllocationGraph.animated e = false
       <-> edge_type (AllocationGraph.edge e) = "allocation") /\
      (amount (AllocationGraph.edge e) = 1 -> AllocationGraph.label e = "") /\
      (amount (AllocationGraph.edge e) <> 1 ->
       AllocationGraph.label e = numberToString (amount (AllocationGraph.edge e)) /\
       AllocationGraph.label e <> "").
Proof.
  intros [Hden Hdbl] Hps Hrs Htext. destruct (holds_lengths _ _ _ Hden) as [Hlp Hlr].
  unfold AllocationGraph.effect. rewrite Hlp, Hlr.
  assert (((length (v_processes v) =? 0)%nat || (length (v_resources v) =? 0)%nat)%bool
          = false) as -> by (by destruct (v_processes v), (v_resources v)).
  unfold bind. rewrite (wp_generateResourceFlowGraph h matrix v Hden).
  eexists _, _. split; [done|]. unfold AllocationGraph.styledEdges.
  split.
  { rewrite <- list_fmap_compose. unfold compose. simpl. apply list_fmap_id. }
  intros e (g & -> & Hg)%list_elem_of_fmap. simpl.
  assert (0 < amount g /\ (edge_type g = "allocation" \/ edge_type g = "request"))
    as [Hpos Htype].
  { apply elem_of_app in Hg as [Hg|Hg];
      apply elem_of_flat_map in Hg as (p & _ & Hg);
      apply list_elem_of_fmap in Hg as ([rid a] & -> & [_ Ha]%elem_of_positiveEntries);
      simpl; split; auto. }
  split; [apply bool_decide_eq_true|]. split.
  { rewrite bool_decide_eq_false. destruct Htype as [-> | ->]; by split. }
  split.
  - intros ->. done.
  - intros Hne. destruct (Z.gtb_spec (amount g) 1) as [Hgt|Hle]; [|lia].
    split; [done|]. by apply Htext.
Qed.

(** X20 at scenario B, with amounts shown in decimal. *)
Lemma effect_edges_scenarioB :
  exists ns es,
    AllocationGraph.effect decimal scenarioB [] scenarioB_store
    = Some ((ns, es), scenarioB_store) /\
    AllocationGraph.edge <$> es
    = edges (buildGraph (v_processes scenarioB_value) (v_resources scenarioB_value)) /\
    forall e, e ∈ es ->
      (AllocationGraph.animated e = true
       <-> edge_type (AllocationGraph.edge e) = "request") /\
      (AllocationGraph.animated e = false
       <-> edge_type (AllocationGraph.edge e) = "allocation") /\
      (amount (AllocationGraph.edge e) = 1 -> AllocationGraph.label e = "") /\
      (amount (AllocationGraph.edge e) <> 1 ->
       AllocationGraph.label e = decimal (amount (AllocationGraph.edge e)) /\
       AllocationGraph.label e <> "").
Proof.
  apply (effect_edges scenarioB_store scenarioB scenarioB_value [] decimal).
  - denotes_example.
  - done.
  - done.
  - intros n Hn. apply pretty_positive_amount. lia.
Defined.
